(** * AutoFlow: workflow validation and permission inference

    A shallow embedding of the AutoFlow core
    ([src/core/permission-mappings.ts], [src/core/validator.ts],
    [src/core/pack-aggregator.ts]) and the properties of it that the
    specification states.

    Conventions of the embedding:
    - a plain JavaScript object used as a dictionary is a [gmap string V]
      holding its own properties; reading it goes through [Js.get], which
      also sees what every object literal inherits from [Object.prototype];
    - a JavaScript [Set] that is iterated is an insertion-ordered list
      without repetitions ([JsSet]); one that is only asked for membership
      is a [gset string]; a [Map] is a [gmap];
    - the validator's [nextIssueId] counter is threaded explicitly;
      code that can throw returns a [completion];
    - [Date.now()] readings ([timestamp], [analysisTime]) are left out of
      the records;
    - node weights and weight limits are integers, [warnThreshold] is a
      rational: arithmetic on them is exact;
    - strings are byte strings; the permission and rule names are ASCII,
      on which byte order and UTF-16 code unit order agree. *)

From stdpp Require Import gmap strings list sorting pretty.
From Stdlib Require Import Ascii QArith.

Local Open Scope Z_scope.

(* [set_solver] clears hypotheses that may be absent. *)
#[local] Set Warnings "-clear-no-such-hyp".

(** ** JavaScript preliminaries *)

Module Js.

(** The property names a plain object inherits from [Object.prototype]. *)
Definition Object_prototype_keys : list string :=
  [ "constructor"; "__defineGetter__"; "__defineSetter__"; "hasOwnProperty";
    "__lookupGetter__"; "__lookupSetter__"; "isPrototypeOf";
    "propertyIsEnumerable"; "toString"; "valueOf"; "__proto__";
    "toLocaleString" ].

(** What [obj[key]] evaluates to on an object literal: an own property,
    a member of [Object.prototype] (a function, or the prototype object
    itself for ["__proto__"]), or [undefined]. *)
Inductive prop (A : Type) : Type :=
  | Own (a : A)
  | Inherited (name : string)
  | Undefined.
Arguments Own {A} a.
Arguments Inherited {A} name.
Arguments Undefined {A}.

Definition get {A} (obj : gmap string A) (key : string) : prop A :=
  match obj !! key with
  | Some a => Own a
  | None =>
      if bool_decide (key ∈ Object_prototype_keys) then Inherited key
      else Undefined
  end.

(** [key in obj] *)
Definition has {A} (key : string) (obj : gmap string A) : bool :=
  match get obj key with
  | Undefined => false
  | _ => true
  end.

(** Truthiness of an optional string: [undefined] and [''] are falsy. *)
Definition truthy (s : option string) : bool :=
  match s with
  | Some s => negb (bool_decide (s = ""))
  | None => false
  end.

(** Errors the engine raises. The message texts are V8's. *)
Inductive Error : Type :=
  | TypeError (msg : string)
  | SyntaxError (msg : string).

Definition error_message (e : Error) : string :=
  match e with
  | TypeError m => m
  | SyntaxError m => m
  end.

(** The outcome of running a piece of code that may throw. *)
Inductive completion (A : Type) : Type :=
  | Normal (a : A)
  | Throw (e : Error).
Arguments Normal {A} a.
Arguments Throw {A} e.

Definition bind {A B} (c : completion A) (k : A → completion B) : completion B :=
  match c with
  | Normal a => k a
  | Throw e => Throw e
  end.

(** [Array.prototype.sort()] without a comparator on an array of
    strings: ascending by code unit. The order is total and
    antisymmetric, so the sorted array does not depend on the engine's
    algorithm ([sort_unique] below). *)
Definition sort (l : list string) : list string := merge_sort String.le l.

End Js.

(** A [Set<string>] that the code iterates: elements in insertion order. *)
Module JsSet.

Definition t := list string.

Definition empty : t := [].

Definition has (x : string) (s : t) : bool := bool_decide (x ∈ s).

Definition add (s : t) (x : string) : t :=
  if has x s then s else s ++ [x].

(** [xs.forEach(x => s.add(x))] *)
Definition add_all (s : t) (xs : list string) : t := fold_left add xs s.

(** [Array.from(s)] *)
Definition to_array (s : t) : list string := s.

End JsSet.

(** ** permission-mappings.ts *)

Definition ACTION_PERMISSION_MAPPINGS : gmap string (list string) :=
  list_to_map
    [ ("send_message", ["SEND_MESSAGES"; "VIEW_CHANNEL"]);
      ("edit_message", ["SEND_MESSAGES"; "VIEW_CHANNEL"]);
      ("send_direct_message", []);
      ("delete_message", ["MANAGE_MESSAGES"; "VIEW_CHANNEL"]);
      ("log_event", ["SEND_MESSAGES"; "VIEW_CHANNEL"]);
      ("add_role", ["MANAGE_ROLES"]);
      ("remove_role", ["MANAGE_ROLES"]);
      ("change_nickname", ["MANAGE_NICKNAMES"]);
      ("kick_user", ["KICK_MEMBERS"]);
      ("ban_user", ["BAN_MEMBERS"]);
      ("unban_user", ["BAN_MEMBERS"]);
      ("mute_user", ["MODERATE_MEMBERS"]);
      ("unmute_user", ["MODERATE_MEMBERS"]);
      ("create_channel", ["MANAGE_CHANNELS"]);
      ("delete_channel", ["MANAGE_CHANNELS"]);
      ("create_category", ["MANAGE_CHANNELS"]);
      ("modify_channel", ["MANAGE_CHANNELS"]);
      ("add_reaction", ["ADD_REACTIONS"; "VIEW_CHANNEL"]);
      ("remove_reaction", ["MANAGE_MESSAGES"; "VIEW_CHANNEL"]);
      ("pin_message", ["MANAGE_MESSAGES"; "VIEW_CHANNEL"]);
      ("unpin_message", ["MANAGE_MESSAGES"; "VIEW_CHANNEL"]);
      ("variable_update", []);
      ("database_insert", []);
      ("database_query", []);
      ("webhook_send", ["MANAGE_WEBHOOKS"]);
      ("http_request", []);
      ("create_invite", ["CREATE_INSTANT_INVITE"]) ].

Definition TRIGGER_PERMISSION_MAPPINGS : gmap string (list string) :=
  list_to_map
    [ ("user_join", []); ("user_leave", []); ("user_ban", []);
      ("user_kick", []); ("user_update", []);
      ("send_message", ["VIEW_CHANNEL"]);
      ("message_delete", ["VIEW_CHANNEL"]);
      ("message_edit", ["VIEW_CHANNEL"]);
      ("channel_create", []); ("channel_delete", []);
      ("role_create", []); ("role_delete", []);
      ("role_add", []); ("role_remove", []);
      ("reaction_add", ["VIEW_CHANNEL"]);
      ("reaction_remove", ["VIEW_CHANNEL"]);
      ("voice_channel_join", ["VIEW_CHANNEL"; "CONNECT"]);
      ("voice_channel_leave", ["VIEW_CHANNEL"; "CONNECT"]);
      ("server_update", []);
      ("slash_command", []); ("prefixed_command", []) ].

Inductive PermissionSeverity : Type := safe | moderate | dangerous.

Global Instance PermissionSeverity_eq_dec : EqDecision PermissionSeverity.
Proof. solve_decision. Defined.

Definition PERMISSION_SEVERITY : gmap string PermissionSeverity :=
  list_to_map
    [ ("ADMINISTRATOR", dangerous); ("BAN_MEMBERS", dangerous);
      ("KICK_MEMBERS", dangerous); ("MANAGE_GUILD", dangerous);
      ("MANAGE_ROLES", dangerous); ("MANAGE_WEBHOOKS", dangerous);
      ("MODERATE_MEMBERS", dangerous);
      ("MANAGE_CHANNELS", moderate); ("MANAGE_MESSAGES", moderate);
      ("MANAGE_NICKNAMES", moderate); ("MANAGE_THREADS", moderate);
      ("MANAGE_EVENTS", moderate); ("MANAGE_EMOJIS_AND_STICKERS", moderate);
      ("SEND_MESSAGES", safe); ("VIEW_CHANNEL", safe);
      ("ADD_REACTIONS", safe); ("CREATE_INSTANT_INVITE", safe);
      ("READ_MESSAGE_HISTORY", safe); ("SEND_MESSAGES_IN_THREADS", safe);
      ("EMBED_LINKS", safe); ("ATTACH_FILES", safe);
      ("USE_EXTERNAL_EMOJIS", safe); ("USE_EXTERNAL_STICKERS", safe);
      ("CONNECT", safe); ("SPEAK", safe); ("STREAM", safe);
      ("USE_VAD", safe); ("CHANGE_NICKNAME", safe);
      ("USE_APPLICATION_COMMANDS", safe) ].

(** The tables are evaluated by [vm_compute] only. *)
Global Opaque ACTION_PERMISSION_MAPPINGS TRIGGER_PERMISSION_MAPPINGS PERMISSION_SEVERITY.

(** [action in ACTION_PERMISSION_MAPPINGS] *)
Definition hasActionPermissionMapping (action : string) : bool :=
  Js.has action ACTION_PERMISSION_MAPPINGS.

(** [trigger in TRIGGER_PERMISSION_MAPPINGS] *)
Definition hasTriggerPermissionMapping (trigger : string) : bool :=
  Js.has trigger TRIGGER_PERMISSION_MAPPINGS.

(** What [getPermissionSeverity] hands back: one of the three severity
    strings, or, when the lookup lands on an inherited member (which is
    truthy, so [|| 'safe'] does not replace it), that member. *)
Inductive SeverityResult : Type :=
  | Severity (s : PermissionSeverity)
  | NotASeverity (inherited : string).

Global Instance SeverityResult_eq_dec : EqDecision SeverityResult.
Proof. solve_decision. Defined.

(** [PERMISSION_SEVERITY[permission] || 'safe'] *)
Definition getPermissionSeverity (permission : string) : SeverityResult :=
  match Js.get PERMISSION_SEVERITY permission with
  | Js.Own s => Severity s
  | Js.Inherited m => NotASeverity m
  | Js.Undefined => Severity safe
  end.

Definition PERMISSION_DESCRIPTIONS : gmap string string :=
  list_to_map
    [ ("SEND_MESSAGES", "Allows sending messages in text channels");
      ("VIEW_CHANNEL", "Allows viewing channels and reading message history");
      ("MANAGE_MESSAGES",
       "Allows deleting messages from other users and pinning messages");
      ("MANAGE_ROLES",
       "Allows creating, editing, and deleting roles below bot's highest role");
      ("BAN_MEMBERS", "Allows banning and unbanning members");
      ("KICK_MEMBERS", "Allows kicking members from the server");
      ("MANAGE_CHANNELS", "Allows creating, editing, and deleting channels");
      ("MANAGE_NICKNAMES", "Allows changing other members' nicknames");
      ("MODERATE_MEMBERS",
       "Allows timing out members to prevent them from sending messages");
      ("ADD_REACTIONS", "Allows adding reactions to messages");
      ("MANAGE_WEBHOOKS", "Allows creating, editing, and deleting webhooks");
      ("CREATE_INSTANT_INVITE", "Allows creating instant invites to the server");
      ("ADMINISTRATOR",
       "Grants all permissions and bypasses channel permission overwrites");
      ("MANAGE_GUILD", "Allows managing server settings and configurations");
      ("CONNECT", "Allows joining voice channels");
      ("SPEAK", "Allows speaking in voice channels");
      ("MANAGE_THREADS",
       "Allows managing threads (archive, delete, view private threads)");
      ("MANAGE_EVENTS", "Allows creating, editing, and deleting server events");
      ("MANAGE_EMOJIS_AND_STICKERS", "Allows managing custom emojis and stickers") ].

Global Opaque PERMISSION_DESCRIPTIONS.

(** What [getPermissionDescription] hands back: a text, or the inherited
    member the lookup landed on. *)
Inductive DescriptionResult : Type :=
  | Description (text : string)
  | NotADescription (inherited : string).

(** [PERMISSION_DESCRIPTIONS[permission] || `Discord permission: ${permission}`] *)
Definition getPermissionDescription (permission : string) : DescriptionResult :=
  match Js.get PERMISSION_DESCRIPTIONS permission with
  | Js.Own text =>
      if bool_decide (text = "") then Description ("Discord permission: " +:+ permission)
      else Description text
  | Js.Inherited m => NotADescription m
  | Js.Undefined => Description ("Discord permission: " +:+ permission)
  end.

(** ** validator.ts: data model *)

Inductive TriggerType : Type :=
  | event_trigger | slash_command | prefixed_command | schedule_trigger.

Record WorkflowTrigger : Type := {
  trigger_type : TriggerType;
  trigger_event : option string;
  trigger_command : option string;
  trigger_prefix : option string;
  trigger_schedule : option string;
}.

Inductive NodeType : Type :=
  | type_trigger | type_action | type_condition | type_transformer | type_end.

Global Instance NodeType_eq_dec : EqDecision NodeType.
Proof. solve_decision. Defined.

(** [params] and [onError] are never read by the engine and are left out. *)
Record WorkflowNode : Type := {
  node_id : string;
  node_type : NodeType;
  node_action : option string;
  node_connections : option (list string);
  node_weight : option Z;
  node_permissions : option (list string);
}.

Record VariableDefinition : Type := {
  variable_name : string;
}.

(** [Partial<AutomaterWorkflow>], restricted to the fields the engine
    reads or writes. *)
Record AutomaterWorkflow : Type := {
  workflow_id : option string;
  workflow_name : option string;
  workflow_version : option string;
  workflow_trigger : option WorkflowTrigger;
  workflow_nodes : option (list WorkflowNode);
  workflow_permissions : option (list string);
  workflow_variables : option (list VariableDefinition);
}.

Inductive Family : Type := AUT | SYS.

Inductive IssueSeverity : Type := info | warn | error | critical.

Global Instance IssueSeverity_eq_dec : EqDecision IssueSeverity.
Proof. solve_decision. Defined.

Record Location : Type := {
  loc_nodeId : option string;
  loc_edgeId : option string;
  loc_path : option string;
}.

Global Instance Location_eq_dec : EqDecision Location.
Proof. solve_decision. Defined.

Definition at_node (id : string) : Location :=
  {| loc_nodeId := Some id; loc_edgeId := None; loc_path := None |}.

Definition at_path (p : string) : Location :=
  {| loc_nodeId := None; loc_edgeId := None; loc_path := Some p |}.

Record LintIssue : Type := {
  issue_id : string;
  ruleId : string;
  errorCode : string;
  family : Family;
  severity : IssueSeverity;
  message : string;
  remediation : string;
  location : option Location;
  suggestions : option (list string);
  fixable : bool;
}.

Record Summary : Type := {
  total : nat;
  summary_errors : nat;
  summary_warnings : nat;
  summary_infos : nat;
  summary_criticals : nat;
}.

Record WorkflowLintResult : Type := {
  workflowId : string;
  isValid : bool;
  summary : Summary;
  issues : list LintIssue;
  errors : list LintIssue;
  warnings : list LintIssue;
  infos : list LintIssue;
  criticals : list LintIssue;
  fixableCount : nat;
  rulesExecuted : nat;
}.

(** The declared levels are ['off' | 'warn' | 'error']; the default table
    also uses ['info']. *)
Inductive RuleLevel : Type := rule_off | rule_info | rule_warn | rule_error.

Global Instance RuleLevel_eq_dec : EqDecision RuleLevel.
Proof. solve_decision. Defined.

Record RateLimits : Type := {
  maxWorkflowWeight : Z;
  maxNodeWeight : Z;
  warnThreshold : Q;
}.

(** What [new RegExp(source)] does with a pattern source: it throws, or
    yields a regular expression whose [test] is the given predicate. The
    engine's reading of a caller-supplied source travels with the
    source. *)
Inductive RegExp : Type :=
  | Invalid (e : Js.Error)
  | Compiled (test : string → bool).

Record Pattern : Type := {
  pattern_source : string;
  pattern_RegExp : RegExp;
}.

Record Naming : Type := {
  workflowIdPattern : string;
  nodeIdPattern : string;
  variableNamePattern : Pattern;
}.

Record Settings : Type := {
  rateLimits : option RateLimits;
  naming : option Naming;
}.

Record LintConfig : Type := {
  rules : gmap string RuleLevel;
  settings : option Settings;
}.

(** *** Character classes and the two literal regular expressions *)

Definition between (lo hi : N) (c : ascii) : bool :=
  ((lo <=? N_of_ascii c) && (N_of_ascii c <=? hi))%N.

(** [[0-9]] (and [\d]) *)
Definition is_digit : ascii → bool := between 48 57.
(** [[1-9]] *)
Definition is_nonzero_digit : ascii → bool := between 49 57.
(** [[a-zA-Z]] *)
Definition is_letter (c : ascii) : bool := between 65 90 c || between 97 122 c.

Fixpoint skip (p : ascii → bool) (s : string) : string :=
  match s with
  | String c s' => if p c then skip p s' else s
  | EmptyString => s
  end.

(** [/^[a-zA-Z][a-zA-Z0-9_]*$/] *)
Definition is_word_char (c : ascii) : bool :=
  is_letter c || is_digit c || bool_decide (c = "_"%char).

Definition test_identifier (s : string) : bool :=
  match s with
  | String c s' => is_letter c && bool_decide (skip is_word_char s' = "")
  | EmptyString => false
  end.

(** The group [0|[1-9]\d*]: the rest of the input after it, if it matches.
    No shorter match of the group can be followed by what the pattern
    asks for next, so the leftmost-greedy match is the only one to try. *)
Definition numeric_identifier (s : string) : option string :=
  match s with
  | String c s' =>
      if bool_decide (c = "0"%char) then Some s'
      else if is_nonzero_digit c then Some (skip is_digit s')
      else None
  | EmptyString => None
  end.

(** [[0-9A-Za-z.-]] *)
Definition is_tag_char (c : ascii) : bool :=
  is_digit c || is_letter c || bool_decide (c = "."%char) || bool_decide (c = "-"%char).

(** [\.] *)
Definition dot (s : string) : option string :=
  match s with
  | String c s' => if bool_decide (c = "."%char) then Some s' else None
  | EmptyString => None
  end.

(** [(?:<lead>[0-9A-Za-z.-]+)?]: the rest of the input after the optional
    group. *)
Definition optional_tag (lead : ascii) (s : string) : string :=
  match s with
  | String c (String d s') =>
      if bool_decide (c = lead) && is_tag_char d then skip is_tag_char s' else s
  | _ => s
  end.

(** [semverPattern.test(s)]: from the start of the input, three groups
    [0|[1-9]\d*] separated by [\.], then the optional groups
    [-[0-9A-Za-z.-]+] and [\+[0-9A-Za-z.-]+], then the end of the input. *)
Definition semverPattern_test (s : string) : bool :=
  match
    s1 ← numeric_identifier s; s2 ← dot s1;
    s3 ← numeric_identifier s2; s4 ← dot s3;
    s5 ← numeric_identifier s4;
    Some (optional_tag "+" (optional_tag "-" s5))
  with
  | Some rest => bool_decide (rest = "")
  | None => false
  end.

(** *** Default configuration *)

Definition DEFAULT_variableNamePattern : Pattern :=
  {| pattern_source := "^[a-zA-Z][a-zA-Z0-9_]*$";
     pattern_RegExp := Compiled test_identifier |}.

Definition DEFAULT_LINT_CONFIG : LintConfig :=
  {| rules := list_to_map
       [ ("schema/required-fields", rule_error);
         ("schema/field-types", rule_error);
         ("schema/semver", rule_error);
         ("schema/enum-values", rule_error);
         ("graph/missing-nodes", rule_error);
         ("graph/entry-points", rule_error);
         ("graph/unreachable-nodes", rule_warn);
         ("graph/infinite-loops", rule_error);
         ("graph/dead-ends", rule_warn);
         ("variable/undefined-reference", rule_error);
         ("variable/invalid-interpolation", rule_error);
         ("variable/scope-mismatch", rule_warn);
         ("variable/naming-convention", rule_warn);
         ("trigger/unknown-event", rule_error);
         ("trigger/invalid-command", rule_error);
         ("action/unknown-type", rule_error);
         ("action/missing-params", rule_error);
         ("security/missing-permissions", rule_error);
         ("security/excessive-permissions", rule_warn);
         ("security/hardcoded-secrets", rule_error);
         ("security/pii-exposure", rule_warn);
         ("perf/missing-weight", rule_warn);
         ("perf/high-weight", rule_warn);
         ("perf/deep-nesting", rule_warn);
         ("perf/large-workflow", rule_info);
         ("style/naming-convention", rule_warn);
         ("style/description-required", rule_warn);
         ("style/icon-color-consistency", rule_info);
         ("style/deprecated-features", rule_warn) ];
     settings := Some
       {| rateLimits := Some
            {| maxWorkflowWeight := 1000; maxNodeWeight := 100;
               warnThreshold := 8 # 10 |};
          naming := Some
            {| workflowIdPattern := "^automation-[A-Za-z0-9]{15}$";
               nodeIdPattern := "^[a-zA-Z][a-zA-Z0-9_-]*$";
               variableNamePattern := DEFAULT_variableNamePattern |} |} |}.

(** *** Error catalog *)

Inductive ErrorCode : Type :=
  | E3310 | E3311 | E3312 | E3313 | E4120 | E4121 | E5510 | E5511.

Definition code_number (c : ErrorCode) : N :=
  match c with
  | E3310 => 3310 | E3311 => 3311 | E3312 => 3312 | E3313 => 3313
  | E4120 => 4120 | E4121 => 4121 | E5510 => 5510 | E5511 => 5511
  end%N.

Record CatalogEntry : Type := {
  cat_family : Family;
  cat_key : string;
  cat_severity : IssueSeverity;
  cat_message : string;
  cat_remediation : string;
}.

Definition ERROR_CATALOG (c : ErrorCode) : CatalogEntry :=
  match c with
  | E3310 => {| cat_family := AUT; cat_key := "AUT_WORKFLOW_UNREACHABLE_NODES";
      cat_severity := warn;
      cat_message := "Workflow contains unreachable nodes";
      cat_remediation := "Remove unreachable nodes or add connections to make them reachable" |}
  | E3311 => {| cat_family := AUT; cat_key := "AUT_NODE_MISSING_CONNECTIONS";
      cat_severity := error;
      cat_message := "Node is missing required connections";
      cat_remediation := "Add connections array to node or connect to valid target nodes" |}
  | E3312 => {| cat_family := AUT; cat_key := "AUT_VARIABLE_INVALID_INTERPOLATION";
      cat_severity := error;
      cat_message := "Invalid variable interpolation syntax";
      cat_remediation := "Use correct syntax: {variable.name} or {member.displayName}" |}
  | E3313 => {| cat_family := AUT; cat_key := "AUT_ICON_NOT_APPROVED";
      cat_severity := warn;
      cat_message := "Icon is not in the approved icon catalog";
      cat_remediation := "Choose from approved icons in Icon System PRD" |}
  | E4120 => {| cat_family := AUT; cat_key := "AUT_RATE_LIMIT_HIGH_WEIGHT";
      cat_severity := warn;
      cat_message := "Workflow weight may cause rate limiting";
      cat_remediation := "Reduce node weight or optimize workflow to use fewer resources" |}
  | E4121 => {| cat_family := AUT; cat_key := "AUT_NODE_MISSING_WEIGHT";
      cat_severity := warn;
      cat_message := "Action node missing rate limit weight";
      cat_remediation := "Add weight property to action node for accurate rate limiting" |}
  | E5510 => {| cat_family := SYS; cat_key := "SYS_WORKFLOW_PARSE_ERROR";
      cat_severity := error;
      cat_message := "Unable to parse workflow file";
      cat_remediation := "Check JSON syntax and workflow structure" |}
  | E5511 => {| cat_family := SYS; cat_key := "SYS_SCHEMA_VALIDATION_FAILED";
      cat_severity := error;
      cat_message := "Workflow schema validation failed";
      cat_remediation := "Fix schema violations listed in validation errors" |}
  end.

Definition family_name (f : Family) : string :=
  match f with AUT => "AUT" | SYS => "SYS" end.

(** ** validator.ts: the [AutoFlowValidator] class *)

Global Opaque DEFAULT_LINT_CONFIG.

(** The argument of the constructor: [Partial<LintConfig>]. *)
Record PartialLintConfig : Type := {
  partial_rules : option (gmap string RuleLevel);
  partial_settings : option Settings;
}.

(** An instance: its [config] and its [nextIssueId]. *)
Record AutoFlowValidator : Type := {
  config : LintConfig;
  nextIssueId : nat;
}.

Definition merge_settings (base override : option Settings) : Settings :=
  let pick {A} (f : Settings → option A) : option A :=
    match override ≫= f with
    | Some a => Some a
    | None => base ≫= f
    end in
  {| rateLimits := pick rateLimits; naming := pick naming |}.

(** [new AutoFlowValidator(config)]: the caller's rules override the
    default table entry by entry, its settings group by group. *)
Definition new_AutoFlowValidator (c : PartialLintConfig) : AutoFlowValidator :=
  {| config :=
       {| rules := default ∅ (partial_rules c) ∪ rules DEFAULT_LINT_CONFIG;
          settings := Some (merge_settings (settings DEFAULT_LINT_CONFIG)
                                           (partial_settings c)) |};
     nextIssueId := 1 |}.

(** [const config = this.config.rules[ruleId]; return config && config !== 'off'] *)
Definition isRuleEnabled (cfg : LintConfig) (rule : string) : bool :=
  match Js.get (rules cfg) rule with
  | Js.Own level => negb (bool_decide (level = rule_off))
  | Js.Inherited _ => true
  | Js.Undefined => false
  end.

(** [filterIssues]: its callback is the body of [isRuleEnabled] at
    [issue.ruleId]. *)
Definition filterIssues (cfg : LintConfig) (l : list LintIssue) : list LintIssue :=
  List.filter (λ issue, isRuleEnabled cfg (ruleId issue)) l.

Record IssueOptions : Type := {
  opt_message : option string;
  opt_location : option Location;
  opt_suggestions : option (list string);
}.

(** [createIssue]: reads and increments [nextIssueId]. *)
Definition createIssue (rule : string) (code : ErrorCode) (options : IssueOptions)
    (next : nat) : LintIssue * nat :=
  let catalog := ERROR_CATALOG code in
  ({| issue_id := "issue-" +:+ pretty next;
      ruleId := rule;
      errorCode := family_name (cat_family catalog) +:+ "-" +:+ pretty (code_number code);
      family := cat_family catalog;
      severity := cat_severity catalog;
      message := if Js.truthy (opt_message options)
                 then default "" (opt_message options)
                 else cat_message catalog;
      remediation := cat_remediation catalog;
      location := opt_location options;
      suggestions := opt_suggestions options;
      fixable := false |},
   S next).

Definition createSystemError (e : Js.Error) (next : nat) : LintIssue * nat :=
  ({| issue_id := "system-error-" +:+ pretty next;
      ruleId := "system/parse-error";
      errorCode := "SYS-5510";
      family := SYS;
      severity := error;
      message := "System error: " +:+ Js.error_message e;
      remediation := "Check workflow structure and try again";
      location := None;
      suggestions := None;
      fixable := false |},
   S next).

(** The [issues] array of a validation method together with the
    instance's [nextIssueId]. *)
Definition Emitted : Type := list LintIssue * nat.

(** [issues.push(this.createIssue(rule, code, options))] *)
Definition push_issue (st : Emitted) (rule : string) (code : ErrorCode)
    (options : IssueOptions) : Emitted :=
  let '(issue, next) := createIssue rule code options st.2 in
  (st.1 ++ [issue], next).

Global Arguments push_issue : simpl never.

Definition with_message (m : string) (l : Location) : IssueOptions :=
  {| opt_message := Some m; opt_location := Some l; opt_suggestions := None |}.

(** *** validateWorkflowStructure *)

Definition requiredFields : list string := ["id"; "name"; "version"; "trigger"].

(** [workflow[field]] read as a condition, for the four required fields. *)
Definition field_truthy (workflow : AutomaterWorkflow) (field : string) : bool :=
  if bool_decide (field = "id") then Js.truthy (workflow_id workflow)
  else if bool_decide (field = "name") then Js.truthy (workflow_name workflow)
  else if bool_decide (field = "version") then Js.truthy (workflow_version workflow)
  else if bool_decide (field = "trigger") then bool_decide (is_Some (workflow_trigger workflow))
  else false.

Definition check_required_field (workflow : AutomaterWorkflow) (st : Emitted)
    (field : string) : Emitted :=
  if negb (field_truthy workflow field)
  then push_issue st "schema/required-fields" E5511
         (with_message ("Required field '" +:+ field +:+ "' is missing") (at_path field))
  else st.

Definition validateWorkflowStructure (cfg : LintConfig) (workflow : AutomaterWorkflow)
    (next : nat) : Emitted :=
  if negb (isRuleEnabled cfg "schema/required-fields") then ([], next)
  else
    let st := fold_left (check_required_field workflow) requiredFields ([], next) in
    if Js.truthy (workflow_version workflow) && isRuleEnabled cfg "schema/semver"
    then
      if negb (semverPattern_test (default "" (workflow_version workflow)))
      then push_issue st "schema/semver" E5511
             (with_message "Version must be valid SemVer (e.g., 1.2.3)" (at_path "version"))
      else st
    else st.

(** *** validateGraphIntegrity *)

(** The state of the "build connections" loops: the issues pushed so far
    with the id counter, and the two [Map]s. *)
Record Connections : Type := {
  emitted : Emitted;
  adjacencyList : gmap string (list string);
  reverseAdjacencyList : gmap string (list string);
}.

(** [node.connections || []] *)
Definition connections_of (node : WorkflowNode) : list string :=
  default [] (node_connections node).

(** [for (const node of nodes) { adjacencyList.set(node.id, []); ... }] *)
Definition initialize (nodes : list WorkflowNode) : gmap string (list string) :=
  fold_left (λ m node, <[node_id node := []]> m) nodes ∅.

(** [map.get(key)?.push(x)] *)
Definition push_at (key x : string) (m : gmap string (list string)) :
    gmap string (list string) :=
  alter (λ l, l ++ [x]) key m.

(** The body of the inner loop, for the edge [node.id -> targetId]. *)
Definition connect (cfg : LintConfig) (nodeIds : gset string) (node : WorkflowNode)
    (c : Connections) (targetId : string) : Connections :=
  if negb (bool_decide (targetId ∈ nodeIds)) && isRuleEnabled cfg "graph/missing-nodes"
  then
    {| emitted := push_issue (emitted c) "graph/missing-nodes" E3311
         (with_message ("Node '" +:+ node_id node +:+ "' connects to non-existent node '"
                        +:+ targetId +:+ "'")
                       (at_node (node_id node)));
       adjacencyList := adjacencyList c;
       reverseAdjacencyList := reverseAdjacencyList c |}
  else
    {| emitted := emitted c;
       adjacencyList := push_at (node_id node) targetId (adjacencyList c);
       reverseAdjacencyList := push_at targetId (node_id node) (reverseAdjacencyList c) |}.

Definition connect_node (cfg : LintConfig) (nodeIds : gset string)
    (c : Connections) (node : WorkflowNode) : Connections :=
  fold_left (connect cfg nodeIds node) (connections_of node) c.

Definition nodeIds_of (nodes : list WorkflowNode) : gset string :=
  list_to_set (map node_id nodes).

(** The "initialize" and "build connections" loops. *)
Definition buildConnections (cfg : LintConfig) (nodes : list WorkflowNode)
    (next : nat) : Connections :=
  fold_left (connect_node cfg (nodeIds_of nodes)) nodes
    {| emitted := ([], next);
       adjacencyList := initialize nodes;
       reverseAdjacencyList := initialize nodes |}.

(** The callback of [nodes.filter] that selects the entry points. *)
Definition is_entry (reverseAdjacencyList : gmap string (list string))
    (node : WorkflowNode) : bool :=
  bool_decide (node_type node = type_trigger)
  || (length (default [] (reverseAdjacencyList !! node_id node)) =? 0)%nat.

(** The recursive closure [dfs]. The recursion depth is bounded by
    [fuel]; [dfs_fuel_irrelevant] shows that the fuel
    [validateGraphIntegrity] supplies is never exhausted. *)
Fixpoint dfs (fuel : nat) (adjacencyList : gmap string (list string))
    (nodeId : string) (reachable : gset string) : gset string :=
  match fuel with
  | O => reachable
  | S fuel' =>
      if bool_decide (nodeId ∈ reachable) then reachable
      else
        fold_left (λ r connected, dfs fuel' adjacencyList connected r)
          (default [] (adjacencyList !! nodeId))
          ({[nodeId]} ∪ reachable)
  end.

(** A bound on the number of distinct ids the traversal can meet. *)
Definition dfs_fuel (nodes : list WorkflowNode) : nat :=
  S (length nodes + length (flat_map connections_of nodes)).

(** [entryNodes.forEach(node => dfs(node.id))] *)
Definition reachable_from (fuel : nat) (adjacencyList : gmap string (list string))
    (entryNodes : list WorkflowNode) : gset string :=
  fold_left (λ r node, dfs fuel adjacencyList (node_id node) r) entryNodes ∅.

Definition report_unreachable (st : Emitted) (node : WorkflowNode) : Emitted :=
  push_issue st "graph/unreachable-nodes" E3310
    (with_message ("Node '" +:+ node_id node +:+ "' is unreachable from entry points")
                  (at_node (node_id node))).

Definition validateGraphIntegrity (cfg : LintConfig) (nodes : list WorkflowNode)
    (next : nat) : Emitted :=
  if bool_decide (nodes = []) then ([], next)
  else
    let c := buildConnections cfg nodes next in
    let entryNodes := List.filter (is_entry (reverseAdjacencyList c)) nodes in
    let st :=
      if isRuleEnabled cfg "graph/entry-points" && (length entryNodes =? 0)%nat
      then push_issue (emitted c) "graph/entry-points" E3311
             (with_message "Workflow must have at least one entry point (trigger node)"
                           (at_path "nodes"))
      else emitted c in
    if isRuleEnabled cfg "graph/unreachable-nodes"
    then
      let reachable := reachable_from (dfs_fuel nodes) (adjacencyList c) entryNodes in
      let unreachableNodes :=
        List.filter (λ node, negb (bool_decide (node_id node ∈ reachable))) nodes in
      fold_left report_unreachable unreachableNodes st
    else st.

(** *** validateNodeList *)

Definition settings_rateLimits (cfg : LintConfig) : option RateLimits :=
  settings cfg ≫= rateLimits.

(** [x || d] on a number: [undefined] and [0] give [d]. *)
Definition or_default (x : option Z) (d : Z) : Z :=
  match x with
  | Some v => if bool_decide (v = 0) then d else v
  | None => d
  end.

(** The body of the loop of [validateNodeList]. A weight is an integer
    and is printed in decimal, which is how the code prints an integer
    below 1e21; the model does not cover fractional or larger weights. *)
Definition check_node (cfg : LintConfig) (st : Emitted) (node : WorkflowNode) : Emitted :=
  let st :=
    if bool_decide (node_type node = type_action) && isRuleEnabled cfg "action/unknown-type"
       && negb (Js.truthy (node_action node))
    then push_issue st "action/missing-params" E3311
           (with_message ("Action node '" +:+ node_id node +:+ "' is missing action type")
                         (at_node (node_id node)))
    else st in
  let st :=
    if bool_decide (node_type node = type_action) && isRuleEnabled cfg "perf/missing-weight"
       && negb (bool_decide (is_Some (node_weight node)))
    then push_issue st "perf/missing-weight" E4121
           {| opt_message := Some ("Action node '" +:+ node_id node
                                   +:+ "' is missing rate limit weight");
              opt_location := Some (at_node (node_id node));
              opt_suggestions := Some ["Add weight property (typical values: 5-30)"] |}
    else st in
  match node_weight node with
  | Some weight =>
      if isRuleEnabled cfg "perf/high-weight"
      then
        let maxWeight := or_default (maxNodeWeight <$> settings_rateLimits cfg) 100 in
        if bool_decide (maxWeight < weight)
        then push_issue st "perf/high-weight" E4120
               (with_message ("Node '" +:+ node_id node +:+ "' weight (" +:+ pretty weight
                              +:+ ") exceeds recommended maximum (" +:+ pretty maxWeight
                              +:+ ")")
                             (at_node (node_id node)))
        else st
      else st
  | None => st
  end.

Definition validateNodeList (cfg : LintConfig) (nodes : list WorkflowNode)
    (next : nat) : Emitted :=
  fold_left (check_node cfg) nodes ([], next).

(** *** validateVariables *)

(** [this.config.settings?.naming?.variableNamePattern || '^[a-zA-Z][a-zA-Z0-9_]*$'] *)
Definition variable_pattern (cfg : LintConfig) : Pattern :=
  match variableNamePattern <$> (settings cfg ≫= naming) with
  | Some p => if bool_decide (pattern_source p = "") then DEFAULT_variableNamePattern else p
  | None => DEFAULT_variableNamePattern
  end.

Definition check_variable (test : string → bool) (st : Emitted)
    (variable : VariableDefinition) : Emitted :=
  if negb (test (variable_name variable))
  then push_issue st "variable/naming-convention" E3312
         {| opt_message := Some ("Variable name '" +:+ variable_name variable
                                 +:+ "' doesn't follow naming convention");
            opt_location := Some (at_path ("variables." +:+ variable_name variable));
            opt_suggestions := Some ["Use camelCase or snake_case naming"] |}
  else st.

(** [new RegExp(pattern)] may throw; nothing has been pushed by then. *)
Definition validateVariables (cfg : LintConfig) (variables : list VariableDefinition)
    (next : nat) : Js.completion (list LintIssue) * nat :=
  if negb (isRuleEnabled cfg "variable/naming-convention") then (Js.Normal [], next)
  else
    match pattern_RegExp (variable_pattern cfg) with
    | Invalid e => (Js.Throw e, next)
    | Compiled test =>
        let st := fold_left (check_variable test) variables ([], next) in
        (Js.Normal st.1, st.2)
    end.

(** *** validatePerformance *)

(** [nodes.reduce((sum, node) => sum + (node.weight || 0), 0)] *)
Definition totalWeight (nodes : list WorkflowNode) : Z :=
  fold_left (λ sum node, sum + default 0 (node_weight node)) nodes 0.

(** [this.config.settings?.rateLimits?.warnThreshold || 0.8] *)
Definition warnThreshold_of (cfg : LintConfig) : Q :=
  match warnThreshold <$> settings_rateLimits cfg with
  | Some t => if Qeq_bool t 0 then 8 # 10 else t
  | None => 8 # 10
  end.

(** [totalWeight > maxWeight * warnThreshold] is decided exactly, on the
    rational that [warnThreshold] denotes; the code rounds the product to
    a double, so the two can differ when the product is not a double. *)
Definition validatePerformance (cfg : LintConfig) (workflow : AutomaterWorkflow)
    (next : nat) : Emitted :=
  match workflow_nodes workflow with
  | None => ([], next)
  | Some nodes =>
      let st : Emitted := ([], next) in
      let st :=
        if isRuleEnabled cfg "perf/large-workflow" && (50 <? length nodes)%nat
        then push_issue st "perf/large-workflow" E4120
               (with_message ("Large workflow (" +:+ pretty (length nodes)
                              +:+ " nodes) may be difficult to maintain")
                             (at_path "nodes"))
        else st in
      if isRuleEnabled cfg "perf/high-weight"
      then
        let maxWeight := or_default (maxWorkflowWeight <$> settings_rateLimits cfg) 1000 in
        if negb (Qle_bool (inject_Z (totalWeight nodes))
                          (inject_Z maxWeight * warnThreshold_of cfg))
        then push_issue st "perf/high-weight" E4120
               (with_message ("Total workflow weight (" +:+ pretty (totalWeight nodes)
                              +:+ ") approaches rate limit threshold")
                             (at_path "nodes"))
        else st
      else st
  end.

(** *** Permission detection *)

(** The trigger's contribution, common to the three permission methods:
    [workflow.trigger?.event], if truthy and [in] the trigger table, is
    looked up and its entries are added to the set. An inherited member
    has no [forEach]: calling it throws. *)
Definition trigger_permissions (workflow : AutomaterWorkflow) : Js.completion JsSet.t :=
  let triggerEvent := workflow_trigger workflow ≫= trigger_event in
  if Js.truthy triggerEvent && hasTriggerPermissionMapping (default "" triggerEvent)
  then
    match Js.get TRIGGER_PERMISSION_MAPPINGS (default "" triggerEvent) with
    | Js.Own triggerPerms => Js.Normal (JsSet.add_all JsSet.empty triggerPerms)
    | _ => Js.Throw (Js.TypeError "triggerPerms.forEach is not a function")
    end
  else Js.Normal JsSet.empty.

(** [node.type === 'action' && node.action] *)
Definition is_action_node (node : WorkflowNode) : bool :=
  bool_decide (node_type node = type_action) && Js.truthy (node_action node).

Definition action_of (node : WorkflowNode) : string := default "" (node_action node).

(** The node loop of [detectRequiredPermissions]. *)
Fixpoint required_of_nodes (nodes : list WorkflowNode) (requiredPermissions : JsSet.t) :
    Js.completion JsSet.t :=
  match nodes with
  | [] => Js.Normal requiredPermissions
  | node :: rest =>
      if is_action_node node && hasActionPermissionMapping (action_of node)
      then
        match Js.get ACTION_PERMISSION_MAPPINGS (action_of node) with
        | Js.Own actionPerms =>
            required_of_nodes rest (JsSet.add_all requiredPermissions actionPerms)
        | _ => Js.Throw (Js.TypeError "actionPerms.forEach is not a function")
        end
      else required_of_nodes rest requiredPermissions
  end.

(** [detectRequiredPermissions]: it writes nothing. Iterating a missing
    node list throws. *)
Definition detectRequiredPermissions (workflow : AutomaterWorkflow) :
    Js.completion (list string) :=
  Js.bind (trigger_permissions workflow) (λ requiredPermissions,
    match workflow_nodes workflow with
    | None => Js.Throw (Js.TypeError "workflow.nodes is not iterable")
    | Some nodes =>
        Js.bind (required_of_nodes nodes requiredPermissions) (λ requiredPermissions,
          Js.Normal (Js.sort (JsSet.to_array requiredPermissions)))
    end).

Definition set_node_permissions (node : WorkflowNode) (p : list string) : WorkflowNode :=
  {| node_id := node_id node; node_type := node_type node;
     node_action := node_action node; node_connections := node_connections node;
     node_weight := node_weight node; node_permissions := Some p |}.

Definition set_workflow_nodes (w : AutomaterWorkflow) (nodes : list WorkflowNode) :
    AutomaterWorkflow :=
  {| workflow_id := workflow_id w; workflow_name := workflow_name w;
     workflow_version := workflow_version w; workflow_trigger := workflow_trigger w;
     workflow_nodes := Some nodes; workflow_permissions := workflow_permissions w;
     workflow_variables := workflow_variables w |}.

Definition set_workflow_permissions (w : AutomaterWorkflow) (p : list string) :
    AutomaterWorkflow :=
  {| workflow_id := workflow_id w; workflow_name := workflow_name w;
     workflow_version := workflow_version w; workflow_trigger := workflow_trigger w;
     workflow_nodes := workflow_nodes w; workflow_permissions := Some p;
     workflow_variables := workflow_variables w |}.

(** What the node loop of [detectAndValidatePermissions] leaves behind:
    how it completed (with the set), the issues and the counter, and the
    node objects as it wrote them (a throw keeps the writes made so far). *)
Record Detected : Type := {
  detected : Js.completion JsSet.t;
  detected_issues : Emitted;
  detected_nodes : list WorkflowNode;
}.

Fixpoint detect_nodes (cfg : LintConfig) (nodes : list WorkflowNode)
    (requiredPermissions : JsSet.t) (st : Emitted) : Detected :=
  match nodes with
  | [] => {| detected := Js.Normal requiredPermissions; detected_issues := st;
             detected_nodes := [] |}
  | node :: rest =>
      if is_action_node node
      then
        match Js.get ACTION_PERMISSION_MAPPINGS (action_of node) with
        | Js.Own actionPerms =>
            let d := detect_nodes cfg rest (JsSet.add_all requiredPermissions actionPerms) st in
            {| detected := detected d; detected_issues := detected_issues d;
               detected_nodes := set_node_permissions node actionPerms :: detected_nodes d |}
        | Js.Inherited _ =>
            {| detected := Js.Throw (Js.TypeError "actionPerms.forEach is not a function");
               detected_issues := st; detected_nodes := node :: rest |}
        | Js.Undefined =>
            let st :=
              if isRuleEnabled cfg "security/missing-permissions"
              then push_issue st "security/missing-permissions" E3311
                     {| opt_message := Some ("Unknown action '" +:+ action_of node
                                             +:+ "' - cannot detect required permissions");
                        opt_location := Some (at_node (node_id node));
                        opt_suggestions := Some
                          [ "Check if action is implemented in permission-mappings.ts";
                            "Add permission mapping for this action type" ] |}
              else st in
            let d := detect_nodes cfg rest requiredPermissions st in
            {| detected := detected d; detected_issues := detected_issues d;
               detected_nodes := set_node_permissions node [] :: detected_nodes d |}
        end
      else
        let d := detect_nodes cfg rest requiredPermissions st in
        {| detected := detected d; detected_issues := detected_issues d;
           detected_nodes := node :: detected_nodes d |}
  end.

(** [detectAndValidatePermissions]: the issues (or the error thrown), the
    workflow object as the call leaves it, and the id counter. The
    orchestrator calls it only on a workflow that has a node list. *)
Definition detectAndValidatePermissions (cfg : LintConfig) (workflow : AutomaterWorkflow)
    (next : nat) : Js.completion (list LintIssue) * AutomaterWorkflow * nat :=
  match trigger_permissions workflow with
  | Js.Throw e => (Js.Throw e, workflow, next)
  | Js.Normal requiredPermissions =>
      match workflow_nodes workflow with
      | None => (Js.Throw (Js.TypeError "workflow.nodes is not iterable"), workflow, next)
      | Some nodes =>
          let d := detect_nodes cfg nodes requiredPermissions ([], next) in
          let written := set_workflow_nodes workflow (detected_nodes d) in
          match detected d with
          | Js.Throw e => (Js.Throw e, written, (detected_issues d).2)
          | Js.Normal requiredPermissions =>
              (Js.Normal (detected_issues d).1,
               set_workflow_permissions written
                 (Js.sort (JsSet.to_array requiredPermissions)),
               (detected_issues d).2)
          end
      end
  end.

(** *** validateNodes (public, [async]) *)

(** The value an [async] method returns. *)
Inductive Promise (A : Type) : Type :=
  | Resolved (a : A)
  | Rejected (e : Js.Error).
Arguments Resolved {A} a.
Arguments Rejected {A} e.

(** The copy [nodes.map(node => ({ id, type: node.type || 'action', action,
    params, connections: node.connections || [], weight }))] makes of a
    [WorkflowNode]: its [type] is one of five non-empty strings and stays;
    [permissions] is not copied. *)
Definition to_workflow_node (node : WorkflowNode) : WorkflowNode :=
  {| node_id := node_id node; node_type := node_type node;
     node_action := node_action node;
     node_connections := Some (connections_of node);
     node_weight := node_weight node; node_permissions := None |}.

(** [validateNodes] is declared [async] and contains no [await]: its body
    runs to the end when it is called, and the caller receives a promise
    of the filtered issues. *)
Definition validateNodes (cfg : LintConfig) (nodes : list WorkflowNode) (next : nat) :
    Promise (list LintIssue) * nat :=
  let workflowNodes := map to_workflow_node nodes in
  let graph := validateGraphIntegrity cfg workflowNodes next in
  let nodeIssues := validateNodeList cfg workflowNodes graph.2 in
  (Resolved (filterIssues cfg (graph.1 ++ nodeIssues.1)), nodeIssues.2).

(** *** validateWorkflow *)

(** The variables of a [validateWorkflow] call that outlive its [try]
    block, and the workflow object it was given. *)
Record Run : Type := {
  run_nextIssueId : nat;
  run_rulesExecuted : nat;
  run_workflow : AutomaterWorkflow;
}.

(** Statements of the [try] block: they update the [Run] and complete
    normally or throw. *)
Definition Step (A : Type) : Type := Run → Js.completion A * Run.

Definition ret {A} (a : A) : Step A := λ r, (Js.Normal a, r).

Definition throw {A} (e : Js.Error) : Step A := λ r, (Js.Throw e, r).

Definition and_then {A B} (s : Step A) (k : A → Step B) : Step B :=
  λ r, match s r with
       | (Js.Normal a, r') => k a r'
       | (Js.Throw e, r') => (Js.Throw e, r')
       end.

Notation "'let*' x := s 'in' k" := (and_then s (λ x, k))
  (at level 10, x binder, s at level 100, k at level 200, only parsing).

(** A validation method that pushes issues and cannot throw. *)
Definition emit (f : nat → Emitted) : Step (list LintIssue) :=
  λ r, let st := f (run_nextIssueId r) in
       (Js.Normal st.1,
        {| run_nextIssueId := st.2; run_rulesExecuted := run_rulesExecuted r;
           run_workflow := run_workflow r |}).

(** A validation method that may throw. *)
Definition attempt (f : nat → Js.completion (list LintIssue) * nat) :
    Step (list LintIssue) :=
  λ r, let st := f (run_nextIssueId r) in
       (st.1,
        {| run_nextIssueId := st.2; run_rulesExecuted := run_rulesExecuted r;
           run_workflow := run_workflow r |}).

(** [rulesExecuted += k] *)
Definition executed (k : nat) : Step unit :=
  λ r, (Js.Normal (),
        {| run_nextIssueId := run_nextIssueId r;
           run_rulesExecuted := run_rulesExecuted r + k;
           run_workflow := run_workflow r |}).

(** The call of the [async] method [validateNodes]: it yields a promise. *)
Definition call_validateNodes (cfg : LintConfig) (nodes : list WorkflowNode) :
    Step (Promise (list LintIssue)) :=
  λ r, let p := validateNodes cfg nodes (run_nextIssueId r) in
       (Js.Normal p.1,
        {| run_nextIssueId := p.2; run_rulesExecuted := run_rulesExecuted r;
           run_workflow := run_workflow r |}).

Definition spread_error : Js.Error :=
  Js.TypeError "Spread syntax requires ...iterable[Symbol.iterator] to be a function".

(** [issues.push(...nodeIssues)] with [nodeIssues] a promise: a promise
    has no [Symbol.iterator], so the spread throws. *)
Definition push_spread_promise (issues : list LintIssue)
    (nodeIssues : Promise (list LintIssue)) : Step (list LintIssue) :=
  throw spread_error.

(** The mutating permission step, on the workflow object of the run. *)
Definition call_detectAndValidatePermissions (cfg : LintConfig) : Step (list LintIssue) :=
  λ r, let '(c, w, next) :=
         detectAndValidatePermissions cfg (run_workflow r) (run_nextIssueId r) in
       (c, {| run_nextIssueId := next; run_rulesExecuted := run_rulesExecuted r;
              run_workflow := w |}).

Definition has_severity (s : IssueSeverity) (i : LintIssue) : bool :=
  bool_decide (severity i = s).

(** [workflow.id || 'unknown'] *)
Definition workflowId_of (workflow : AutomaterWorkflow) : string :=
  if Js.truthy (workflow_id workflow) then default "" (workflow_id workflow)
  else "unknown".

(** The object returned at the end of the [try] block. *)
Definition lint_result (workflow : AutomaterWorkflow) (filteredIssues : list LintIssue)
    (rulesExecuted : nat) : WorkflowLintResult :=
  let errors := List.filter (has_severity error) filteredIssues in
  let warnings := List.filter (has_severity warn) filteredIssues in
  let infos := List.filter (has_severity info) filteredIssues in
  let criticals := List.filter (has_severity critical) filteredIssues in
  {| workflowId := workflowId_of workflow;
     isValid := (length errors =? 0)%nat && (length criticals =? 0)%nat;
     summary := {| total := length filteredIssues;
                   summary_errors := length errors;
                   summary_warnings := length warnings;
                   summary_infos := length infos;
                   summary_criticals := length criticals |};
     issues := filteredIssues;
     errors := errors;
     warnings := warnings;
     infos := infos;
     criticals := criticals;
     fixableCount := length (List.filter fixable filteredIssues);
     rulesExecuted := rulesExecuted |}.

(** The [try] block of [validateWorkflow]. *)
Definition validateWorkflow_try (cfg : LintConfig) (workflow : AutomaterWorkflow) :
    Step WorkflowLintResult :=
  let issues : list LintIssue := [] in
  (* 1. Basic structure validation *)
  let* structureIssues := emit (validateWorkflowStructure cfg workflow) in
  let issues := issues ++ structureIssues in
  let* _ := executed 4 in
  (* 2. Graph integrity validation (only if we have nodes) *)
  let* issues :=
    match workflow_nodes workflow with
    | Some (_ :: _ as nodes) =>
        let* graphIssues := emit (validateGraphIntegrity cfg nodes) in
        let* _ := executed 5 in
        ret (issues ++ graphIssues)
    | _ => ret issues
    end in
  (* 3. Node-specific validation *)
  let* issues :=
    match workflow_nodes workflow with
    | Some nodes =>
        let* nodeIssues := call_validateNodes cfg nodes in
        let* issues := push_spread_promise issues nodeIssues in
        let* _ := executed (length nodes * 3) in
        ret issues
    | None => ret issues
    end in
  (* 4. Variable validation *)
  let* issues :=
    match workflow_variables workflow with
    | Some variables =>
        let* variableIssues := attempt (validateVariables cfg variables) in
        let* _ := executed (length variables * 2) in
        ret (issues ++ variableIssues)
    | None => ret issues
    end in
  (* 5. Performance analysis *)
  let* performanceIssues := emit (validatePerformance cfg workflow) in
  let issues := issues ++ performanceIssues in
  let* _ := executed 3 in
  (* 6. Automatic permission detection *)
  let* issues :=
    match workflow_trigger workflow, workflow_nodes workflow with
    | Some _, Some _ =>
        let* permissionIssues := call_detectAndValidatePermissions cfg in
        let* _ := executed 1 in
        ret (issues ++ permissionIssues)
    | _, _ => ret issues
    end in
  (* Filter and categorize *)
  let filteredIssues := filterIssues cfg issues in
  λ r, (Js.Normal (lint_result workflow filteredIssues (run_rulesExecuted r)), r).

(** The object returned by the [catch] block. [createSystemError] is
    called once for [issues] and once more for [errors]. *)
Definition validateWorkflow_catch (workflow : AutomaterWorkflow) (e : Js.Error) :
    Step WorkflowLintResult :=
  λ r,
    let '(issue1, next1) := createSystemError e (run_nextIssueId r) in
    let '(issue2, next2) := createSystemError e next1 in
    (Js.Normal
       {| workflowId := workflowId_of workflow;
          isValid := false;
          summary := {| total := 1; summary_errors := 1; summary_warnings := 0;
                        summary_infos := 0; summary_criticals := 0 |};
          issues := [issue1];
          errors := [issue2];
          warnings := [];
          infos := [];
          criticals := [];
          fixableCount := 0;
          rulesExecuted := run_rulesExecuted r |},
     {| run_nextIssueId := next2; run_rulesExecuted := run_rulesExecuted r;
        run_workflow := run_workflow r |}).

(** [try { ... } catch (error) { ... }] *)
Definition try_catch {A} (body : Step A) (handler : Js.Error → Step A) : Step A :=
  λ r, match body r with
       | (Js.Normal a, r') => (Js.Normal a, r')
       | (Js.Throw e, r') => handler e r'
       end.

(** What a call [validator.validateWorkflow(workflow)] leaves: how the
    method body completed (the method is [async]: [Js.Normal r] is a
    promise fulfilled with [r], [Js.Throw e] would be a rejected one), the
    validator with its advanced counter, and the workflow object. *)
Record Call : Type := {
  completed : Js.completion WorkflowLintResult;
  validator_after : AutoFlowValidator;
  workflow_after : AutomaterWorkflow;
}.

(** On entry: [let rulesExecuted = 0]. *)
Definition start (this : AutoFlowValidator) (workflow : AutomaterWorkflow) : Run :=
  {| run_nextIssueId := nextIssueId this; run_rulesExecuted := 0;
     run_workflow := workflow |}.

Definition validateWorkflow (this : AutoFlowValidator) (workflow : AutomaterWorkflow) : Call :=
  let '(c, r) :=
    try_catch (validateWorkflow_try (config this) workflow)
              (validateWorkflow_catch workflow)
              (start this workflow) in
  {| completed := c;
     validator_after := {| config := config this; nextIssueId := run_nextIssueId r |};
     workflow_after := run_workflow r |}.

(** *** getPermissionBreakdown *)

(** [nodePermissions] holds what [ACTION_PERMISSION_MAPPINGS[node.action]]
    evaluated to ([Js.prop]), or the empty array of an unknown action. *)
Record PermissionBreakdown : Type := {
  totalPermissions : list string;
  triggerPermissions : list string;
  nodePermissions : gmap string (Js.prop (list string));
  unknownActions : list string;
}.

(** The trigger step: [triggerPermissions.push(...TRIGGER_PERMISSION_MAPPINGS[triggerEvent])].
    Spreading an inherited member throws. *)
Definition breakdown_trigger (workflow : AutomaterWorkflow) : Js.completion (list string) :=
  let triggerEvent := workflow_trigger workflow ≫= trigger_event in
  if Js.truthy triggerEvent && hasTriggerPermissionMapping (default "" triggerEvent)
  then
    match Js.get TRIGGER_PERMISSION_MAPPINGS (default "" triggerEvent) with
    | Js.Own triggerPerms => Js.Normal ([] ++ triggerPerms)
    | _ => Js.Throw spread_error
    end
  else Js.Normal [].

(** The body of the node loop, on the pair ([nodePermissions],
    [unknownActions]). *)
Definition breakdown_node (st : gmap string (Js.prop (list string)) * list string)
    (node : WorkflowNode) : gmap string (Js.prop (list string)) * list string :=
  if is_action_node node
  then
    if hasActionPermissionMapping (action_of node)
    then (<[node_id node := Js.get ACTION_PERMISSION_MAPPINGS (action_of node)]> st.1, st.2)
    else (<[node_id node := Js.Own []]> st.1, st.2 ++ [action_of node])
  else st.

Definition getPermissionBreakdown (workflow : AutomaterWorkflow) :
    Js.completion PermissionBreakdown :=
  Js.bind (breakdown_trigger workflow) (λ triggerPermissions,
    match workflow_nodes workflow with
    | None => Js.Throw (Js.TypeError "workflow.nodes is not iterable")
    | Some nodes =>
        let st := fold_left breakdown_node nodes (∅, []) in
        Js.bind (detectRequiredPermissions workflow) (λ totalPermissions,
          Js.Normal {| totalPermissions := totalPermissions;
                       triggerPermissions := triggerPermissions;
                       nodePermissions := st.1;
                       unknownActions := st.2 |})
    end).

(** ** pack-aggregator.ts *)

Record AutomaterPack : Type := {
  pack_id : string;
  pack_name : string;
  pack_version : string;
  automations : option (list AutomaterWorkflow);
}.

(** [pack.automations || []] *)
Definition automations_of (pack : AutomaterPack) : list AutomaterWorkflow :=
  default [] (automations pack).

(** The loop of [aggregatePackPermissions]; it stops at the first
    automation on which [detectRequiredPermissions] throws. *)
Fixpoint aggregate_automations (l : list AutomaterWorkflow) (allPermissions : JsSet.t) :
    Js.completion JsSet.t :=
  match l with
  | [] => Js.Normal allPermissions
  | automation :: rest =>
      Js.bind (detectRequiredPermissions automation) (λ workflowPermissions,
        aggregate_automations rest (JsSet.add_all allPermissions workflowPermissions))
  end.

Definition aggregatePackPermissions (pack : AutomaterPack) : Js.completion (list string) :=
  Js.bind (aggregate_automations (automations_of pack) JsSet.empty) (λ allPermissions,
    Js.Normal (Js.sort (JsSet.to_array allPermissions))).

(** The [switch] of [calculatePackPermissionWeight]: what one permission
    adds to [weight]. A value that is none of the three strings matches
    no [case]. *)
Definition severity_points (perm : string) : Z :=
  match getPermissionSeverity perm with
  | Severity dangerous => 10
  | Severity moderate => 3
  | Severity safe => 1
  | NotASeverity _ => 0
  end.

Definition permissions_weight (permissions : list string) : Z :=
  fold_left (λ weight perm, weight + severity_points perm) permissions 0.

Definition calculatePackPermissionWeight (pack : AutomaterPack) : Js.completion Z :=
  Js.bind (aggregatePackPermissions pack) (λ permissions,
    Js.Normal (permissions_weight permissions)).

(** [permissions.filter(perm => getPermissionSeverity(perm) === 'dangerous')] *)
Definition dangerous_only (permissions : list string) : list string :=
  List.filter (λ perm, bool_decide (getPermissionSeverity perm = Severity dangerous))
    permissions.

Definition getDangerousPermissions (pack : AutomaterPack) : Js.completion (list string) :=
  Js.bind (aggregatePackPermissions pack) (λ permissions,
    Js.Normal (dangerous_only permissions)).

(** *** comparePackPermissions *)

Record PackComparison : Type := {
  addedPermissions : list string;
  removedPermissions : list string;
  commonPermissions : list string;
  packATotal : list string;
  packBTotal : list string;
}.

(** [new Set(array)] *)
Definition new_Set (l : list string) : JsSet.t := JsSet.add_all JsSet.empty l.

Definition comparePackPermissions (packA packB : AutomaterPack) :
    Js.completion PackComparison :=
  Js.bind (aggregatePackPermissions packA) (λ a,
    let permsA := new_Set a in
    Js.bind (aggregatePackPermissions packB) (λ b,
      let permsB := new_Set b in
      Js.Normal
        {| addedPermissions :=
             Js.sort (List.filter (λ p, negb (JsSet.has p permsA)) (JsSet.to_array permsB));
           removedPermissions :=
             Js.sort (List.filter (λ p, negb (JsSet.has p permsB)) (JsSet.to_array permsA));
           commonPermissions :=
             Js.sort (List.filter (λ p, JsSet.has p permsB) (JsSet.to_array permsA));
           packATotal := Js.sort (JsSet.to_array permsA);
           packBTotal := Js.sort (JsSet.to_array permsB) |})).

(** *** generatePermissionSummary *)

(** [obj[key] = value] on an object literal, as far as the own properties
    go: [__proto__] is an accessor of [Object.prototype], and assigning to
    it creates no own property (it replaces the prototype when the value
    is an object and does nothing otherwise). *)
Definition assign {A} (key : string) (value : A) (obj : gmap string A) : gmap string A :=
  if bool_decide (key = "__proto__") then obj else <[key := value]> obj.

(** A value of [permissionUsageCount]: a number, or the string that
    [+ 1] makes of an inherited member. *)
Inductive UsageCount : Type :=
  | Count (n : nat)
  | NotANumber.

(** [(permissionUsageCount[perm] || 0) + 1] *)
Definition incremented (permissionUsageCount : gmap string UsageCount) (perm : string) :
    UsageCount :=
  match Js.get permissionUsageCount perm with
  | Js.Own (Count n) => Count (S n)
  | Js.Own NotANumber => NotANumber
  | Js.Inherited _ => NotANumber
  | Js.Undefined => Count 1
  end.

(** The callback of [perms.forEach]. *)
Definition count_usage (permissionUsageCount : gmap string UsageCount) (perm : string) :
    gmap string UsageCount :=
  assign perm (incremented permissionUsageCount perm) permissionUsageCount.

(** [automation.id] as a property key. *)
Definition property_key (id : option string) : string := default "undefined" id.

(** The first loop, on the pair ([permissionsByAutomation],
    [permissionUsageCount]). *)
Fixpoint summarize_automations (l : list AutomaterWorkflow)
    (st : gmap string (list string) * gmap string UsageCount) :
    Js.completion (gmap string (list string) * gmap string UsageCount) :=
  match l with
  | [] => Js.Normal st
  | automation :: rest =>
      Js.bind (detectRequiredPermissions automation) (λ perms,
        summarize_automations rest
          (assign (property_key (workflow_id automation)) perms st.1,
           fold_left count_usage perms st.2))
  end.

(** [count > 1] *)
Definition more_than_one (count : UsageCount) : bool :=
  match count with
  | Count n => (1 <? n)%nat
  | NotANumber => false
  end.

(** [permissionUsageCount[perm] === 1] *)
Definition exactly_one (permissionUsageCount : gmap string UsageCount) (perm : string) :
    bool :=
  match Js.get permissionUsageCount perm with
  | Js.Own (Count 1) => true
  | _ => false
  end.

Record PermissionSummary : Type := {
  summary_totalPermissions : list string;
  permissionsByAutomation : gmap string (list string);
  sharedPermissions : list string;
  uniquePermissions : gmap string (list string);
  automationCount : nat;
  permissionCount : nat;
}.

(** [generatePermissionSummary]. The two records are given by their own
    properties. [sharedPermissions] is sorted, so the order in which
    [Object.entries] lists the counts does not show; the second loop
    assigns [uniquePermissions[id]] once for each own key of
    [permissionsByAutomation], none of which is [__proto__]. *)
Definition generatePermissionSummary (pack : AutomaterPack) :
    Js.completion PermissionSummary :=
  Js.bind (summarize_automations (automations_of pack) (∅, ∅)) (λ st,
    let permissionsByAutomation := st.1 in
    let permissionUsageCount := st.2 in
    let sharedPermissions :=
      Js.sort (map fst (List.filter (λ entry, more_than_one entry.2)
                          (map_to_list permissionUsageCount))) in
    let uniquePermissions :=
      (λ perms, List.filter (exactly_one permissionUsageCount) perms)
        <$> permissionsByAutomation in
    Js.bind (aggregatePackPermissions pack) (λ totalPermissions,
      Js.Normal {| summary_totalPermissions := totalPermissions;
                   permissionsByAutomation := permissionsByAutomation;
                   sharedPermissions := sharedPermissions;
                   uniquePermissions := uniquePermissions;
                   automationCount := length (automations_of pack);
                   permissionCount := length totalPermissions |})).

(** ** Sample inputs *)

Definition node (id : string) (type : NodeType) (action : option string)
    (connections : option (list string)) : WorkflowNode :=
  {| node_id := id; node_type := type; node_action := action;
     node_connections := connections; node_weight := None; node_permissions := None |}.

Definition event (name : string) : WorkflowTrigger :=
  {| trigger_type := event_trigger; trigger_event := Some name;
     trigger_command := None; trigger_prefix := None; trigger_schedule := None |}.

(** Scenario A of the specification. *)
Definition scenario_A : AutomaterWorkflow :=
  {| workflow_id := Some "test-workflow-1"; workflow_name := Some "Test Workflow";
     workflow_version := Some "1.0.0";
     workflow_trigger := Some (event "send_message");
     workflow_nodes := Some [node "node-1" type_action (Some "send_message") None];
     workflow_permissions := None; workflow_variables := None |}.

Definition default_validator : AutoFlowValidator :=
  new_AutoFlowValidator {| partial_rules := None; partial_settings := None |}.

(** Scenario B of the specification: no [version]; here without a node
    list. *)
Definition no_version : AutomaterWorkflow :=
  {| workflow_id := Some "wf-1"; workflow_name := Some "Greeter";
     workflow_version := None;
     workflow_trigger := Some (event "user_join");
     workflow_nodes := None;
     workflow_permissions := None; workflow_variables := None |}.

(** A validator whose caller switched [schema/required-fields] off. *)
Definition lenient_validator : AutoFlowValidator :=
  new_AutoFlowValidator
    {| partial_rules := Some {[ "schema/required-fields" := rule_off ]};
       partial_settings := None |}.


(** Scenario C of the specification: A (trigger) -> B -> C, with C not
    declared. *)
Definition scenario_C : list WorkflowNode :=
  [ node "A" type_trigger None (Some ["B"]);
    node "B" type_action (Some "send_message") (Some ["C"]) ].

(** A validator whose caller switched [graph/missing-nodes] off. *)
Definition silent_validator : AutoFlowValidator :=
  new_AutoFlowValidator
    {| partial_rules := Some {[ "graph/missing-nodes" := rule_off ]};
       partial_settings := None |}.

(** A trigger beside a two-node cycle: the cycle is unreachable. *)
Definition island_cycle : list WorkflowNode :=
  [ node "A" type_trigger None None;
    node "B" type_action (Some "send_message") (Some ["C"]);
    node "C" type_action (Some "send_message") (Some ["B"]) ].

(** A validator whose caller supplied a variable naming pattern that is
    not a regular expression, and a workflow that declares a variable. *)
Definition broken_pattern_validator : AutoFlowValidator :=
  new_AutoFlowValidator
    {| partial_rules := None;
       partial_settings := Some
         {| rateLimits := None;
            naming := Some
              {| workflowIdPattern := "^automation-[A-Za-z0-9]{15}$";
                 nodeIdPattern := "^[a-zA-Z][a-zA-Z0-9_-]*$";
                 variableNamePattern :=
                   {| pattern_source := "(";
                      pattern_RegExp := Invalid (Js.SyntaxError
                        "Invalid regular expression: /(/: Unterminated group") |} |} |} |}.

Definition with_variable : AutomaterWorkflow :=
  {| workflow_id := Some "wf-3"; workflow_name := Some "Counter";
     workflow_version := Some "1.0.0";
     workflow_trigger := Some (event "user_join");
     workflow_nodes := None;
     workflow_permissions := None;
     workflow_variables := Some [ {| variable_name := "count" |} ] |}.

(** Scenario E of the specification: a pack whose only action is
    [ban_user]. *)
Definition scenario_E : AutomaterPack :=
  {| pack_id := "pack-1"; pack_name := "Moderation"; pack_version := "1.0.0";
     automations := Some
       [ {| workflow_id := Some "wf-4"; workflow_name := Some "Ban";
            workflow_version := Some "1.0.0";
            workflow_trigger := Some
              {| trigger_type := slash_command; trigger_event := None;
                 trigger_command := Some "ban"; trigger_prefix := None;
                 trigger_schedule := None |};
            workflow_nodes := Some [node "node-1" type_action (Some "ban_user") None];
            workflow_permissions := None; workflow_variables := None |} ] |}.

(** Scenario A with a second action node, whose action the permission
    table does not know. *)
Definition with_unknown_action : AutomaterWorkflow :=
  set_workflow_nodes scenario_A
    [ node "node-1" type_action (Some "send_message") None;
      node "node-2" type_action (Some "launch_rocket") None ].

(** Two action nodes that share one id. *)
Definition shared_id_workflow : AutomaterWorkflow :=
  set_workflow_nodes scenario_A
    [ node "node-1" type_action (Some "ban_user") None;
      node "node-1" type_action (Some "kick_user") None ].

(** What [getPermissionBreakdown] returns on [with_unknown_action]. *)
Definition with_unknown_action_nodes : list WorkflowNode :=
  [ node "node-1" type_action (Some "send_message") None;
    node "node-2" type_action (Some "launch_rocket") None ].

Definition with_unknown_action_breakdown : PermissionBreakdown :=
  {| totalPermissions := ["SEND_MESSAGES"; "VIEW_CHANNEL"];
     triggerPermissions := ["VIEW_CHANNEL"];
     nodePermissions :=
       <["node-2" := Js.Own []]>
         (<["node-1" := Js.Own ["SEND_MESSAGES"; "VIEW_CHANNEL"]]> ∅);
     unknownActions := ["launch_rocket"] |}.

(** A pack whose only automation is Scenario A. *)
Definition messaging_pack : AutomaterPack :=
  {| pack_id := "pack-2"; pack_name := "Messaging"; pack_version := "1.0.0";
     automations := Some [scenario_A] |}.

(** A pack of two automations that both send messages; the second one
    also bans. *)
Definition two_automations : AutomaterPack :=
  {| pack_id := "pack-3"; pack_name := "Moderation"; pack_version := "1.0.0";
     automations := Some
       [ scenario_A;
         {| workflow_id := Some "wf-5"; workflow_name := Some "Warn and ban";
            workflow_version := Some "1.0.0";
            workflow_trigger := Some (event "send_message");
            workflow_nodes := Some
              [ node "node-1" type_action (Some "send_message") None;
                node "node-2" type_action (Some "ban_user") None ];
            workflow_permissions := None; workflow_variables := None |} ] |}.

(** Variables of which the second does not follow the default naming
    pattern. *)
Definition sample_variables : list VariableDefinition :=
  [ {| variable_name := "count" |}; {| variable_name := "2nd" |} ].

(** A workflow without node list whose version is not SemVer and whose
    second variable is ill named. *)
Definition ill_named : AutomaterWorkflow :=
  {| workflow_id := Some "wf-6"; workflow_name := Some "Counter";
     workflow_version := Some "latest";
     workflow_trigger := Some (event "user_join");
     workflow_nodes := None;
     workflow_permissions := None;
     workflow_variables := Some sample_variables |}.

(** ** Definitions used by the statements *)

(** *** Results of a run *)

(** [detectRequiredPermissions] applied to each automation in turn: the
    results, or the first error. *)
Fixpoint detect_each (l : list AutomaterWorkflow) : Js.completion (list (list string)) :=
  match l with
  | [] => Js.Normal []
  | w :: rest =>
      Js.bind (detectRequiredPermissions w) (λ p,
        Js.bind (detect_each rest) (λ ps, Js.Normal (p :: ps)))
  end.

Definition mkRun (next executed : nat) (w : AutomaterWorkflow) : Run :=
  {| run_nextIssueId := next; run_rulesExecuted := executed; run_workflow := w |}.

Definition count_severity (s : IssueSeverity) (l : list LintIssue) : nat :=
  length (List.filter (has_severity s) l).

(** A result is well formed when its counts are the lengths of its lists
    and agree with the severities found in [issues]. *)
Definition well_formed (r : WorkflowLintResult) : Prop :=
  total (summary r) = length (issues r)
  ∧ summary_errors (summary r) = length (errors r)
  ∧ summary_warnings (summary r) = length (warnings r)
  ∧ summary_infos (summary r) = length (infos r)
  ∧ summary_criticals (summary r) = length (criticals r)
  ∧ length (errors r) = count_severity error (issues r)
  ∧ length (warnings r) = count_severity warn (issues r)
  ∧ length (infos r) = count_severity info (issues r)
  ∧ length (criticals r) = count_severity critical (issues r).

(** The result the [catch] block builds. *)
Definition system_error_result (r : WorkflowLintResult) : Prop :=
  isValid r = false
  ∧ ∃ i, issues r = [i]
         ∧ ruleId i = "system/parse-error" ∧ errorCode i = "SYS-5510"
         ∧ family i = SYS ∧ severity i = error.

(** The [schema/required-fields] issue located at field [f]. *)
Definition is_required_field_issue (f : string) (i : LintIssue) : bool :=
  bool_decide (ruleId i = "schema/required-fields" ∧ location i = Some (at_path f)).

(** *** Rule gating, as the specification describes it *)

(** The specification's account of rule gating (4.1): validators attempt
    every check, and the orchestrator alone drops the issues of disabled
    rules. *)
Module Spec.

(** A configuration under which no check is suppressed: every rule that
    the caller's table or the default table names is switched on. *)
Definition unconditional (cfg : LintConfig) : LintConfig :=
  {| rules := (λ _, rule_error) <$> (rules cfg ∪ rules DEFAULT_LINT_CONFIG);
     settings := settings cfg |}.




End Spec.

(** *** Graphs *)

(** The edges of a node list, in the order the "build connections" loops
    meet them: (source id, target id). *)
Definition edges (nodes : list WorkflowNode) : list (string * string) :=
  flat_map (λ n, map (pair (node_id n)) (connections_of n)) nodes.

(** A dangling edge: its target is not a declared node id. *)
Definition dangling (nodes : list WorkflowNode) (e : string * string) : bool :=
  negb (bool_decide (e.2 ∈ nodeIds_of nodes)).

Definition dangling_edges (nodes : list WorkflowNode) : list (string * string) :=
  List.filter (dangling nodes) (edges nodes).

(** A node without its connections to ids outside [ids]. *)
Definition prune_node (ids : gset string) (n : WorkflowNode) : WorkflowNode :=
  {| node_id := node_id n; node_type := node_type n;
     node_action := node_action n;
     node_connections :=
       Some (List.filter (λ t, bool_decide (t ∈ ids)) (connections_of n));
     node_weight := node_weight n;
     node_permissions := node_permissions n |}.

(** The node list without its dangling connections. *)
Definition prune (nodes : list WorkflowNode) : list WorkflowNode :=
  map (prune_node (nodeIds_of nodes)) nodes.

(** The inner loop body as a function of the edge. *)
Definition connect_edge (cfg : LintConfig) (ids : gset string) (c : Connections)
    (e : string * string) : Connections :=
  connect cfg ids (node e.1 type_action None None) c e.2.

(** The edges that reach the adjacency lists. *)
Definition kept (cfg : LintConfig) (ids : gset string) (e : string * string) : bool :=
  bool_decide (e.2 ∈ ids) || negb (isRuleEnabled cfg "graph/missing-nodes").

(** What an issue says, apart from its id and its message. *)
Definition issue_view (i : LintIssue) : string * string * option Location :=
  (ruleId i, errorCode i, location i).

(** The [graph/missing-nodes] issue for an edge: code 3311, at the source. *)
Definition missing_node_view (e : string * string) : string * string * option Location :=
  ("graph/missing-nodes", "AUT-3311", Some (at_node e.1)).

(** An entry point, in the words of the specification: a node of trigger
    kind, or a node with no incoming edge. *)
Definition entry_point (nodes : list WorkflowNode) (n : WorkflowNode) : Prop :=
  node_type n = type_trigger ∨ ∀ m, m ∈ nodes → node_id n ∉ connections_of m.

(** The ids a traversal of the node list can meet. *)
Definition universe (nodes : list WorkflowNode) : gset string :=
  list_to_set (map node_id nodes ++ flat_map connections_of nodes).

(** The set of ids [validateGraphIntegrity] marks reachable. *)
Definition reachable_ids (cfg : LintConfig) (nodes : list WorkflowNode) (next : nat) :
    gset string :=
  let c := buildConnections cfg nodes next in
  reachable_from (dfs_fuel nodes) (adjacencyList c)
    (List.filter (is_entry (reverseAdjacencyList c)) nodes).

Definition is_missing_node_issue (i : LintIssue) : bool :=
  bool_decide (ruleId i = "graph/missing-nodes").

(** *** Permission inference *)

(** A name every object literal answers to through [Object.prototype]. *)
Definition inherited_name (s : string) : Prop := s ∈ Js.Object_prototype_keys.

(** The trigger table lists [p] for the workflow's trigger event. *)
Definition trigger_grants (w : AutomaterWorkflow) (p : string) : Prop :=
  ∃ ev perms, workflow_trigger w ≫= trigger_event = Some ev
              ∧ TRIGGER_PERMISSION_MAPPINGS !! ev = Some perms ∧ p ∈ perms.

(** The action table lists [p] for the action of node [n], an action node. *)
Definition node_grants (n : WorkflowNode) (p : string) : Prop :=
  ∃ a perms, node_type n = type_action ∧ node_action n = Some a
             ∧ ACTION_PERMISSION_MAPPINGS !! a = Some perms ∧ p ∈ perms.

(** No table lookup of the permission methods lands on an inherited
    member: the trigger event and the actions of the action nodes are not
    names of [Object.prototype] members. *)
Definition plainly_named (w : AutomaterWorkflow) (nodes : list WorkflowNode) : Prop :=
  (∀ ev, workflow_trigger w ≫= trigger_event = Some ev → ¬ inherited_name ev)
  ∧ ∀ n a, n ∈ nodes → node_type n = type_action → node_action n = Some a →
           ¬ inherited_name a.

(** A node as [detectAndValidatePermissions] leaves it: an action node
    carries the table entry of its action, or the empty array when the
    table has none; any other node is untouched. *)
Definition annotated (n : WorkflowNode) : WorkflowNode :=
  if is_action_node n
  then set_node_permissions n (default [] (ACTION_PERMISSION_MAPPINGS !! action_of n))
  else n.

(** An action node whose action has no permission mapping. *)
Definition unknown_action (n : WorkflowNode) : bool :=
  is_action_node n && negb (hasActionPermissionMapping (action_of n)).

Definition missing_permissions_view (n : WorkflowNode) : string * string * option Location :=
  ("security/missing-permissions", "AUT-3311", Some (at_node (node_id n))).

(** What the node loop of [getPermissionBreakdown] stores for an action
    node. *)
Definition breakdown_entry (n : WorkflowNode) : Js.prop (list string) :=
  if hasActionPermissionMapping (action_of n)
  then Js.get ACTION_PERMISSION_MAPPINGS (action_of n)
  else Js.Own [].

(** The action nodes that carry the id [id]. *)
Definition action_nodes_with_id (id : string) (nodes : list WorkflowNode) :
    list WorkflowNode :=
  List.filter (λ n, is_action_node n && bool_decide (node_id n = id)) nodes.

(** The permission [p] appears in the breakdown: under the trigger, or
    under some node id. *)
Definition in_breakdown (b : PermissionBreakdown) (p : string) : Prop :=
  p ∈ triggerPermissions b
  ∨ ∃ id perms, nodePermissions b !! id = Some (Js.Own perms) ∧ p ∈ perms.

(** *** Packs *)

(** The permissions the two mapping tables mention, each once. *)
Definition inferable_permissions : list string :=
  remove_dups (concat ((snd <$> map_to_list ACTION_PERMISSION_MAPPINGS)
                       ++ (snd <$> map_to_list TRIGGER_PERMISSION_MAPPINGS))).

Global Opaque inferable_permissions.

(** The sum [calculatePackPermissionWeight] accumulates. *)
Definition points (l : list string) : Z := foldr (λ p acc, severity_points p + acc) 0 l.

(** Automation [w] requires permission [p]. *)
Definition uses (p : string) (w : AutomaterWorkflow) : bool :=
  match detectRequiredPermissions w with
  | Js.Normal l => bool_decide (p ∈ l)
  | Js.Throw _ => false
  end.

(** The number of automations of the pack that require [p]. *)
Definition usage_count (pack : AutomaterPack) (p : string) : nat :=
  length (List.filter (uses p) (automations_of pack)).

(** [permissionUsageCount] holds the numbers [n]: an entry for each
    permission counted at least once, and no other. *)
Definition tally (n : string → nat) (permissionUsageCount : gmap string UsageCount) :
    Prop :=
  ∀ p, permissionUsageCount !! p
       = if (n p =? 0)%nat then None else Some (Count (n p)).

(** *** Reachability *)

(** One step of the traversal: [b] is on the adjacency list of [a]. *)
Definition adjacent (adj : gmap string (list string)) (a b : string) : Prop :=
  ∃ l, adj !! a = Some l ∧ b ∈ l.

(** Every id of [v] outside [stack] has all its successors in [v]. *)
Definition closed_except (adj : gmap string (list string)) (stack v : gset string) :
    Prop :=
  ∀ x y, x ∈ v → x ∉ stack → adjacent adj x y → y ∈ v.

(** A connection [a -> b] of the node list that reaches the adjacency
    lists. *)
Definition linked (cfg : LintConfig) (nodes : list WorkflowNode) (a b : string) : Prop :=
  (a, b) ∈ edges nodes ∧ kept cfg (nodeIds_of nodes) (a, b) = true.

(** The id can be reached from an entry point along connections. *)
Definition reached_from_entry (cfg : LintConfig) (nodes : list WorkflowNode)
    (id : string) : Prop :=
  ∃ e, e ∈ nodes ∧ entry_point nodes e ∧ rtc (linked cfg nodes) (node_id e) id.

(** [issue] is the [graph/unreachable-nodes] issue of node [n]. *)
Definition reports_unreachable (issue : LintIssue) (n : WorkflowNode) : Prop :=
  ruleId issue = "graph/unreachable-nodes"
  ∧ location issue = Some (at_node (node_id n)).

Definition unreachable_view (n : WorkflowNode) : string * string * option Location :=
  ("graph/unreachable-nodes", "AUT-3310", Some (at_node (node_id n))).

(** *** Issue ids *)

(** The ids [createIssue] hands out for [count] issues from counter
    [next] on. *)
Definition issue_ids (next count : nat) : list string :=
  map (λ k, "issue-" +:+ pretty k) (seq next count).

(** The issues of [st] carry the ids handed out from [next] on, and the
    counter of [st] is past them. *)
Definition numbered (next : nat) (st : Emitted) : Prop :=
  map issue_id st.1 = issue_ids next (length st.1)
  ∧ st.2 = (next + length st.1)%nat.

(** *** Node and variable checks *)

(** The list holds an issue of rule [rule]. *)
Definition reports (rule : string) (l : list LintIssue) : Prop :=
  ∃ i, i ∈ l ∧ ruleId i = rule.

(** An action node without an action. *)
Definition lacks_action (n : WorkflowNode) : Prop :=
  node_type n = type_action ∧ Js.truthy (node_action n) = false.

Definition naming_view (v : VariableDefinition) : string * string * option Location :=
  ("variable/naming-convention", "AUT-3312",
   Some (at_path ("variables." +:+ variable_name v))).

(** * Properties *)

(** ** Sets in insertion order, and sorting *)

Lemma JsSet_add_elem (s : JsSet.t) (x y : string) :
  y ∈ JsSet.add s x ↔ y ∈ s ∨ y = x.
Proof.
  unfold JsSet.add, JsSet.has. case_bool_decide as Hx.
  - split; [by left|]. intros [?| ->]; done.
  - rewrite elem_of_app, list_elem_of_singleton. done.
Qed.

Lemma JsSet_add_NoDup (s : JsSet.t) (x : string) :
  NoDup s → NoDup (JsSet.add s x).
Proof.
  intros Hs. unfold JsSet.add, JsSet.has. case_bool_decide as Hx; [done|].
  apply NoDup_app. split_and!; [done| |apply NoDup_singleton].
  intros y Hy ->%list_elem_of_singleton. done.
Qed.

Lemma JsSet_add_all_elem (xs : list string) (s : JsSet.t) (y : string) :
  y ∈ JsSet.add_all s xs ↔ y ∈ s ∨ y ∈ xs.
Proof.
  unfold JsSet.add_all. revert s.
  induction xs as [|x xs IH]; intros s; simpl.
  - rewrite elem_of_nil. tauto.
  - rewrite IH, JsSet_add_elem, elem_of_cons. tauto.
Qed.

Lemma JsSet_add_all_NoDup (xs : list string) (s : JsSet.t) :
  NoDup s → NoDup (JsSet.add_all s xs).
Proof.
  unfold JsSet.add_all. revert s.
  induction xs as [|x xs IH]; intros s Hs; simpl; [done|].
  apply IH, JsSet_add_NoDup, Hs.
Qed.

Lemma sort_elem (l : list string) (x : string) : x ∈ Js.sort l ↔ x ∈ l.
Proof. unfold Js.sort. by rewrite merge_sort_Permutation. Qed.

Lemma sort_NoDup (l : list string) : NoDup l → NoDup (Js.sort l).
Proof. unfold Js.sort. by rewrite merge_sort_Permutation. Qed.

Lemma sort_Sorted (l : list string) : Sorted String.le (Js.sort l).
Proof. apply (Sorted_merge_sort String.le). Qed.

(** Any ascending arrangement of the same strings is the one [sort]
    returns: the model of [Array.prototype.sort] does not depend on the
    sorting algorithm. *)
Lemma sort_unique (l l' : list string) :
  Sorted String.le l' → l' ≡ₚ l → l' = Js.sort l.
Proof.
  intros Hs Hp. apply (Sorted_unique String.le); [done|apply sort_Sorted|].
  unfold Js.sort. by rewrite merge_sort_Permutation.
Qed.

(** ** Permission inference on one workflow *)

Lemma required_of_nodes_normal (nodes : list WorkflowNode) (s s' : JsSet.t) :
  required_of_nodes nodes s = Js.Normal s' →
  NoDup s → NoDup s' ∧ ∀ p, p ∈ s → p ∈ s'.
Proof.
  revert s. induction nodes as [|n nodes IH]; intros s Hrun Hs; simpl in Hrun.
  - by simplify_eq.
  - destruct (is_action_node n && hasActionPermissionMapping (action_of n)).
    + destruct (Js.get ACTION_PERMISSION_MAPPINGS (action_of n)) as [ps| |];
        [|done..].
      apply IH in Hrun as [Hnd Hsub]; [|by apply JsSet_add_all_NoDup].
      split; [done|]. intros p Hp. apply Hsub, JsSet_add_all_elem. by left.
    + by apply IH in Hrun.
Qed.

Lemma trigger_permissions_NoDup (w : AutomaterWorkflow) (s : JsSet.t) :
  trigger_permissions w = Js.Normal s → NoDup s.
Proof.
  unfold trigger_permissions. intros H.
  destruct (_ && _); [|simplify_eq; apply NoDup_nil_2].
  destruct (Js.get _ _); [|done..]. simplify_eq.
  apply JsSet_add_all_NoDup, NoDup_nil_2.
Qed.

(** The list [detectRequiredPermissions] returns is ascending and free of
    repetitions. *)
Lemma detectRequiredPermissions_sorted (w : AutomaterWorkflow) (l : list string) :
  detectRequiredPermissions w = Js.Normal l → Sorted String.le l ∧ NoDup l.
Proof.
  unfold detectRequiredPermissions. intros H.
  destruct (trigger_permissions w) as [s|] eqn:Ht; [|done]. simpl in H.
  destruct (workflow_nodes w) as [nodes|]; [|done].
  destruct (required_of_nodes nodes s) as [s'|] eqn:Hn; [|done]. simpl in H.
  simplify_eq. split; [apply sort_Sorted|].
  apply sort_NoDup. unfold JsSet.to_array.
  eapply required_of_nodes_normal; [done|]. by eapply trigger_permissions_NoDup.
Qed.

(** C7 (Scenario A): on a workflow whose trigger event is [send_message]
    and whose only node is an action node with action [send_message],
    [detectRequiredPermissions] returns exactly
    [["SEND_MESSAGES"; "VIEW_CHANNEL"]]. *)
Theorem detectRequiredPermissions_scenario_A
    (w : AutomaterWorkflow) (t : WorkflowTrigger) (n : WorkflowNode) :
  workflow_trigger w = Some t →
  trigger_event t = Some "send_message" →
  workflow_nodes w = Some [n] →
  node_type n = type_action →
  node_action n = Some "send_message" →
  detectRequiredPermissions w = Js.Normal ["SEND_MESSAGES"; "VIEW_CHANNEL"].
Proof.
  intros Ht He Hn Hty Ha.
  unfold detectRequiredPermissions, trigger_permissions.
  rewrite Ht, Hn. cbn [mbind option_bind]. rewrite He.
  unfold required_of_nodes, is_action_node, action_of. rewrite Hty, Ha.
  vm_compute. reflexivity.
Qed.

Lemma detectRequiredPermissions_scenario_A_witness :
  detectRequiredPermissions scenario_A = Js.Normal ["SEND_MESSAGES"; "VIEW_CHANNEL"].
Proof.
  apply (detectRequiredPermissions_scenario_A scenario_A (event "send_message")
           (node "node-1" type_action (Some "send_message") None));
    vm_compute; reflexivity.
Defined.

(** ** Severity of a permission *)

Lemma getPermissionSeverity_own (p : string) (s : PermissionSeverity) :
  PERMISSION_SEVERITY !! p = Some s → getPermissionSeverity p = Severity s.
Proof. unfold getPermissionSeverity, Js.get. by intros ->. Qed.

(** A string that is neither a key of the table nor the name of a member
    of [Object.prototype] is [safe], and scores 1. *)
Lemma getPermissionSeverity_unknown (p : string) :
  PERMISSION_SEVERITY !! p = None → p ∉ Js.Object_prototype_keys →
  getPermissionSeverity p = Severity safe ∧ severity_points p = 1.
Proof.
  intros Hp Hproto. unfold severity_points, getPermissionSeverity, Js.get.
  rewrite Hp. by rewrite bool_decide_eq_false_2.
Qed.

(** [getDangerousPermissions] keeps only keys of the table. *)
Lemma dangerous_only_in_table (l : list string) (p : string) :
  p ∈ dangerous_only l → PERMISSION_SEVERITY !! p = Some dangerous.
Proof.
  unfold dangerous_only. rewrite list_elem_of_In, filter_In.
  intros [_ H]. apply bool_decide_eq_true_1 in H.
  unfold getPermissionSeverity, Js.get in H.
  destruct (PERMISSION_SEVERITY !! p) as [s|]; [by simplify_eq|].
  by case_bool_decide.
Qed.

(** C10, at a string the table does not hold: ["constructor"] is not a
    key of [PERMISSION_SEVERITY], yet [getPermissionSeverity] does not
    return ['safe'] for it; it returns the member every object literal
    inherits under that name, which [calculatePackPermissionWeight]'s
    [switch] scores 0. *)
Theorem getPermissionSeverity_inherited_member :
  PERMISSION_SEVERITY !! "constructor" = None
  ∧ getPermissionSeverity "constructor" = NotASeverity "constructor"
  ∧ severity_points "constructor" = 0.
Proof. vm_compute. done. Qed.

(** ** Pack aggregation *)

Lemma aggregate_automations_each (l : list AutomaterWorkflow) (acc : JsSet.t) :
  aggregate_automations l acc
  = Js.bind (detect_each l) (λ ps, Js.Normal (fold_left JsSet.add_all ps acc)).
Proof.
  revert acc. induction l as [|w l IH]; intros acc; simpl; [done|].
  destruct (detectRequiredPermissions w) as [p|e]; simpl; [|done].
  rewrite IH. by destruct (detect_each l).
Qed.

Lemma add_all_lists_elem (ps : list (list string)) (acc : JsSet.t) (x : string) :
  x ∈ fold_left JsSet.add_all ps acc ↔ x ∈ acc ∨ ∃ l, l ∈ ps ∧ x ∈ l.
Proof.
  revert acc. induction ps as [|p ps IH]; intros acc; simpl.
  - split; [by left|]. intros [?|(l & Hl & _)]; [done|]. by apply elem_of_nil in Hl.
  - rewrite IH, JsSet_add_all_elem. split.
    + intros [[?|?]|(l & Hl & ?)]; [by left|right..].
      * exists p. split; [left|done].
      * exists l. split; [by right|done].
    + intros [?|(l & Hl & ?)]; [by left; left|].
      apply elem_of_cons in Hl as [->|Hl]; [by left; right|].
      right. by exists l.
Qed.

Lemma add_all_lists_NoDup (ps : list (list string)) (acc : JsSet.t) :
  NoDup acc → NoDup (fold_left JsSet.add_all ps acc).
Proof.
  revert acc. induction ps as [|p ps IH]; intros acc Hacc; simpl; [done|].
  by apply IH, JsSet_add_all_NoDup.
Qed.

(** C8: [aggregatePackPermissions pack] is the ascending, repetition-free
    list of exactly the permissions that [detectRequiredPermissions]
    returns for some automation of the pack (and it fails with the first
    automation on which [detectRequiredPermissions] fails); a pack whose
    automation list is missing or empty yields the empty list. *)
Theorem aggregatePackPermissions_sorted_union (pack : AutomaterPack) :
  match detect_each (automations_of pack) with
  | Js.Normal perms =>
      ∃ r, aggregatePackPermissions pack = Js.Normal r
           ∧ Sorted String.le r ∧ NoDup r
           ∧ ∀ p, p ∈ r ↔ ∃ l, l ∈ perms ∧ p ∈ l
  | Js.Throw e => aggregatePackPermissions pack = Js.Throw e
  end
  ∧ (automations pack = None ∨ automations pack = Some [] →
     aggregatePackPermissions pack = Js.Normal []).
Proof.
  split.
  - unfold aggregatePackPermissions. rewrite aggregate_automations_each.
    destruct (detect_each (automations_of pack)) as [perms|e]; simpl; [|done].
    eexists. split; [done|]. unfold JsSet.to_array. split_and!.
    + apply sort_Sorted.
    + apply sort_NoDup, add_all_lists_NoDup, NoDup_nil_2.
    + intros p. rewrite sort_elem, add_all_lists_elem.
      unfold JsSet.empty. rewrite elem_of_nil. tauto.
  - unfold aggregatePackPermissions, automations_of.
    intros [-> | ->]; reflexivity.
Qed.

(** Scenario E: on a pack of one workflow whose trigger names no event
    and whose only node is a [ban_user] action, the permission weight
    is 10. *)
Theorem calculatePackPermissionWeight_ban_user
    (pack : AutomaterPack) (w : AutomaterWorkflow) (n : WorkflowNode) :
  automations pack = Some [w] →
  workflow_trigger w ≫= trigger_event = None →
  workflow_nodes w = Some [n] →
  node_type n = type_action →
  node_action n = Some "ban_user" →
  aggregatePackPermissions pack = Js.Normal ["BAN_MEMBERS"]
  ∧ calculatePackPermissionWeight pack = Js.Normal 10.
Proof.
  intros Hpack Ht Hn Hty Ha.
  assert (detectRequiredPermissions w = Js.Normal ["BAN_MEMBERS"]) as Hdetect.
  { unfold detectRequiredPermissions, trigger_permissions.
    rewrite Ht, Hn. cbn [Js.truthy andb Js.bind].
    unfold required_of_nodes, is_action_node, action_of. rewrite Hty, Ha.
    vm_compute. reflexivity. }
  assert (aggregatePackPermissions pack = Js.Normal ["BAN_MEMBERS"]) as Hagg.
  { unfold aggregatePackPermissions, automations_of. rewrite Hpack.
    cbn [default from_option id aggregate_automations]. rewrite Hdetect.
    vm_compute. reflexivity. }
  split; [done|]. unfold calculatePackPermissionWeight. rewrite Hagg.
  vm_compute. reflexivity.
Qed.

(** ** The orchestrator *)

(** A workflow that has a node list, even an empty one, never gets past
    step 3: the promise [validateNodes] returns is spread as if it were
    an array. The permission step is not reached and the workflow object
    is left as it was. *)
Lemma try_with_nodes (cfg : LintConfig) (w : AutomaterWorkflow)
    (nodes : list WorkflowNode) (r : Run) :
  workflow_nodes w = Some nodes →
  ∃ r', validateWorkflow_try cfg w r = (Js.Throw spread_error, r')
        ∧ run_workflow r' = run_workflow r.
Proof.
  intros Hn. unfold validateWorkflow_try, and_then, emit, executed, ret,
    call_validateNodes, push_spread_promise, throw.
  rewrite Hn. destruct nodes; simpl; eexists; (split; [reflexivity|done]).
Qed.

(** Without a node list the run consists of the structural and the
    variable checks. *)
Lemma try_without_nodes (cfg : LintConfig) (w : AutomaterWorkflow) (r : Run) :
  workflow_nodes w = None →
  validateWorkflow_try cfg w r =
    let s := validateWorkflowStructure cfg w (run_nextIssueId r) in
    match workflow_variables w with
    | None =>
        (Js.Normal (lint_result w (filterIssues cfg s.1) (run_rulesExecuted r + 4 + 3)),
         mkRun s.2 (run_rulesExecuted r + 4 + 3) (run_workflow r))
    | Some vars =>
        match validateVariables cfg vars s.2 with
        | (Js.Normal vi, n) =>
            (Js.Normal (lint_result w (filterIssues cfg (s.1 ++ vi))
                          (run_rulesExecuted r + 4 + length vars * 2 + 3)),
             mkRun n (run_rulesExecuted r + 4 + length vars * 2 + 3) (run_workflow r))
        | (Js.Throw e, n) => (Js.Throw e, mkRun n (run_rulesExecuted r + 4) (run_workflow r))
        end
    end.
Proof.
  intros Hn. unfold validateWorkflow_try, and_then, emit, executed, ret,
    attempt, validatePerformance, mkRun.
  rewrite Hn. simpl. destruct (workflow_variables w) as [vars|]; simpl.
  - destruct (validateVariables cfg vars _) as [[vi|e] n]; simpl; [|done].
    destruct (workflow_trigger w); simpl; by rewrite app_nil_r.
  - destruct (workflow_trigger w); simpl; by rewrite app_nil_r.
Qed.

(** The shape of a run whose [try] block reaches its [return]. *)
Lemma try_normal (cfg : LintConfig) (w : AutomaterWorkflow) (r r' : Run)
    (res : WorkflowLintResult) :
  validateWorkflow_try cfg w r = (Js.Normal res, r') →
  workflow_nodes w = None
  ∧ ∃ vi, res = lint_result w
                  (filterIssues cfg
                     ((validateWorkflowStructure cfg w (run_nextIssueId r)).1 ++ vi))
                  (run_rulesExecuted r')
          ∧ (vi = [] ∨ ∃ vars n, validateVariables cfg vars n = (Js.Normal vi, run_nextIssueId r')).
Proof.
  intros Hrun. destruct (workflow_nodes w) as [nodes|] eqn:Hn.
  { destruct (try_with_nodes cfg w nodes r Hn) as (r'' & Hthrow & _). congruence. }
  split; [done|]. rewrite (try_without_nodes cfg w r Hn) in Hrun. simpl in Hrun.
  destruct (workflow_variables w) as [vars|].
  - destruct (validateVariables cfg vars _) as [[vi|e] n] eqn:Hv; [|done].
    simplify_eq. exists vi. split; [done|]. right. eauto.
  - simplify_eq. exists []. rewrite app_nil_r. split; [done|by left].
Qed.

Lemma lint_result_well_formed (w : AutomaterWorkflow) (l : list LintIssue) (n : nat) :
  well_formed (lint_result w l n).
Proof. by repeat split. Qed.

(** C1: [validateWorkflow] never throws. Whatever the workflow and the
    configuration, the call returns a well-formed result; and when the
    [try] block raises an exception, that result holds exactly one issue,
    the synthetic [SYS-5510] issue of severity [error], and is not valid. *)
Theorem validateWorkflow_never_throws (this : AutoFlowValidator) (w : AutomaterWorkflow) :
  ∃ r, completed (validateWorkflow this w) = Js.Normal r
       ∧ well_formed r
       ∧ ∀ e run, validateWorkflow_try (config this) w (start this w) = (Js.Throw e, run) →
                  system_error_result r.
Proof.
  unfold validateWorkflow, try_catch.
  destruct (validateWorkflow_try (config this) w (start this w)) as [[res|e] run] eqn:Hrun.
  - exists res. simpl. split_and!; [done| |done].
    apply try_normal in Hrun as (_ & vi & -> & _). apply lint_result_well_formed.
  - simpl. eexists. split_and!; [reflexivity|by repeat split|].
    intros _ _ _. split; [done|]. eexists. by split_and!.
Qed.

(** The guarantee at work: on Scenario A the [try] block throws, and the
    call still returns the synthetic result. *)
Lemma validateWorkflow_never_throws_witness :
  ∃ r run,
    validateWorkflow_try (config default_validator) scenario_A
      (start default_validator scenario_A) = (Js.Throw spread_error, run)
    ∧ completed (validateWorkflow default_validator scenario_A) = Js.Normal r
    ∧ system_error_result r.
Proof.
  destruct (validateWorkflow_never_throws default_validator scenario_A)
    as (r & Hr & _ & Hsys).
  destruct (try_with_nodes (config default_validator) scenario_A _
              (start default_validator scenario_A) eq_refl) as (run & Hrun & _).
  exists r, run. split_and!; [done..|]. by eapply Hsys.
Defined.

(** The other source of an internal exception, the one the specification
    names: a malformed naming pattern. *)
Example validateWorkflow_catches_bad_pattern :
  ∃ r, completed (validateWorkflow broken_pattern_validator with_variable) = Js.Normal r
       ∧ map issue_view (issues r) = [("system/parse-error", "SYS-5510", None)]
       ∧ map message (issues r)
         = ["System error: Invalid regular expression: /(/: Unterminated group"]
       ∧ isValid r = false.
Proof. eexists. split; [vm_compute; reflexivity|]. done. Qed.

(** C9: the result's [isValid] flag is [true] exactly when the returned
    (filtered) issue list holds no issue of severity [error] and none of
    severity [critical]. *)
Theorem isValid_iff_no_error_no_critical (this : AutoFlowValidator) (w : AutomaterWorkflow) :
  ∃ r, completed (validateWorkflow this w) = Js.Normal r
       ∧ (isValid r = true
          ↔ count_severity error (issues r) = 0%nat
            ∧ count_severity critical (issues r) = 0%nat).
Proof.
  unfold validateWorkflow, try_catch.
  destruct (validateWorkflow_try (config this) w (start this w)) as [[res|e] run] eqn:Hrun.
  - exists res. simpl. split; [done|].
    apply try_normal in Hrun as (_ & vi & -> & _). simpl.
    unfold count_severity. by rewrite andb_true_iff, !Nat.eqb_eq.
  - simpl. eexists. split; [reflexivity|]. simpl. split; [done|].
    by intros [? _].
Qed.

(** ** Permission inference as a side effect of validation *)

(** A run on a workflow that has a node list writes nothing on it. *)
Lemma validateWorkflow_with_nodes (this : AutoFlowValidator) (w : AutomaterWorkflow)
    (nodes : list WorkflowNode) :
  workflow_nodes w = Some nodes →
  workflow_after (validateWorkflow this w) = w
  ∧ ∃ r, completed (validateWorkflow this w) = Js.Normal r ∧ system_error_result r.
Proof.
  intros Hn. unfold validateWorkflow, try_catch.
  destruct (try_with_nodes (config this) w nodes (start this w) Hn) as (run & -> & Hw).
  simpl. split; [done|]. eexists. split; [reflexivity|].
  split; [done|]. eexists. by split_and!.
Qed.

(** C3, on Scenario A (a trigger and a node list): the permission step,
    run by itself, writes the inferred union on the workflow and the
    resolved list on the action node; a [validateWorkflow] run returns
    the workflow object untouched, its [permissions] still [undefined]. *)
Theorem validateWorkflow_writes_no_permissions :
  (let '(_, written, _) :=
     detectAndValidatePermissions (config default_validator) scenario_A 1 in
   workflow_permissions written = Some ["SEND_MESSAGES"; "VIEW_CHANNEL"]
   ∧ (map node_permissions <$> workflow_nodes written)
     = Some [Some ["SEND_MESSAGES"; "VIEW_CHANNEL"]])
  ∧ workflow_after (validateWorkflow default_validator scenario_A) = scenario_A
  ∧ workflow_permissions (workflow_after (validateWorkflow default_validator scenario_A))
    = None.
Proof. vm_compute. done. Qed.

(** ** The structural validator *)

Lemma push_issue_fst (st : Emitted) (rule : string) (code : ErrorCode) (o : IssueOptions) :
  (push_issue st rule code o).1 = st.1 ++ [(createIssue rule code o st.2).1].
Proof. done. Qed.

Lemma filter_filter_implied {A} (p q : A → bool) (l : list A) :
  (∀ x, p x = true → q x = true) →
  List.filter p (List.filter q l) = List.filter p l.
Proof.
  intros Hpq. induction l as [|x l IH]; simpl; [done|].
  destruct (q x) eqn:Hq; simpl.
  - destruct (p x); by rewrite IH.
  - destruct (p x) eqn:Hp; [|done]. apply Hpq in Hp. congruence.
Qed.

Lemma filter_none {A} (p : A → bool) (l : list A) :
  (∀ x, x ∈ l → p x = false) → List.filter p l = [].
Proof.
  induction l as [|x l IH]; intros H; simpl; [done|].
  rewrite (H x) by left. apply IH. intros y Hy. apply H. by right.
Qed.

Lemma filter_all {A} (p : A → bool) (l : list A) :
  (∀ x, x ∈ l → p x = true) → List.filter p l = l.
Proof.
  induction l as [|x l IH]; intros H; simpl; [done|].
  rewrite (H x) by left. f_equal. apply IH. intros y Hy. apply H. by right.
Qed.

Lemma at_path_inj (f g : string) : Some (at_path f) = Some (at_path g) → f = g.
Proof. by intros [=]. Qed.

(** The loop over [requiredFields] pushes one issue for [f] if [f] is one
    of the fields and is missing, and none otherwise. *)
Lemma required_fields_loop (w : AutomaterWorkflow) (f : string)
    (fields : list string) (st : Emitted) :
  NoDup fields →
  ∃ l, List.filter (is_required_field_issue f)
         (fold_left (check_required_field w) fields st).1
       = List.filter (is_required_field_issue f) st.1 ++ l
       ∧ if bool_decide (f ∈ fields) && negb (field_truthy w f)
         then ∃ i, l = [i] ∧ ruleId i = "schema/required-fields"
                   ∧ errorCode i = "SYS-5511" ∧ severity i = error
                   ∧ location i = Some (at_path f)
         else l = [].
Proof.
  revert st. induction fields as [|g fields IH]; intros st Hnd.
  { exists []. by rewrite app_nil_r. }
  apply NoDup_cons in Hnd as [Hg Hnd]. simpl.
  destruct (IH (check_required_field w st g) Hnd) as (l & Hl & Hspec).
  rewrite Hl. clear Hl IH. unfold check_required_field.
  destruct (field_truthy w g) eqn:Hty; simpl.
  - exists l. split; [done|].
    destruct (decide (f = g)) as [->|Hfg].
    + rewrite Hty in *. rewrite !andb_false_r in *. done.
    + assert (bool_decide (f ∈ g :: fields) = bool_decide (f ∈ fields)) as ->; [|done].
      apply bool_decide_ext. rewrite elem_of_cons. tauto.
  - rewrite List.filter_app. cbn [List.filter].
    destruct (decide (f = g)) as [->|Hfg].
    + match goal with |- context [is_required_field_issue g ?i] =>
        replace (is_required_field_issue g i) with true
          by (symmetry; by apply bool_decide_eq_true_2)
      end.
      rewrite bool_decide_eq_false_2, Hty in Hspec by done. simpl in Hspec. subst l.
      rewrite bool_decide_eq_true_2 by left. rewrite Hty. simpl.
      eexists. split; [by rewrite app_nil_r|].
      eexists. split; [done|]. by split_and!.
    + match goal with |- context [is_required_field_issue f ?i] =>
        replace (is_required_field_issue f i) with false
      end.
      2:{ symmetry. apply bool_decide_eq_false_2. intros [_ ?%at_path_inj]. done. }
      rewrite app_nil_r. exists l. split; [done|].
      assert (bool_decide (f ∈ g :: fields) = bool_decide (f ∈ fields)) as ->; [|done].
      apply bool_decide_ext. rewrite elem_of_cons. tauto.
Qed.


Lemma validateVariables_rules (cfg : LintConfig) (vars : list VariableDefinition)
    (n n' : nat) (vi : list LintIssue) (i : LintIssue) :
  validateVariables cfg vars n = (Js.Normal vi, n') → i ∈ vi →
  ruleId i = "variable/naming-convention"
  ∧ isRuleEnabled cfg "variable/naming-convention" = true.
Proof.
  unfold validateVariables.
  destruct (isRuleEnabled cfg "variable/naming-convention") eqn:Hon; simpl.
  2:{ intros [= <- _] ?%elem_of_nil. done. }
  destruct (pattern_RegExp (variable_pattern cfg)) as [e|test]; [done|].
  intros [= <- _] Hi. split; [|done].
  assert (∀ l st, (∀ j, j ∈ st.1 → ruleId j = "variable/naming-convention") →
            ∀ j, j ∈ (fold_left (check_variable test) l st).1 →
                 ruleId j = "variable/naming-convention") as Hloop.
  { induction l as [|v l IH]; intros st Hst; simpl; [done|].
    apply IH. unfold check_variable. destruct (test _); simpl; [done|].
    intros j. rewrite elem_of_app, list_elem_of_singleton.
    intros [?| ->]; [by apply Hst|done]. }
  apply (Hloop vars ([], n)); [|done]. by intros j ?%elem_of_nil.
Qed.

(** ** Scenario B: a workflow without [version] *)

Lemma NoDup_requiredFields : NoDup requiredFields.
Proof. apply (bool_decide_unpack _). by vm_compute. Qed.

(** C2, as amended: when [version] is absent, the [schema/required-fields]
    rule is enabled and the run reaches the end of its [try] block, the
    returned result holds exactly one [schema/required-fields] issue
    located at [version], with error code [SYS-5511] and severity [error],
    and is not valid. *)
Theorem missing_version_reported (this : AutoFlowValidator) (w : AutomaterWorkflow)
    (r : WorkflowLintResult) (run : Run) :
  workflow_version w = None →
  isRuleEnabled (config this) "schema/required-fields" = true →
  validateWorkflow_try (config this) w (start this w) = (Js.Normal r, run) →
  completed (validateWorkflow this w) = Js.Normal r
  ∧ isValid r = false
  ∧ ∃ i, List.filter (is_required_field_issue "version") (issues r) = [i]
         ∧ ruleId i = "schema/required-fields"
         ∧ errorCode i = "SYS-5511"
         ∧ severity i = error.
Proof.
  intros Hv Hreq Hrun.
  assert (completed (validateWorkflow this w) = Js.Normal r) as Hdone.
  { unfold validateWorkflow, try_catch. by rewrite Hrun. }
  apply try_normal in Hrun as (_ & vi & -> & Hvi).
  assert (∃ i, List.filter (is_required_field_issue "version")
                 (filterIssues (config this)
                    ((validateWorkflowStructure (config this) w (nextIssueId this)).1 ++ vi))
               = [i]
               ∧ ruleId i = "schema/required-fields"
               ∧ errorCode i = "SYS-5511" ∧ severity i = error) as (i & Hi & Hprops).
  { unfold filterIssues. rewrite filter_filter_implied.
    2:{ intros x [-> _]%bool_decide_eq_true_1. done. }
    rewrite List.filter_app.
    rewrite (filter_none _ vi).
    2:{ intros x Hx. apply bool_decide_eq_false_2. intros [Hrule _].
        destruct Hvi as [->|(vars & n & Hvars)]; [by apply elem_of_nil in Hx|].
        destruct (validateVariables_rules _ _ _ _ _ x Hvars Hx) as [Hrule' _].
        congruence. }
    rewrite app_nil_r. unfold validateWorkflowStructure.
    rewrite Hreq, Hv. cbn [negb andb Js.truthy].
    destruct (required_fields_loop w "version" requiredFields ([], nextIssueId this)
                NoDup_requiredFields) as (l & -> & Hl).
    unfold field_truthy in Hl. rewrite Hv in Hl. simpl in Hl.
    destruct Hl as (i & -> & ? & ? & ? & _). by exists i. }
  split; [done|]. split; [|by exists i].
  simpl in *. apply andb_false_iff. left. apply Nat.eqb_neq.
  assert (i ∈ List.filter (has_severity error)
                (filterIssues (config this)
                   ((validateWorkflowStructure (config this) w (nextIssueId this)).1 ++ vi)))
    as Hin.
  { apply list_elem_of_In, filter_In. split.
    - assert (In i (List.filter (is_required_field_issue "version")
                      (filterIssues (config this)
                         ((validateWorkflowStructure (config this) w (nextIssueId this)).1
                          ++ vi)))) as Hi'
        by (rewrite Hi; by left).
      by apply filter_In in Hi' as [? _].
    - apply bool_decide_eq_true_2. tauto. }
  intros Hlen. apply length_zero_iff_nil in Hlen. rewrite Hlen in Hin.
  by apply elem_of_nil in Hin.
Qed.

Lemma missing_version_reported_witness :
  ∃ r, completed (validateWorkflow default_validator no_version) = Js.Normal r
       ∧ isValid r = false
       ∧ ∃ i, List.filter (is_required_field_issue "version") (issues r) = [i]
              ∧ ruleId i = "schema/required-fields"
              ∧ errorCode i = "SYS-5511"
              ∧ severity i = error.
Proof.
  eexists.
  eapply (missing_version_reported default_validator no_version _ _ eq_refl).
  - vm_compute. reflexivity.
  - vm_compute. reflexivity.
Defined.

(** C2 as stated fails: with [schema/required-fields] switched off by the
    caller, a workflow without [version] gets no issue and is valid. *)
Lemma missing_version_unreported_when_rule_off :
  workflow_version no_version = None
  ∧ ∃ r, completed (validateWorkflow lenient_validator no_version) = Js.Normal r
         ∧ issues r = []
         ∧ isValid r = true.
Proof. split; [done|]. eexists. split; [vm_compute; reflexivity|]. done. Qed.

(** ** Rule gating *)

(** Under [Spec.unconditional] every rule of the default table, hence
    every rule a validator consults, is enabled. *)
Lemma unconditional_enabled (cfg : LintConfig) (rule : string) :
  is_Some (rules DEFAULT_LINT_CONFIG !! rule) →
  isRuleEnabled (Spec.unconditional cfg) rule = true.
Proof.
  intros Hrule. unfold isRuleEnabled, Js.get, Spec.unconditional. simpl.
  rewrite lookup_fmap.
  assert (is_Some ((rules cfg ∪ rules DEFAULT_LINT_CONFIG) !! rule)) as [level ->].
  { apply lookup_union_is_Some. by right. }
  done.
Qed.






(** What the witness run returns: with [schema/required-fields] off the
    version ["latest"] goes unreported although [schema/semver] is on,
    and the one returned issue is the variable validator's. *)
Example ill_named_run :
  ∃ r, completed (validateWorkflow lenient_validator ill_named) = Js.Normal r
       ∧ map issue_view (issues r)
         = [("variable/naming-convention", "AUT-3312", Some (at_path "variables.2nd"))].
Proof. eexists. split; [vm_compute; reflexivity|]. done. Qed.

(** ** Graph integrity *)

Lemma connect_as_edge (cfg : LintConfig) (ids : gset string) (n : WorkflowNode)
    (c : Connections) (t : string) :
  connect cfg ids n c t = connect_edge cfg ids c (node_id n, t).
Proof. done. Qed.

Lemma fold_left_flat_map {A B C} (f : A → C → A) (g : B → list C) (l : list B) (a : A) :
  fold_left f (flat_map g l) a = fold_left (λ a x, fold_left f (g x) a) l a.
Proof.
  revert a. induction l as [|x l IH]; intros a; simpl; [done|].
  by rewrite fold_left_app, IH.
Qed.

Lemma fold_left_map {A B C} (f : A → C → A) (h : B → C) (l : list B) (a : A) :
  fold_left f (map h l) a = fold_left (λ a x, f a (h x)) l a.
Proof. revert a. induction l as [|x l IH]; intros a; simpl; [done|]. apply IH. Qed.

Lemma fold_left_ext_in {A B} (f g : A → B → A) (l : list B) (a : A) :
  (∀ a x, x ∈ l → f a x = g a x) → fold_left f l a = fold_left g l a.
Proof.
  revert a. induction l as [|x l IH]; intros a H; simpl; [done|].
  rewrite H by left. apply IH. intros a' y Hy. apply H. by right.
Qed.

Lemma connect_node_edges (cfg : LintConfig) (ids : gset string) (c : Connections)
    (n : WorkflowNode) :
  connect_node cfg ids c n
  = fold_left (connect_edge cfg ids) (map (pair (node_id n)) (connections_of n)) c.
Proof. unfold connect_node. by rewrite fold_left_map. Qed.

Lemma buildConnections_edges (cfg : LintConfig) (nodes : list WorkflowNode) (next : nat) :
  buildConnections cfg nodes next
  = fold_left (connect_edge cfg (nodeIds_of nodes)) (edges nodes)
      {| emitted := ([], next);
         adjacencyList := initialize nodes;
         reverseAdjacencyList := initialize nodes |}.
Proof.
  unfold buildConnections, edges. rewrite fold_left_flat_map.
  apply fold_left_ext_in. intros c n _. apply connect_node_edges.
Qed.

Lemma initialize_lookup (nodes : list WorkflowNode) (id : string) :
  initialize nodes !! id = if bool_decide (id ∈ nodeIds_of nodes) then Some [] else None.
Proof.
  unfold initialize, nodeIds_of.
  assert (∀ (m : gmap string (list string)),
            fold_left (λ m node, <[node_id node := []]> m) nodes m !! id
            = if bool_decide (id ∈ map node_id nodes) then Some [] else m !! id) as H.
  { induction nodes as [|n nodes IH]; intros m; simpl; [done|].
    rewrite IH. case_bool_decide as H1.
    - rewrite bool_decide_eq_true_2; [done|]. by right.
    - destruct (decide (id = node_id n)) as [->|Hne].
      + rewrite lookup_insert_eq. rewrite bool_decide_eq_true_2; [done|]. by left.
      + rewrite lookup_insert_ne by done. rewrite bool_decide_eq_false_2; [done|].
        rewrite elem_of_cons. tauto. }
  rewrite H, lookup_empty.
  by rewrite (bool_decide_ext _ _ (elem_of_list_to_set (C:=gset string) id (map node_id nodes))).
Qed.

Lemma kept_spec (cfg : LintConfig) (ids : gset string) (e : string * string) :
  negb (bool_decide (e.2 ∈ ids)) && isRuleEnabled cfg "graph/missing-nodes"
  = negb (kept cfg ids e).
Proof. unfold kept. by destruct (bool_decide _), (isRuleEnabled _ _). Qed.

Lemma fmap_app_nil (x : option (list string)) : (λ l, l ++ []) <$> x = x.
Proof. destruct x; simpl; [|done]. by rewrite app_nil_r. Qed.

(** What the forward lists hold after the loops have met the edges [es]:
    the targets of the kept edges, by source, in order. *)
Lemma adjacencyList_fold (cfg : LintConfig) (ids : gset string)
    (es : list (string * string)) (c0 : Connections) (id : string) :
  adjacencyList (fold_left (connect_edge cfg ids) es c0) !! id
  = (λ l, l ++ map snd (List.filter (λ e, bool_decide (e.1 = id) && kept cfg ids e) es))
      <$> (adjacencyList c0 !! id).
Proof.
  revert c0. induction es as [|e es IH]; intros c0; simpl.
  { by rewrite fmap_app_nil. }
  rewrite IH. unfold connect_edge, connect. rewrite kept_spec.
  destruct (kept cfg ids e) eqn:Hk; simpl.
  - unfold push_at. rewrite lookup_alter. case_decide as Hid; simpl in Hid.
    + subst id. rewrite bool_decide_eq_true_2 by done. simpl.
      destruct (adjacencyList c0 !! e.1) as [l|]; simpl; [|done].
      by rewrite <- app_assoc.
    + by rewrite bool_decide_eq_false_2 by done.
  - by rewrite andb_false_r.
Qed.

(** The reverse lists: the sources of the kept edges, by target. *)
Lemma reverseAdjacencyList_fold (cfg : LintConfig) (ids : gset string)
    (es : list (string * string)) (c0 : Connections) (id : string) :
  reverseAdjacencyList (fold_left (connect_edge cfg ids) es c0) !! id
  = (λ l, l ++ map fst (List.filter (λ e, bool_decide (e.2 = id) && kept cfg ids e) es))
      <$> (reverseAdjacencyList c0 !! id).
Proof.
  revert c0. induction es as [|e es IH]; intros c0; simpl.
  { by rewrite fmap_app_nil. }
  rewrite IH. unfold connect_edge, connect. rewrite kept_spec.
  destruct (kept cfg ids e) eqn:Hk; simpl.
  - unfold push_at. rewrite lookup_alter. case_decide as Hid; simpl in Hid.
    + subst id. rewrite bool_decide_eq_true_2 by done. simpl.
      destruct (reverseAdjacencyList c0 !! e.2) as [l|]; simpl; [|done].
      by rewrite <- app_assoc.
    + by rewrite bool_decide_eq_false_2 by done.
  - by rewrite andb_false_r.
Qed.

(** The issues pushed by the loops: one per edge that is not kept. *)
Lemma emitted_fold (cfg : LintConfig) (ids : gset string)
    (es : list (string * string)) (c0 : Connections) :
  map issue_view (emitted (fold_left (connect_edge cfg ids) es c0)).1
  = map issue_view (emitted c0).1
    ++ map missing_node_view (List.filter (λ e, negb (kept cfg ids e)) es).
Proof.
  revert c0. induction es as [|e es IH]; intros c0; simpl.
  { by rewrite app_nil_r. }
  rewrite IH. unfold connect_edge, connect. rewrite kept_spec.
  destruct (kept cfg ids e) eqn:Hk; simpl; [done|].
  rewrite map_app, <- app_assoc. done.
Qed.

Lemma edges_elem (nodes : list WorkflowNode) (s t : string) :
  (s, t) ∈ edges nodes ↔ ∃ m, m ∈ nodes ∧ node_id m = s ∧ t ∈ connections_of m.
Proof.
  unfold edges. rewrite list_elem_of_In, in_flat_map. split.
  - intros (m & Hm & Hst). apply in_map_iff in Hst as (t' & [= <- <-] & Ht).
    exists m. by rewrite !list_elem_of_In.
  - intros (m & Hm & <- & Ht). exists m. rewrite <- list_elem_of_In. split; [done|].
    apply in_map_iff. exists t. by rewrite <- list_elem_of_In.
Qed.

Lemma node_id_declared (nodes : list WorkflowNode) (n : WorkflowNode) :
  n ∈ nodes → node_id n ∈ nodeIds_of nodes.
Proof.
  intros Hn. unfold nodeIds_of. rewrite elem_of_list_to_set.
  apply list_elem_of_In, in_map, list_elem_of_In, Hn.
Qed.

(** The reverse list of a declared node holds the sources of all the
    edges that point at it, whatever the rule configuration. *)
Lemma reverseAdjacencyList_declared (cfg : LintConfig) (nodes : list WorkflowNode)
    (next : nat) (id : string) :
  id ∈ nodeIds_of nodes →
  reverseAdjacencyList (buildConnections cfg nodes next) !! id
  = Some (map fst (List.filter (λ e, bool_decide (e.2 = id)) (edges nodes))).
Proof.
  intros Hid. rewrite buildConnections_edges, reverseAdjacencyList_fold. simpl.
  rewrite initialize_lookup, bool_decide_eq_true_2 by done. simpl. do 2 f_equal.
  apply filter_ext. intros e. unfold kept. case_bool_decide as He; [|done].
  simpl. rewrite He. by rewrite bool_decide_eq_true_2.
Qed.

(** The filter callback of the code selects exactly the entry points. *)
Lemma is_entry_spec (cfg : LintConfig) (nodes : list WorkflowNode) (next : nat)
    (n : WorkflowNode) :
  n ∈ nodes →
  is_entry (reverseAdjacencyList (buildConnections cfg nodes next)) n = true
  ↔ entry_point nodes n.
Proof.
  intros Hn. unfold is_entry, entry_point.
  rewrite (reverseAdjacencyList_declared cfg nodes next (node_id n))
    by by apply node_id_declared.
  simpl. rewrite orb_true_iff, bool_decide_eq_true, Nat.eqb_eq, length_map.
  apply or_iff_compat_l. rewrite length_zero_iff_nil. split.
  - intros Hnil m Hm Hc.
    assert (In (node_id m, node_id n)
              (List.filter (λ e, bool_decide (e.2 = node_id n)) (edges nodes))) as Hin.
    { apply filter_In. split; [|by apply bool_decide_eq_true_2].
      apply list_elem_of_In, edges_elem. by exists m. }
    by rewrite Hnil in Hin.
  - intros Hnone. apply filter_none. intros [s t] He. apply bool_decide_eq_false_2.
    simpl. intros ->. apply edges_elem in He as (m & Hm & _ & Ht). by eapply Hnone.
Qed.

Lemma dfs_fold_mono (f : string → gset string → gset string) (l : list string)
    (r : gset string) :
  (∀ c v, v ⊆ f c v) → r ⊆ fold_left (λ r c, f c r) l r.
Proof.
  intros Hf. revert r. induction l as [|c l IH]; intros r; simpl; [done|].
  etrans; [apply (Hf c)|apply IH].
Qed.

(** A traversal only adds to the visited set. *)
Lemma dfs_mono (fuel : nat) (adj : gmap string (list string)) (n : string)
    (v : gset string) :
  v ⊆ dfs fuel adj n v.
Proof.
  revert n v. induction fuel as [|fuel IH]; intros n v; simpl; [done|].
  case_bool_decide; [done|].
  etrans; [|apply dfs_fold_mono; intros c r; apply IH]. set_solver.
Qed.

(** A traversal with fuel left marks the node it starts from. *)
Lemma dfs_self (fuel : nat) (adj : gmap string (list string)) (n : string)
    (v : gset string) :
  n ∈ dfs (S fuel) adj n v.
Proof.
  simpl. case_bool_decide; [done|].
  eapply elem_of_weaken; [|apply dfs_fold_mono; intros c r; apply dfs_mono].
  set_solver.
Qed.

Lemma reachable_from_entry (fuel : nat) (adj : gmap string (list string))
    (entryNodes : list WorkflowNode) (n : WorkflowNode) :
  n ∈ entryNodes → node_id n ∈ reachable_from (S fuel) adj entryNodes.
Proof.
  unfold reachable_from. generalize (∅ : gset string).
  induction entryNodes as [|e l IH]; intros r Hn; [by apply elem_of_nil in Hn|].
  simpl. apply elem_of_cons in Hn as [->|Hn]; [|by apply IH].
  assert (∀ l r, r ⊆ fold_left (λ r node, dfs (S fuel) adj (node_id node) r) l r) as Hmono.
  { clear. induction l as [|x l IH]; intros r; simpl; [done|].
    etrans; [apply (dfs_mono (S fuel) adj (node_id x))|apply IH]. }
  eapply elem_of_weaken; [apply dfs_self|apply Hmono].
Qed.

Lemma report_unreachable_fold (l : list WorkflowNode) (st : Emitted) (i : LintIssue) :
  i ∈ (fold_left report_unreachable l st).1 →
  i ∈ st.1 ∨ ∃ n, n ∈ l ∧ location i = Some (at_node (node_id n)).
Proof.
  revert st. induction l as [|x l IH]; intros st Hi; simpl in Hi; [by left|].
  apply IH in Hi as [Hi|(n & Hn & Hloc)].
  - unfold report_unreachable in Hi. rewrite push_issue_fst in Hi.
    apply elem_of_app in Hi as [Hi| ->%list_elem_of_singleton]; [by left|].
    right. exists x. split; [left|done].
  - right. exists n. split; [by right|done].
Qed.

Lemma buildConnections_rules (cfg : LintConfig) (nodes : list WorkflowNode)
    (next : nat) (i : LintIssue) :
  i ∈ (emitted (buildConnections cfg nodes next)).1 → ruleId i = "graph/missing-nodes".
Proof.
  intros Hi.
  assert (issue_view i ∈ map issue_view (emitted (buildConnections cfg nodes next)).1)
    as Hview by (apply list_elem_of_In, in_map, list_elem_of_In, Hi).
  rewrite buildConnections_edges, emitted_fold in Hview. simpl in Hview.
  apply list_elem_of_In, in_map_iff in Hview as (e & He & _).
  unfold issue_view, missing_node_view in He. congruence.
Qed.

(** C6: the analyzer never emits a [graph/unreachable-nodes] issue for a
    node that is an entry point, an entry point being a node of trigger
    kind or a node with no incoming edge. *)
Theorem entry_point_never_unreachable (cfg : LintConfig) (nodes : list WorkflowNode)
    (next : nat) (issue : LintIssue) (n : WorkflowNode) :
  issue ∈ (validateGraphIntegrity cfg nodes next).1 →
  ruleId issue = "graph/unreachable-nodes" →
  n ∈ nodes → entry_point nodes n →
  location issue ≠ Some (at_node (node_id n)).
Proof.
  intros Hi Hrule Hn Hentry Hloc. unfold validateGraphIntegrity in Hi.
  case_bool_decide as Hnil; [by apply elem_of_nil in Hi|].
  set (c := buildConnections cfg nodes next) in *.
  set (st := if isRuleEnabled cfg "graph/entry-points" && _ then _ else _) in Hi.
  assert (∀ j, j ∈ st.1 → ruleId j ≠ "graph/unreachable-nodes") as Hst.
  { intros j Hj. subst st.
    destruct (isRuleEnabled cfg "graph/entry-points" && _).
    - rewrite push_issue_fst in Hj.
      apply elem_of_app in Hj as [Hj| ->%list_elem_of_singleton]; [|done].
      by rewrite (buildConnections_rules _ _ _ _ Hj).
    - by rewrite (buildConnections_rules _ _ _ _ Hj). }
  destruct (isRuleEnabled cfg "graph/unreachable-nodes"); [|by apply Hst in Hi].
  apply report_unreachable_fold in Hi as [Hi|(m & Hm & Hloc')]; [by apply Hst in Hi|].
  rewrite Hloc in Hloc'. injection Hloc' as Hid.
  apply list_elem_of_In, filter_In in Hm as [_ Hm].
  apply negb_true_iff, bool_decide_eq_false_1 in Hm. apply Hm. rewrite <- Hid.
  apply reachable_from_entry, list_elem_of_In, filter_In.
  split; [by apply list_elem_of_In|]. by apply is_entry_spec.
Qed.

(** *** The fuel of the traversal is never exhausted *)

Section fuel.
Context (adj : gmap string (list string)) (U : gset string).
(** Every id the adjacency lists mention lies in [U]. *)
Hypothesis closed : ∀ n l c, adj !! n = Some l → c ∈ l → c ∈ U.

Lemma dfs_enough_fuel (fuel fuel' : nat) (n : string) (v : gset string) :
  n ∈ U → (size (U ∖ v) < fuel)%nat → (fuel ≤ fuel')%nat →
  dfs fuel' adj n v = dfs fuel adj n v.
Proof.
  revert fuel' n v. induction fuel as [|fuel IH]; intros fuel' n v Hn Hsize Hle; [lia|].
  destruct fuel' as [|fuel']; [lia|]. simpl.
  case_bool_decide as Hv; [done|].
  assert (size (U ∖ ({[n]} ∪ v)) < size (U ∖ v))%nat as Hless.
  { apply subset_size. set_solver. }
  assert (∀ l r, (∀ c, c ∈ l → c ∈ U) → {[n]} ∪ v ⊆ r →
            fold_left (λ r c, dfs fuel' adj c r) l r
            = fold_left (λ r c, dfs fuel adj c r) l r) as Hfold.
  { induction l as [|c l IHl]; intros r Hl Hr; simpl; [done|].
    assert (size (U ∖ r) < fuel)%nat as Hr'.
    { assert (size (U ∖ r) ≤ size (U ∖ ({[n]} ∪ v)))%nat; [|lia].
      apply subseteq_size. set_solver. }
    rewrite (IH fuel' c r) by (try apply Hl; try left; done || lia).
    apply IHl; [intros; apply Hl; by right|].
    etrans; [done|apply dfs_mono]. }
  apply Hfold; [|done].
  intros c Hc. destruct (adj !! n) as [l|] eqn:Hl; simpl in Hc.
  - by eapply closed.
  - by apply elem_of_nil in Hc.
Qed.

Lemma reachable_from_enough_fuel (fuel fuel' : nat) (entryNodes : list WorkflowNode) :
  (∀ e, e ∈ entryNodes → node_id e ∈ U) → (size U < fuel)%nat → (fuel ≤ fuel')%nat →
  reachable_from fuel' adj entryNodes = reachable_from fuel adj entryNodes.
Proof.
  intros Hin Hsize Hle. unfold reachable_from. generalize (∅ : gset string).
  induction entryNodes as [|e l IH]; intros r; simpl; [done|].
  rewrite (dfs_enough_fuel fuel fuel').
  - apply IH. intros; apply Hin. by right.
  - apply Hin. left.
  - assert (size (U ∖ r) ≤ size U)%nat; [|lia]. apply subseteq_size. set_solver.
  - done.
Qed.
End fuel.

Lemma size_list_to_set_le (l : list string) :
  (size (list_to_set l : gset string) ≤ length l)%nat.
Proof.
  induction l as [|x l IH].
  { rewrite list_to_set_nil, size_empty. done. }
  rewrite list_to_set_cons, size_union_alt, size_singleton. simpl.
  assert (size ((list_to_set l : gset string) ∖ {[x]})
          ≤ size (list_to_set l : gset string))%nat; [|lia].
  apply subseteq_size. set_solver.
Qed.

Lemma universe_size (nodes : list WorkflowNode) :
  (size (universe nodes) < dfs_fuel nodes)%nat.
Proof.
  unfold universe, dfs_fuel.
  pose proof (size_list_to_set_le (map node_id nodes ++ flat_map connections_of nodes)) as H.
  rewrite length_app, length_map in H. lia.
Qed.

Lemma adjacencyList_closed (cfg : LintConfig) (nodes : list WorkflowNode) (next : nat)
    (n : string) (l : list string) (c : string) :
  adjacencyList (buildConnections cfg nodes next) !! n = Some l → c ∈ l →
  c ∈ universe nodes.
Proof.
  rewrite buildConnections_edges, adjacencyList_fold. simpl.
  rewrite initialize_lookup. case_bool_decide; [|done]. simpl.
  intros [= <-] Hc. apply list_elem_of_In, in_map_iff in Hc as ([s t] & <- & Hst).
  apply filter_In in Hst as [Hst _].
  apply list_elem_of_In, edges_elem in Hst as (m & Hm & _ & Ht).
  unfold universe. rewrite elem_of_list_to_set, elem_of_app. right.
  apply list_elem_of_In, in_flat_map. exists m. by rewrite <- !list_elem_of_In.
Qed.

(** The traversal [validateGraphIntegrity] runs from an entry node is the
    same with any larger fuel: [dfs_fuel] never runs out, so the bounded
    recursion of the model computes what the unbounded recursion of the
    code computes. *)
Theorem dfs_fuel_irrelevant (cfg : LintConfig) (nodes : list WorkflowNode) (next : nat)
    (extra : nat) :
  let c := buildConnections cfg nodes next in
  let entryNodes := List.filter (is_entry (reverseAdjacencyList c)) nodes in
  reachable_from (dfs_fuel nodes + extra)%nat (adjacencyList c) entryNodes
  = reachable_from (dfs_fuel nodes) (adjacencyList c) entryNodes.
Proof.
  intros c entryNodes.
  apply (reachable_from_enough_fuel (adjacencyList c) (universe nodes)).
  - intros n l x. apply adjacencyList_closed.
  - intros e He. apply list_elem_of_In, filter_In in He as [He _].
    unfold universe. rewrite elem_of_list_to_set, elem_of_app. left.
    apply list_elem_of_In, in_map, He.
  - apply universe_size.
  - lia.
Qed.

(** *** Dangling edges *)

Lemma report_unreachable_fold_app (l : list WorkflowNode) (st : Emitted) :
  ∃ rest, (fold_left report_unreachable l st).1 = st.1 ++ rest
          ∧ ∀ j, j ∈ rest → ruleId j = "graph/unreachable-nodes".
Proof.
  revert st. induction l as [|x l IH]; intros st; simpl.
  { exists []. split; [by rewrite app_nil_r|]. by intros j ?%elem_of_nil. }
  destruct (IH (report_unreachable st x)) as (rest & -> & Hrest).
  unfold report_unreachable. rewrite push_issue_fst, <- app_assoc.
  eexists. split; [done|]. intros j [->|Hj]%elem_of_cons; [done|by apply Hrest].
Qed.

(** The issues of [validateGraphIntegrity]: those of the "build
    connections" loops, then issues of other rules. *)
Lemma validateGraphIntegrity_issues (cfg : LintConfig) (nodes : list WorkflowNode)
    (next : nat) :
  nodes ≠ [] →
  ∃ rest, (validateGraphIntegrity cfg nodes next).1
          = (emitted (buildConnections cfg nodes next)).1 ++ rest
          ∧ ∀ j, j ∈ rest → ruleId j ≠ "graph/missing-nodes".
Proof.
  intros Hne. unfold validateGraphIntegrity. rewrite bool_decide_eq_false_2 by done.
  set (c := buildConnections cfg nodes next).
  set (st := if isRuleEnabled cfg "graph/entry-points" && _ then _ else _).
  assert (∃ rest, st.1 = (emitted c).1 ++ rest
                  ∧ ∀ j, j ∈ rest → ruleId j ≠ "graph/missing-nodes") as (r1 & Hr1 & Hr1').
  { subst st. destruct (isRuleEnabled cfg "graph/entry-points" && _).
    - rewrite push_issue_fst. eexists. split; [done|].
      by intros j ->%list_elem_of_singleton.
    - exists []. split; [by rewrite app_nil_r|]. by intros j ?%elem_of_nil. }
  destruct (isRuleEnabled cfg "graph/unreachable-nodes"); [|by exists r1].
  match goal with |- context [fold_left report_unreachable ?l st] =>
    destruct (report_unreachable_fold_app l st) as (r2 & -> & Hr2) end.
  rewrite Hr1, <- app_assoc. eexists. split; [done|].
  intros j [Hj|Hj]%elem_of_app; [by apply Hr1'|]. by rewrite (Hr2 j Hj).
Qed.

Lemma prune_node_ids (ids : gset string) (nodes : list WorkflowNode) :
  map node_id (map (prune_node ids) nodes) = map node_id nodes.
Proof. rewrite map_map. by apply map_ext. Qed.

Lemma prune_ids (nodes : list WorkflowNode) : nodeIds_of (prune nodes) = nodeIds_of nodes.
Proof. unfold nodeIds_of, prune. by rewrite prune_node_ids. Qed.

Lemma prune_initialize (nodes : list WorkflowNode) : initialize (prune nodes) = initialize nodes.
Proof.
  apply map_eq. intros id. by rewrite !initialize_lookup, prune_ids.
Qed.

Lemma filter_map_pair (ids : gset string) (s : string) (l : list string) :
  List.filter (λ e : string * string, bool_decide (e.2 ∈ ids)) (map (pair s) l)
  = map (pair s) (List.filter (λ t, bool_decide (t ∈ ids)) l).
Proof.
  induction l as [|t l IH]; simpl; [done|]. case_bool_decide; simpl; by rewrite IH.
Qed.

Lemma prune_edges (nodes : list WorkflowNode) :
  edges (prune nodes)
  = List.filter (λ e, bool_decide (e.2 ∈ nodeIds_of nodes)) (edges nodes).
Proof.
  unfold prune, edges. generalize (nodeIds_of nodes). intros ids.
  induction nodes as [|n nodes IH]; simpl; [done|].
  rewrite List.filter_app, IH. f_equal.
  symmetry. apply filter_map_pair.
Qed.

Lemma kept_enabled (cfg : LintConfig) (nodes : list WorkflowNode) (e : string * string) :
  isRuleEnabled cfg "graph/missing-nodes" = true →
  kept cfg (nodeIds_of nodes) e = bool_decide (e.2 ∈ nodeIds_of nodes).
Proof. intros Hon. unfold kept. rewrite Hon. apply orb_false_r. Qed.

Lemma prune_connections (cfg : LintConfig) (nodes : list WorkflowNode) (next : nat) :
  isRuleEnabled cfg "graph/missing-nodes" = true →
  adjacencyList (buildConnections cfg (prune nodes) next)
  = adjacencyList (buildConnections cfg nodes next)
  ∧ reverseAdjacencyList (buildConnections cfg (prune nodes) next)
    = reverseAdjacencyList (buildConnections cfg nodes next).
Proof.
  intros Hon. split; apply map_eq; intros id; rewrite !buildConnections_edges.
  - rewrite !adjacencyList_fold. simpl.
    rewrite prune_initialize, prune_ids, prune_edges.
    rewrite filter_filter_implied; [done|]. intros e [_ He]%andb_true_iff.
    by rewrite kept_enabled in He.
  - rewrite !reverseAdjacencyList_fold. simpl.
    rewrite prune_initialize, prune_ids, prune_edges.
    rewrite filter_filter_implied; [done|]. intros e [_ He]%andb_true_iff.
    by rewrite kept_enabled in He.
Qed.

Lemma reachable_from_ids (fuel : nat) (adj : gmap string (list string))
    (l l' : list WorkflowNode) :
  map node_id l = map node_id l' → reachable_from fuel adj l = reachable_from fuel adj l'.
Proof.
  intros Hids. unfold reachable_from.
  rewrite <- (fold_left_map (λ r id, dfs fuel adj id r) node_id l).
  rewrite <- (fold_left_map (λ r id, dfs fuel adj id r) node_id l').
  by rewrite Hids.
Qed.

Lemma prune_entry_ids (radj : gmap string (list string)) (nodes : list WorkflowNode) :
  map node_id (List.filter (is_entry radj) (prune nodes))
  = map node_id (List.filter (is_entry radj) nodes).
Proof.
  unfold prune. generalize (nodeIds_of nodes). intros ids.
  induction nodes as [|n nodes IH]; simpl; [done|].
  change (is_entry radj (prune_node ids n)) with (is_entry radj n).
  destruct (is_entry radj n); simpl; by rewrite IH.
Qed.

Lemma prune_fuel (nodes : list WorkflowNode) : (dfs_fuel (prune nodes) ≤ dfs_fuel nodes)%nat.
Proof.
  unfold dfs_fuel, prune. generalize (nodeIds_of nodes). intros ids.
  rewrite length_map. apply le_n_S, Nat.add_le_mono_l.
  induction nodes as [|n nodes IH]; simpl; [done|].
  rewrite !length_app. apply Nat.add_le_mono; [|done].
  change (connections_of (prune_node ids n))
    with (List.filter (λ t, bool_decide (t ∈ ids)) (connections_of n)).
  apply filter_length_le.
Qed.

Lemma prune_reachable (cfg : LintConfig) (nodes : list WorkflowNode) (next : nat) :
  isRuleEnabled cfg "graph/missing-nodes" = true →
  reachable_ids cfg (prune nodes) next = reachable_ids cfg nodes next.
Proof.
  intros Hon. unfold reachable_ids.
  destruct (prune_connections cfg nodes next Hon) as [Hadj Hradj].
  rewrite Hradj.
  rewrite (reachable_from_ids _ _ _ _ (prune_entry_ids _ nodes)).
  symmetry. rewrite <- Hadj.
  apply (reachable_from_enough_fuel _ (universe (prune nodes))).
  - intros n l x. apply adjacencyList_closed.
  - intros e He. apply list_elem_of_In, filter_In in He as [He _].
    unfold universe. rewrite elem_of_list_to_set, elem_of_app. left.
    assert (map node_id (prune nodes) = map node_id nodes) as ->
      by apply prune_node_ids.
    apply list_elem_of_In, in_map, He.
  - apply universe_size.
  - apply prune_fuel.
Qed.

Lemma missing_node_issues (cfg : LintConfig) (nodes : list WorkflowNode) (next : nat) :
  List.filter is_missing_node_issue (validateGraphIntegrity cfg nodes next).1
  = (emitted (buildConnections cfg nodes next)).1.
Proof.
  destruct (decide (nodes = [])) as [->|Hne]; [done|].
  destruct (validateGraphIntegrity_issues cfg nodes next Hne) as (rest & -> & Hrest).
  rewrite List.filter_app, (filter_none _ rest), app_nil_r.
  - apply filter_all. intros i Hi. apply bool_decide_eq_true_2.
    by eapply buildConnections_rules.
  - intros j Hj. apply bool_decide_eq_false_2. by apply Hrest.
Qed.

(** [reachable_ids] is the set the unreachable-node report is computed
    from. *)
Lemma validateGraphIntegrity_unreachable (cfg : LintConfig) (nodes : list WorkflowNode)
    (next : nat) :
  nodes ≠ [] → isRuleEnabled cfg "graph/unreachable-nodes" = true →
  ∃ st, validateGraphIntegrity cfg nodes next
        = fold_left report_unreachable
            (List.filter
               (λ n, negb (bool_decide (node_id n ∈ reachable_ids cfg nodes next))) nodes)
            st.
Proof.
  intros Hne Hon. unfold validateGraphIntegrity.
  rewrite bool_decide_eq_false_2, Hon by done. eexists. reflexivity.
Qed.

(** C5, as amended: while [graph/missing-nodes] is enabled, the analysis
    produces exactly one [graph/missing-nodes] issue (code 3311, located
    at the source node) per dangling edge, in edge order; a dangling
    target appears in no forward list and has no reverse list; and both
    adjacency maps, hence the set of ids marked reachable, are those of
    the node list with its dangling connections removed. *)
Theorem dangling_edges_reported (cfg : LintConfig) (nodes : list WorkflowNode) (next : nat) :
  isRuleEnabled cfg "graph/missing-nodes" = true →
  map issue_view
    (List.filter is_missing_node_issue (validateGraphIntegrity cfg nodes next).1)
  = map missing_node_view (dangling_edges nodes)
  ∧ (∀ s t, t ∉ nodeIds_of nodes →
            (t ∉ default [] (adjacencyList (buildConnections cfg nodes next) !! s))
            ∧ reverseAdjacencyList (buildConnections cfg nodes next) !! t = None)
  ∧ adjacencyList (buildConnections cfg nodes next)
    = adjacencyList (buildConnections cfg (prune nodes) next)
  ∧ reverseAdjacencyList (buildConnections cfg nodes next)
    = reverseAdjacencyList (buildConnections cfg (prune nodes) next)
  ∧ reachable_ids cfg nodes next = reachable_ids cfg (prune nodes) next.
Proof.
  intros Hon. split_and!.
  - rewrite missing_node_issues, buildConnections_edges, emitted_fold. simpl.
    unfold dangling_edges. f_equal. apply filter_ext. intros e.
    by rewrite kept_enabled.
  - intros s t Ht. rewrite buildConnections_edges. split.
    + rewrite adjacencyList_fold. simpl. rewrite initialize_lookup.
      case_bool_decide; simpl; [|by apply not_elem_of_nil].
      intros ([s' t'] & <- & He)%list_elem_of_In%in_map_iff.
      apply filter_In in He as [_ [_ He]%andb_true_iff].
      rewrite kept_enabled in He by done. by apply bool_decide_eq_true_1 in He.
    + rewrite reverseAdjacencyList_fold. simpl. rewrite initialize_lookup.
      by rewrite bool_decide_eq_false_2.
  - symmetry. by apply prune_connections.
  - symmetry. by apply prune_connections.
  - symmetry. by apply prune_reachable.
Qed.

Lemma dangling_edges_reported_witness :
  map issue_view (validateGraphIntegrity (config default_validator) scenario_C 1).1
  = [("graph/missing-nodes", "AUT-3311", Some (at_node "B"))]
  ∧ map issue_view
      (List.filter is_missing_node_issue
         (validateGraphIntegrity (config default_validator) scenario_C 1).1)
    = map missing_node_view [("B", "C")].
Proof.
  split; [vm_compute; reflexivity|].
  destruct (dangling_edges_reported (config default_validator) scenario_C 1) as [H _].
  - vm_compute. reflexivity.
  - rewrite H. vm_compute. reflexivity.
Defined.

(** C5 as stated fails: with [graph/missing-nodes] off, the dangling edge
    of Scenario C gets no issue and is pushed onto the forward list of
    its source. *)
Lemma dangling_edge_kept_when_rule_off :
  dangling_edges scenario_C = [("B", "C")]
  ∧ (validateGraphIntegrity (config silent_validator) scenario_C 1).1 = []
  ∧ adjacencyList (buildConnections (config silent_validator) scenario_C 1) !! "B"
    = Some ["C"].
Proof. vm_compute. done. Qed.

Lemma entry_point_never_unreachable_witness :
  ∃ issue n,
    issue ∈ (validateGraphIntegrity (config default_validator) island_cycle 1).1
    ∧ ruleId issue = "graph/unreachable-nodes"
    ∧ n ∈ island_cycle ∧ entry_point island_cycle n
    ∧ location issue ≠ Some (at_node (node_id n)).
Proof.
  assert (∃ i rest,
            (validateGraphIntegrity (config default_validator) island_cycle 1).1 = i :: rest
            ∧ ruleId i = "graph/unreachable-nodes") as (i & rest & Hl & Hrule).
  { vm_compute. eexists _, _. split; reflexivity. }
  exists i, (node "A" type_trigger None None).
  assert (i ∈ (validateGraphIntegrity (config default_validator) island_cycle 1).1) as Hi
    by (rewrite Hl; left).
  assert (node "A" type_trigger None None ∈ island_cycle) as Hn by left.
  assert (entry_point island_cycle (node "A" type_trigger None None)) as He by by left.
  split_and!; [done..|].
  exact (entry_point_never_unreachable _ _ _ _ _ Hi Hrule Hn He).
Defined.

(** ** Further witnesses *)

Lemma detectRequiredPermissions_sorted_witness :
  Sorted String.le ["SEND_MESSAGES"; "VIEW_CHANNEL"]
  ∧ NoDup ["SEND_MESSAGES"; "VIEW_CHANNEL"].
Proof.
  apply (detectRequiredPermissions_sorted scenario_A). vm_compute. reflexivity.
Defined.

Lemma validateWorkflow_with_nodes_witness :
  workflow_after (validateWorkflow default_validator scenario_A) = scenario_A
  ∧ ∃ r, completed (validateWorkflow default_validator scenario_A) = Js.Normal r
         ∧ system_error_result r.
Proof.
  apply (validateWorkflow_with_nodes default_validator scenario_A
           [node "node-1" type_action (Some "send_message") None]).
  reflexivity.
Defined.

Lemma getPermissionSeverity_unknown_witness :
  getPermissionSeverity "FAKE_PERM_123" = Severity safe
  ∧ severity_points "FAKE_PERM_123" = 1.
Proof.
  apply getPermissionSeverity_unknown.
  - vm_compute. reflexivity.
  - apply (bool_decide_unpack _). vm_compute. exact I.
Defined.

Lemma dangerous_only_in_table_witness :
  PERMISSION_SEVERITY !! "BAN_MEMBERS" = Some dangerous.
Proof.
  apply (dangerous_only_in_table ["SEND_MESSAGES"; "BAN_MEMBERS"]).
  apply list_elem_of_In. vm_compute. left. reflexivity.
Defined.

Lemma calculatePackPermissionWeight_ban_user_witness :
  aggregatePackPermissions scenario_E = Js.Normal ["BAN_MEMBERS"]
  ∧ calculatePackPermissionWeight scenario_E = Js.Normal 10.
Proof.
  eapply calculatePackPermissionWeight_ban_user; reflexivity.
Defined.
(** * Further properties of the code *)

(** ** The permission tables *)

Lemma ACTION_table_classified :
  map_Forall (λ _ perms,
    NoDup perms
    ∧ Forall (λ p, is_Some (PERMISSION_SEVERITY !! p)
                   ∧ is_Some (PERMISSION_DESCRIPTIONS !! p)) perms)
    ACTION_PERMISSION_MAPPINGS.
Proof. apply (bool_decide_unpack _). vm_compute. exact I. Qed.

Lemma TRIGGER_table_classified :
  map_Forall (λ _ perms,
    NoDup perms
    ∧ Forall (λ p, is_Some (PERMISSION_SEVERITY !! p)
                   ∧ is_Some (PERMISSION_DESCRIPTIONS !! p)) perms)
    TRIGGER_PERMISSION_MAPPINGS.
Proof. apply (bool_decide_unpack _). vm_compute. exact I. Qed.

(** No table has a key that is also the name of an inherited member, and
    none has the empty string as a key. *)
Lemma tables_plain (k : string) :
  k ∈ "" :: Js.Object_prototype_keys →
  ACTION_PERMISSION_MAPPINGS !! k = None ∧ TRIGGER_PERMISSION_MAPPINGS !! k = None
  ∧ PERMISSION_SEVERITY !! k = None ∧ PERMISSION_DESCRIPTIONS !! k = None.
Proof.
  revert k. apply Forall_forall. apply (bool_decide_unpack _). vm_compute. exact I.
Qed.

Lemma empty_not_inherited : ¬ inherited_name "".
Proof. unfold inherited_name. apply (bool_decide_unpack _). vm_compute. exact I. Qed.

(** The three outcomes of reading [obj[key]] on an object literal. *)
Lemma get_cases {A} (obj : gmap string A) (key : string) :
  (∃ a, obj !! key = Some a ∧ Js.get obj key = Js.Own a ∧ Js.has key obj = true)
  ∨ (obj !! key = None ∧ inherited_name key
     ∧ Js.get obj key = Js.Inherited key ∧ Js.has key obj = true)
  ∨ (obj !! key = None ∧ ¬ inherited_name key
     ∧ Js.get obj key = Js.Undefined ∧ Js.has key obj = false).
Proof.
  unfold Js.has, Js.get, inherited_name. destruct (obj !! key) as [a|].
  - left. by exists a.
  - right. case_bool_decide; [left|right]; done.
Qed.

Lemma is_action_node_spec (n : WorkflowNode) :
  is_action_node n = true
  ↔ node_type n = type_action ∧ ∃ a, node_action n = Some a ∧ a ≠ "".
Proof.
  unfold is_action_node, Js.truthy. rewrite andb_true_iff, bool_decide_eq_true.
  destruct (node_action n) as [a|].
  - rewrite negb_true_iff, bool_decide_eq_false. naive_solver.
  - naive_solver.
Qed.

Lemma node_grants_action (n : WorkflowNode) (p : string) :
  node_grants n p
  ↔ is_action_node n = true
    ∧ ∃ perms, ACTION_PERMISSION_MAPPINGS !! action_of n = Some perms ∧ p ∈ perms.
Proof.
  unfold node_grants, action_of. rewrite is_action_node_spec. split.
  - intros (a & perms & Hty & Ha & Hl & Hp). rewrite Ha. simpl.
    split; [|by exists perms]. split; [done|]. exists a. split; [done|].
    intros ->. destruct (tables_plain "") as [E _]; [left|]. congruence.
  - intros [[Hty (a & Ha & _)] (perms & Hl & Hp)]. rewrite Ha in Hl. simpl in Hl.
    by exists a, perms.
Qed.

(** ** What [detectRequiredPermissions] returns, and when *)

Lemma node_grants_own (n : WorkflowNode) (perms : list string) (p : string) :
  is_action_node n = true → ACTION_PERMISSION_MAPPINGS !! action_of n = Some perms →
  node_grants n p ↔ p ∈ perms.
Proof.
  intros Hact Hl. rewrite node_grants_action. split.
  - intros [_ (perms' & ? & ?)]. by simplify_eq.
  - intros Hp. split; [done|]. by exists perms.
Qed.

Lemma node_grants_none (n : WorkflowNode) (p : string) :
  is_action_node n = false ∨ ACTION_PERMISSION_MAPPINGS !! action_of n = None →
  ¬ node_grants n p.
Proof.
  rewrite node_grants_action. intros [H|H] [Hact (perms & Hl & _)]; congruence.
Qed.

Lemma exists_cons {A} (P : A → Prop) (x : A) (l : list A) :
  (∃ y, y ∈ x :: l ∧ P y) ↔ P x ∨ ∃ y, y ∈ l ∧ P y.
Proof.
  split.
  - intros (y & [->|Hy]%elem_of_cons & HP); [by left|right; by exists y].
  - intros [HP|(y & Hy & HP)]; [exists x|exists y]; (split; [|done]).
    + by left.
    + by right.
Qed.

Lemma required_of_nodes_elem (nodes : list WorkflowNode) (s s' : JsSet.t) (p : string) :
  required_of_nodes nodes s = Js.Normal s' →
  p ∈ s' ↔ p ∈ s ∨ ∃ n, n ∈ nodes ∧ node_grants n p.
Proof.
  revert s. induction nodes as [|n nodes IH]; intros s Hrun; simpl in Hrun.
  - simplify_eq. split; [by left|]. intros [?|(n & Hn & _)]; [done|].
    by apply elem_of_nil in Hn.
  - rewrite exists_cons.
    destruct (is_action_node n) eqn:Hact; simpl in Hrun.
    + destruct (get_cases ACTION_PERMISSION_MAPPINGS (action_of n))
        as [(perms & Hl & Hg & Hh)|[(Hl & _ & Hg & Hh)|(Hl & _ & Hg & Hh)]];
        unfold hasActionPermissionMapping in Hrun; rewrite Hh in Hrun;
        try rewrite Hg in Hrun; [|done|].
      * rewrite (IH _ Hrun), JsSet_add_all_elem, (node_grants_own n perms) by done.
        tauto.
      * rewrite (IH _ Hrun). pose proof (node_grants_none n p (or_intror Hl)). tauto.
    + rewrite (IH _ Hrun). pose proof (node_grants_none n p (or_introl Hact)). tauto.
Qed.

Lemma required_of_nodes_returns (nodes : list WorkflowNode) (s : JsSet.t) :
  (∃ s', required_of_nodes nodes s = Js.Normal s')
  ↔ ∀ n a, n ∈ nodes → node_type n = type_action → node_action n = Some a →
           ¬ inherited_name a.
Proof.
  revert s. induction nodes as [|n nodes IH]; intros s; simpl.
  - split; [|by eexists]. intros _ n a Hn. by apply elem_of_nil in Hn.
  - assert (∀ P : Prop,
      (P ∧ ∀ m a, m ∈ nodes → node_type m = type_action → node_action m = Some a →
                  ¬ inherited_name a)
      ↔ ((∀ a, node_type n = type_action → node_action n = Some a → ¬ inherited_name a)
         → P) → False → False) as _ by tauto.
    assert ((∀ m a, m ∈ n :: nodes → node_type m = type_action →
                    node_action m = Some a → ¬ inherited_name a)
            ↔ (∀ a, node_type n = type_action → node_action n = Some a →
                    ¬ inherited_name a)
              ∧ ∀ m a, m ∈ nodes → node_type m = type_action → node_action m = Some a →
                       ¬ inherited_name a) as ->.
    { setoid_rewrite elem_of_cons. naive_solver. }
    destruct (is_action_node n) eqn:Hact; simpl.
    + apply is_action_node_spec in Hact as (Hty & a & Ha & Hne).
      unfold hasActionPermissionMapping, action_of. rewrite Ha. simpl.
      destruct (get_cases ACTION_PERMISSION_MAPPINGS a)
        as [(perms & Hl & Hg & Hh)|[(Hl & Hi & Hg & Hh)|(Hl & Hi & Hg & Hh)]];
        rewrite Hh; try rewrite Hg.
      * rewrite IH. split; [|tauto]. intros H. split; [|done].
        intros a' _ [= <-].
        intros Hi. destruct (tables_plain a) as [E _]; [by right|]. congruence.
      * split; [by intros [? ?]|]. intros [H _]. by destruct (H a).
      * rewrite IH. split; [|tauto]. intros H. split; [|done].
        by intros a' _ [= <-].
    + rewrite IH. split; [|tauto]. intros H. split; [|done].
      intros a Hty Ha Hi. assert (is_action_node n = true); [|congruence].
      apply is_action_node_spec. split; [done|]. exists a. split; [done|].
      intros ->. by apply empty_not_inherited.
Qed.

Lemma trigger_event_cases (w : AutomaterWorkflow) :
  let triggerEvent := workflow_trigger w ≫= trigger_event in
  (∃ ev, triggerEvent = Some ev ∧ ev ≠ "" ∧ Js.truthy triggerEvent = true
         ∧ default "" triggerEvent = ev)
  ∨ (Js.truthy triggerEvent = false
     ∧ ∀ ev, triggerEvent = Some ev → ev = "").
Proof.
  simpl. destruct (workflow_trigger w ≫= trigger_event) as [ev|]; simpl.
  - case_bool_decide as He; simpl.
    + right. split; [done|]. intros ? [= <-]. exact He.
    + left. exists ev. split_and!; done.
  - right. split; [done|]. intros ? [=].
Qed.

Lemma trigger_permissions_elem (w : AutomaterWorkflow) (s : JsSet.t) (p : string) :
  trigger_permissions w = Js.Normal s → p ∈ s ↔ trigger_grants w p.
Proof.
  unfold trigger_permissions, trigger_grants, hasTriggerPermissionMapping.
  destruct (trigger_event_cases w) as [(ev & Hev & Hne & -> & ->)|[-> Hnone]];
    cbn [andb].
  - destruct (get_cases TRIGGER_PERMISSION_MAPPINGS ev)
      as [(perms & Hl & -> & ->)|[(Hl & _ & -> & ->)|(Hl & _ & -> & ->)]];
      intros [= <-].
    + rewrite JsSet_add_all_elem. unfold JsSet.empty. rewrite elem_of_nil. split.
      * intros [[]|Hp]. exists ev, perms. split_and!; assumption.
      * intros (ev' & perms' & Hev' & Hl' & Hp). right. rewrite Hev in Hev'.
        injection Hev' as <-. rewrite Hl in Hl'. injection Hl' as <-. exact Hp.
    + unfold JsSet.empty. rewrite elem_of_nil. split; [intros []|].
      intros (ev' & perms' & Hev' & Hl' & Hp). rewrite Hev in Hev'.
      injection Hev' as <-. rewrite Hl in Hl'. discriminate Hl'.
  - intros [= <-]. unfold JsSet.empty. rewrite elem_of_nil. split; [intros []|].
    intros (ev' & perms' & Hev' & Hl' & Hp). apply Hnone in Hev' as ->.
    destruct (tables_plain "") as (_ & E & _); [left|]. rewrite E in Hl'.
    discriminate Hl'.
Qed.

Lemma trigger_permissions_returns (w : AutomaterWorkflow) :
  (∃ s, trigger_permissions w = Js.Normal s)
  ↔ ∀ ev, workflow_trigger w ≫= trigger_event = Some ev → ¬ inherited_name ev.
Proof.
  unfold trigger_permissions, hasTriggerPermissionMapping.
  destruct (trigger_event_cases w) as [(ev & Hev & Hne & -> & ->)|[-> Hnone]];
    cbn [andb].
  - rewrite Hev.
    destruct (get_cases TRIGGER_PERMISSION_MAPPINGS ev)
      as [(perms & Hl & -> & ->)|[(Hl & Hi & -> & ->)|(Hl & Hi & -> & ->)]].
    + split; [|by eexists]. intros _ ? [= <-] Hi.
      destruct (tables_plain ev) as (_ & E & _); [by right|]. rewrite E in Hl.
      discriminate Hl.
    + split; [by intros [? ?]|]. intros H. by destruct (H ev).
    + split; [|by eexists]. by intros _ ? [= <-].
  - split; [|by eexists]. intros _ ev ->%Hnone. apply empty_not_inherited.
Qed.

(** [detectRequiredPermissions] returns exactly when the workflow has a
    node list and none of its lookups lands on an inherited member:
    otherwise it throws. *)
Theorem detectRequiredPermissions_returns_iff (w : AutomaterWorkflow) :
  (∃ l, detectRequiredPermissions w = Js.Normal l)
  ↔ ∃ nodes, workflow_nodes w = Some nodes ∧ plainly_named w nodes.
Proof.
  unfold detectRequiredPermissions, plainly_named.
  setoid_rewrite <- (trigger_permissions_returns w).
  destruct (trigger_permissions w) as [s|e]; simpl.
  - destruct (workflow_nodes w) as [nodes|].
    + split.
      * intros [l Hl]. exists nodes. split; [done|]. split; [by eexists|].
        apply (required_of_nodes_returns nodes s).
        destruct (required_of_nodes nodes s); [by eexists|done].
      * intros (? & [= <-] & _ & [s' Hs']%(required_of_nodes_returns nodes s)).
        rewrite Hs'. by eexists.
    + split; [by intros [? ?]|]. by intros (? & ? & _).
  - split; [by intros [? ?]|]. by intros (? & _ & [? ?] & _).
Qed.

(** The list [detectRequiredPermissions] returns holds exactly the
    permissions that the tables list for the trigger event or for the
    action of some action node. *)
Theorem detectRequiredPermissions_exact (w : AutomaterWorkflow)
    (nodes : list WorkflowNode) (l : list string) (p : string) :
  workflow_nodes w = Some nodes → detectRequiredPermissions w = Js.Normal l →
  p ∈ l ↔ trigger_grants w p ∨ ∃ n, n ∈ nodes ∧ node_grants n p.
Proof.
  unfold detectRequiredPermissions. intros -> H.
  destruct (trigger_permissions w) as [s|] eqn:Ht; [|done]. simpl in H.
  destruct (required_of_nodes nodes s) as [s'|] eqn:Hn; [|done]. simpl in H.
  injection H as <-. unfold JsSet.to_array.
  rewrite sort_elem, (required_of_nodes_elem _ _ _ _ Hn).
  by rewrite (trigger_permissions_elem _ _ _ Ht).
Qed.

Lemma detectRequiredPermissions_exact_witness :
  "VIEW_CHANNEL" ∈ ["SEND_MESSAGES"; "VIEW_CHANNEL"]
  ↔ trigger_grants scenario_A "VIEW_CHANNEL"
    ∨ ∃ n, n ∈ [node "node-1" type_action (Some "send_message") None]
           ∧ node_grants n "VIEW_CHANNEL".
Proof.
  apply (detectRequiredPermissions_exact scenario_A); vm_compute; reflexivity.
Defined.

Lemma descriptions_nonempty :
  map_Forall (λ _ text, text ≠ "") PERMISSION_DESCRIPTIONS.
Proof. apply (bool_decide_unpack _). vm_compute. exact I. Qed.

Lemma getPermissionDescription_own (p text : string) :
  PERMISSION_DESCRIPTIONS !! p = Some text → getPermissionDescription p = Description text.
Proof.
  intros Hl. unfold getPermissionDescription, Js.get. rewrite Hl.
  rewrite bool_decide_eq_false_2; [done|]. exact (descriptions_nonempty _ _ Hl).
Qed.

Lemma granted_classified (w : AutomaterWorkflow) (nodes : list WorkflowNode) (p : string) :
  trigger_grants w p ∨ (∃ n, n ∈ nodes ∧ node_grants n p) →
  is_Some (PERMISSION_SEVERITY !! p) ∧ is_Some (PERMISSION_DESCRIPTIONS !! p).
Proof.
  intros [(ev & perms & _ & Hl & Hp)|(n & _ & a & perms & _ & _ & Hl & Hp)].
  - destruct (TRIGGER_table_classified _ _ Hl) as [_ H].
    rewrite Forall_forall in H. exact (H p Hp).
  - destruct (ACTION_table_classified _ _ Hl) as [_ H].
    rewrite Forall_forall in H. exact (H p Hp).
Qed.

Lemma detected_classified (w : AutomaterWorkflow) (l : list string) (p : string) :
  detectRequiredPermissions w = Js.Normal l → p ∈ l →
  is_Some (PERMISSION_SEVERITY !! p) ∧ is_Some (PERMISSION_DESCRIPTIONS !! p).
Proof.
  intros Hl Hp. destruct (workflow_nodes w) as [nodes|] eqn:Hn.
  - apply (granted_classified w nodes).
    unfold detectRequiredPermissions in Hl. rewrite Hn in Hl.
    destruct (trigger_permissions w) as [s|] eqn:Ht; [|done]. simpl in Hl.
    destruct (required_of_nodes nodes s) as [s'|] eqn:Hr; [|done]. simpl in Hl.
    injection Hl as <-. unfold JsSet.to_array in Hp. rewrite sort_elem in Hp.
    rewrite (required_of_nodes_elem _ _ _ _ Hr), (trigger_permissions_elem _ _ _ Ht) in Hp.
    exact Hp.
  - unfold detectRequiredPermissions in Hl. rewrite Hn in Hl.
    by destruct (trigger_permissions w).
Qed.

(** Every permission [detectRequiredPermissions] can return, on any
    workflow, is a key of [PERMISSION_SEVERITY] and of
    [PERMISSION_DESCRIPTIONS]: [getPermissionSeverity] gives its table
    severity and [getPermissionDescription] its table text, never a
    default and never an inherited member. *)
Theorem inferred_permissions_classified (w : AutomaterWorkflow) (l : list string)
    (p : string) :
  detectRequiredPermissions w = Js.Normal l → p ∈ l →
  ∃ s text,
    PERMISSION_SEVERITY !! p = Some s ∧ getPermissionSeverity p = Severity s
    ∧ PERMISSION_DESCRIPTIONS !! p = Some text
    ∧ getPermissionDescription p = Description text.
Proof.
  intros Hl Hp. destruct (detected_classified w l p Hl Hp) as [[s Hs] [text Ht]].
  exists s, text. split_and!; [exact Hs| |exact Ht|].
  - by apply getPermissionSeverity_own.
  - by apply getPermissionDescription_own.
Qed.

Lemma inferred_permissions_classified_witness :
  ∃ s text,
    PERMISSION_SEVERITY !! "VIEW_CHANNEL" = Some s
    ∧ getPermissionSeverity "VIEW_CHANNEL" = Severity s
    ∧ PERMISSION_DESCRIPTIONS !! "VIEW_CHANNEL" = Some text
    ∧ getPermissionDescription "VIEW_CHANNEL" = Description text.
Proof.
  apply (inferred_permissions_classified scenario_A ["SEND_MESSAGES"; "VIEW_CHANNEL"]).
  - vm_compute. reflexivity.
  - apply (bool_decide_unpack _). vm_compute. exact I.
Defined.

(** ** [detectAndValidatePermissions] *)

Lemma detect_nodes_detected (cfg : LintConfig) (nodes : list WorkflowNode)
    (s : JsSet.t) (st : Emitted) :
  detected (detect_nodes cfg nodes s st) = required_of_nodes nodes s.
Proof.
  revert s st. induction nodes as [|n nodes IH]; intros s st; simpl; [done|].
  destruct (is_action_node n); simpl; [|apply IH].
  unfold hasActionPermissionMapping.
  destruct (get_cases ACTION_PERMISSION_MAPPINGS (action_of n))
    as [(perms & Hl & -> & ->)|[(Hl & _ & -> & ->)|(Hl & _ & -> & ->)]]; simpl;
    [apply IH|done|apply IH].
Qed.

Lemma annotated_own (n : WorkflowNode) (perms : list string) :
  is_action_node n = true → ACTION_PERMISSION_MAPPINGS !! action_of n = Some perms →
  annotated n = set_node_permissions n perms.
Proof. unfold annotated. by intros -> ->. Qed.

Lemma annotated_unknown (n : WorkflowNode) :
  is_action_node n = true → ACTION_PERMISSION_MAPPINGS !! action_of n = None →
  annotated n = set_node_permissions n [].
Proof. unfold annotated. by intros -> ->. Qed.

Lemma detect_nodes_nodes (cfg : LintConfig) (nodes : list WorkflowNode)
    (s s' : JsSet.t) (st : Emitted) :
  required_of_nodes nodes s = Js.Normal s' →
  detected_nodes (detect_nodes cfg nodes s st) = map annotated nodes.
Proof.
  revert s st. induction nodes as [|n nodes IH]; intros s st; simpl; [done|].
  destruct (is_action_node n) eqn:Hact; simpl.
  - unfold hasActionPermissionMapping.
    destruct (get_cases ACTION_PERMISSION_MAPPINGS (action_of n))
      as [(perms & Hl & -> & ->)|[(Hl & _ & -> & ->)|(Hl & _ & -> & ->)]]; simpl;
      intros Hrun; [|done|].
    + rewrite (IH _ _ Hrun). f_equal. symmetry. by apply annotated_own.
    + rewrite (IH _ _ Hrun). f_equal. symmetry. by apply annotated_unknown.
  - intros Hrun. rewrite (IH _ _ Hrun). unfold annotated. by rewrite Hact.
Qed.

(** [detectAndValidatePermissions] completes exactly when
    [detectRequiredPermissions] does, and then it has written that
    method's result to [workflow.permissions] and annotated every node,
    leaving all other fields of the workflow and of its nodes as they
    were; when [detectRequiredPermissions] throws, it throws the same
    error. *)
Theorem detectAndValidatePermissions_writes (cfg : LintConfig) (w : AutomaterWorkflow)
    (next : nat) :
  match detectRequiredPermissions w with
  | Js.Normal l =>
      ∃ nodes issues next',
        workflow_nodes w = Some nodes
        ∧ detectAndValidatePermissions cfg w next
          = (Js.Normal issues,
             set_workflow_permissions (set_workflow_nodes w (map annotated nodes)) l,
             next')
  | Js.Throw e => (detectAndValidatePermissions cfg w next).1.1 = Js.Throw e
  end.
Proof.
  unfold detectRequiredPermissions, detectAndValidatePermissions.
  destruct (trigger_permissions w) as [s|e]; simpl; [|done].
  destruct (workflow_nodes w) as [nodes|]; [|done].
  pose proof (detect_nodes_detected cfg nodes s ([], next)) as Hd.
  pose proof (detect_nodes_nodes cfg nodes s) as Hn.
  destruct (required_of_nodes nodes s) as [s'|e]; simpl; rewrite Hd; [|done].
  exists nodes. eexists _, _. split; [done|]. by rewrite (Hn s').
Qed.

Lemma annotated_action (n : WorkflowNode) :
  is_action_node (annotated n) = is_action_node n
  ∧ action_of (annotated n) = action_of n
  ∧ node_id (annotated n) = node_id n.
Proof. unfold annotated. by destruct (is_action_node n) eqn:E. Qed.

Lemma annotated_idem (n : WorkflowNode) : annotated (annotated n) = annotated n.
Proof.
  destruct (annotated_action n) as (Hact & Ha & _).
  unfold annotated at 1. rewrite Hact, Ha. unfold annotated.
  by destruct (is_action_node n).
Qed.

Lemma required_of_nodes_annotated (nodes : list WorkflowNode) (s : JsSet.t) :
  required_of_nodes (map annotated nodes) s = required_of_nodes nodes s.
Proof.
  revert s. induction nodes as [|n nodes IH]; intros s; simpl; [done|].
  destruct (annotated_action n) as (-> & -> & _).
  destruct (_ && _); [|apply IH].
  destruct (Js.get _ _); [apply IH|done..].
Qed.

Lemma detectAndValidatePermissions_run (cfg : LintConfig) (w : AutomaterWorkflow)
    (next : nat) (issues : list LintIssue) (w' : AutomaterWorkflow) (next' : nat) :
  detectAndValidatePermissions cfg w next = (Js.Normal issues, w', next') →
  ∃ s nodes s',
    trigger_permissions w = Js.Normal s ∧ workflow_nodes w = Some nodes
    ∧ required_of_nodes nodes s = Js.Normal s'
    ∧ issues = (detected_issues (detect_nodes cfg nodes s ([], next))).1
    ∧ next' = (detected_issues (detect_nodes cfg nodes s ([], next))).2
    ∧ w' = set_workflow_permissions (set_workflow_nodes w (map annotated nodes))
             (Js.sort (JsSet.to_array s')).
Proof.
  unfold detectAndValidatePermissions.
  destruct (trigger_permissions w) as [s|e] eqn:Ht; [|done].
  destruct (workflow_nodes w) as [nodes|] eqn:Hw; [|done].
  rewrite detect_nodes_detected.
  destruct (required_of_nodes nodes s) as [s'|e] eqn:Hr; [|done].
  cbv zeta. intros [= <- <- <-]. exists s, nodes, s'.
  by rewrite (detect_nodes_nodes cfg nodes s s' ([], next) Hr).
Qed.

(** [detectAndValidatePermissions] is idempotent on the workflow: once
    it has completed, a second run (under any configuration) completes
    and leaves the workflow object as the first run left it, and
    [detectRequiredPermissions] answers on the annotated workflow as it
    did on the original one. *)
Theorem detectAndValidatePermissions_idempotent (cfg cfg2 : LintConfig)
    (w w' : AutomaterWorkflow) (next next' next2 : nat) (issues : list LintIssue) :
  detectAndValidatePermissions cfg w next = (Js.Normal issues, w', next') →
  detectRequiredPermissions w' = detectRequiredPermissions w
  ∧ ∃ issues2 next2',
      detectAndValidatePermissions cfg2 w' next2 = (Js.Normal issues2, w', next2').
Proof.
  intros (s & nodes & s' & Ht & Hn & Hr & _ & _ & ->)%detectAndValidatePermissions_run.
  split.
  - unfold detectRequiredPermissions.
    change (trigger_permissions (set_workflow_permissions _ _))
      with (trigger_permissions w).
    cbn [workflow_nodes set_workflow_permissions set_workflow_nodes].
    rewrite Ht, Hn. cbn [Js.bind]. by rewrite required_of_nodes_annotated.
  - unfold detectAndValidatePermissions.
    change (trigger_permissions (set_workflow_permissions _ _))
      with (trigger_permissions w).
    rewrite Ht. cbn [workflow_nodes set_workflow_permissions set_workflow_nodes].
    rewrite detect_nodes_detected, required_of_nodes_annotated, Hr.
    rewrite (detect_nodes_nodes _ _ _ s') by (by rewrite required_of_nodes_annotated).
    eexists _, _. f_equal. f_equal.
    rewrite map_map. unfold set_workflow_permissions, set_workflow_nodes. simpl.
    do 2 f_equal. apply map_ext. intros n. apply annotated_idem.
Qed.

Lemma detectAndValidatePermissions_idempotent_witness :
  let w' := (detectAndValidatePermissions (config default_validator) scenario_A 1).1.2 in
  detectRequiredPermissions w' = detectRequiredPermissions scenario_A
  ∧ ∃ issues2 next2',
      detectAndValidatePermissions (config silent_validator) w' 7
      = (Js.Normal issues2, w', next2').
Proof.
  apply (detectAndValidatePermissions_idempotent (config default_validator)
           (config silent_validator) scenario_A _ 1 1 7 []).
  vm_compute. reflexivity.
Defined.

Lemma push_issue_view (st : Emitted) (rule : string) (code : ErrorCode)
    (o : IssueOptions) :
  push_issue st rule code o
  = (st.1 ++ [(createIssue rule code o st.2).1], S st.2).
Proof. done. Qed.

Lemma detect_nodes_issues (cfg : LintConfig) (nodes : list WorkflowNode)
    (s : JsSet.t) (st : Emitted) :
  is_Some (match required_of_nodes nodes s with Js.Normal x => Some x | _ => None end) →
  let reported :=
    if isRuleEnabled cfg "security/missing-permissions"
    then List.filter unknown_action nodes else [] in
  map issue_view (detected_issues (detect_nodes cfg nodes s st)).1
  = map issue_view st.1 ++ map missing_permissions_view reported
  ∧ (detected_issues (detect_nodes cfg nodes s st)).2 = (st.2 + length reported)%nat.
Proof.
  revert s st. induction nodes as [|n nodes IH]; intros s st; simpl.
  { intros _. destruct (isRuleEnabled _ _); simpl; by rewrite app_nil_r, Nat.add_0_r. }
  destruct (is_action_node n) eqn:Hact; simpl.
  2: { assert (unknown_action n = false) as ->; [|apply IH].
       unfold unknown_action. by rewrite Hact. }
  destruct (get_cases ACTION_PERMISSION_MAPPINGS (action_of n))
    as [(perms & Hl & Hg & Hh)|[(Hl & _ & Hg & Hh)|(Hl & _ & Hg & Hh)]];
    unfold hasActionPermissionMapping; rewrite Hg, Hh; simpl.
  - assert (unknown_action n = false) as ->; [|apply IH].
    unfold unknown_action, hasActionPermissionMapping. by rewrite Hact, Hh.
  - by intros [? [=]].
  - assert (unknown_action n = true) as ->.
    { unfold unknown_action, hasActionPermissionMapping. by rewrite Hact, Hh. }
    intros Hrun. destruct (IH s
      (if isRuleEnabled cfg "security/missing-permissions"
       then push_issue st "security/missing-permissions" E3311
              {| opt_message := Some ("Unknown action '" +:+ action_of n
                                      +:+ "' - cannot detect required permissions");
                 opt_location := Some (at_node (node_id n));
                 opt_suggestions := Some
                   [ "Check if action is implemented in permission-mappings.ts";
                     "Add permission mapping for this action type" ] |}
       else st) Hrun) as [IH1 IH2].
    simpl in IH1, IH2. rewrite IH1, IH2.
    destruct (isRuleEnabled cfg "security/missing-permissions"); [|done].
    rewrite push_issue_view. simpl. rewrite map_app, <- app_assoc. simpl.
    split; [done|lia].
Qed.

(** The issues of [detectAndValidatePermissions]: while
    [security/missing-permissions] is enabled, one issue (code AUT-3311,
    located at the node) per action node whose action has no permission
    mapping, in node order, and nothing else; none while the rule is
    off. The id counter advances by the number of issues. *)
Theorem detectAndValidatePermissions_issues (cfg : LintConfig) (w w' : AutomaterWorkflow)
    (nodes : list WorkflowNode) (next next' : nat) (issues : list LintIssue) :
  workflow_nodes w = Some nodes →
  detectAndValidatePermissions cfg w next = (Js.Normal issues, w', next') →
  map issue_view issues
  = (if isRuleEnabled cfg "security/missing-permissions"
     then map missing_permissions_view (List.filter unknown_action nodes) else [])
  ∧ next' = (next + length issues)%nat.
Proof.
  intros Hn (s & nodes' & s' & Ht & Hn' & Hr & -> & -> & _)%detectAndValidatePermissions_run.
  rewrite Hn in Hn'. injection Hn' as <-.
  destruct (detect_nodes_issues cfg nodes s ([], next)) as [H1 H2].
  { rewrite Hr. by eexists. }
  simpl in H1, H2. split.
  - rewrite H1. by destruct (isRuleEnabled _ _).
  - rewrite H2. f_equal. apply (f_equal length) in H1.
    rewrite !length_map in H1. by rewrite H1.
Qed.

Lemma detectAndValidatePermissions_issues_witness :
  let run := detectAndValidatePermissions (config default_validator) with_unknown_action 1 in
  let issues := match run.1.1 with Js.Normal l => l | Js.Throw _ => [] end in
  map issue_view issues
  = (if isRuleEnabled (config default_validator) "security/missing-permissions"
     then map missing_permissions_view
            (List.filter unknown_action
               [ node "node-1" type_action (Some "send_message") None;
                 node "node-2" type_action (Some "launch_rocket") None ])
     else [])
  ∧ run.2 = (1 + length issues)%nat.
Proof.
  apply (detectAndValidatePermissions_issues (config default_validator)
           with_unknown_action
           (detectAndValidatePermissions (config default_validator)
              with_unknown_action 1).1.2);
    vm_compute; reflexivity.
Defined.

(** ** [getPermissionBreakdown] *)

Lemma breakdown_fold_unknown (nodes : list WorkflowNode)
    (st : gmap string (Js.prop (list string)) * list string) :
  (fold_left breakdown_node nodes st).2
  = st.2 ++ map action_of (List.filter unknown_action nodes).
Proof.
  revert st. induction nodes as [|n nodes IH]; intros st; simpl.
  { by rewrite app_nil_r. }
  rewrite IH. unfold breakdown_node, unknown_action.
  destruct (is_action_node n); simpl; [|done].
  destruct (hasActionPermissionMapping (action_of n)); simpl; [done|].
  by rewrite <- app_assoc.
Qed.

(** Under one id the last action node that carries it wins. *)
Lemma breakdown_fold_lookup (nodes : list WorkflowNode)
    (st : gmap string (Js.prop (list string)) * list string) (id : string) :
  (fold_left breakdown_node nodes st).1 !! id
  = match last (action_nodes_with_id id nodes) with
    | Some n => Some (breakdown_entry n)
    | None => st.1 !! id
    end.
Proof.
  revert st. induction nodes as [|n nodes IH]; intros st; simpl; [done|].
  rewrite IH. unfold action_nodes_with_id in *.
  unfold breakdown_node. destruct (is_action_node n) eqn:Hact; simpl; [|done].
  case_bool_decide as Hid; simpl.
  - rewrite last_cons. destruct (last _); [done|].
    unfold breakdown_entry. subst id.
    destruct (hasActionPermissionMapping (action_of n)); simpl;
      by rewrite lookup_insert_eq.
  - destruct (last _); [done|].
    destruct (hasActionPermissionMapping (action_of n)); simpl;
      by rewrite lookup_insert_ne.
Qed.

Lemma trigger_lookup_cases (w : AutomaterWorkflow) :
  (∃ ev perms, workflow_trigger w ≫= trigger_event = Some ev
     ∧ TRIGGER_PERMISSION_MAPPINGS !! ev = Some perms
     ∧ trigger_permissions w = Js.Normal (JsSet.add_all JsSet.empty perms)
     ∧ breakdown_trigger w = Js.Normal perms)
  ∨ ((∃ e, trigger_permissions w = Js.Throw e) ∧ ∃ e, breakdown_trigger w = Js.Throw e)
  ∨ (trigger_permissions w = Js.Normal [] ∧ breakdown_trigger w = Js.Normal []
     ∧ ∀ p, ¬ trigger_grants w p).
Proof.
  unfold trigger_permissions, breakdown_trigger, trigger_grants,
    hasTriggerPermissionMapping.
  destruct (trigger_event_cases w) as [(ev & Hev & Hne & -> & ->)|[-> Hnone]];
    cbn [andb].
  - destruct (get_cases TRIGGER_PERMISSION_MAPPINGS ev)
      as [(perms & Hl & -> & ->)|[(Hl & _ & -> & ->)|(Hl & _ & -> & ->)]].
    + left. exists ev, perms. split_and!; done.
    + right; left. split; by eexists.
    + right; right. split_and!; [done..|].
      intros p (ev' & perms' & Hev' & Hl' & Hp). rewrite Hev in Hev'.
      injection Hev' as <-. rewrite Hl in Hl'. discriminate Hl'.
  - right; right. split_and!; [done..|].
    intros p (ev' & perms' & Hev' & Hl' & Hp). apply Hnone in Hev' as ->.
    destruct (tables_plain "") as (_ & E & _); [left|]. rewrite E in Hl'.
    discriminate Hl'.
Qed.

Lemma breakdown_trigger_elem (w : AutomaterWorkflow) (l : list string) (p : string) :
  breakdown_trigger w = Js.Normal l → p ∈ l ↔ trigger_grants w p.
Proof.
  destruct (trigger_lookup_cases w)
    as [(ev & perms & Hev & Hl & _ & ->)|[[_ [e ->]]|(_ & -> & Hno)]]; intros [= <-].
  - unfold trigger_grants. split.
    + intros Hp. exists ev, perms. split_and!; assumption.
    + intros (ev' & perms' & Hev' & Hl' & Hp). rewrite Hev in Hev'.
      injection Hev' as <-. rewrite Hl in Hl'. injection Hl' as <-. exact Hp.
  - rewrite elem_of_nil. split; [intros []|apply Hno].
Qed.

Lemma breakdown_entry_own (n : WorkflowNode) (perms : list string) (p : string) :
  is_action_node n = true → breakdown_entry n = Js.Own perms → p ∈ perms →
  node_grants n p.
Proof.
  unfold breakdown_entry, hasActionPermissionMapping. intros Hact.
  destruct (get_cases ACTION_PERMISSION_MAPPINGS (action_of n))
    as [(perms' & Hl & -> & ->)|[(Hl & _ & -> & ->)|(Hl & _ & -> & ->)]].
  - intros [= <-] Hp. apply (node_grants_own n perms'); assumption.
  - intros [=].
  - intros [= <-] Hp. by apply elem_of_nil in Hp.
Qed.

Lemma node_grants_entry (n : WorkflowNode) (p : string) :
  node_grants n p →
  is_action_node n = true ∧ ∃ perms, breakdown_entry n = Js.Own perms ∧ p ∈ perms.
Proof.
  rewrite node_grants_action. intros [Hact (perms & Hl & Hp)]. split; [done|].
  exists perms. split; [|done]. unfold breakdown_entry, hasActionPermissionMapping.
  destruct (get_cases ACTION_PERMISSION_MAPPINGS (action_of n))
    as [(perms' & Hl' & -> & ->)|[(Hl' & _)|(Hl' & _)]];
    rewrite Hl in Hl'; [|discriminate Hl'..].
  by injection Hl' as <-.
Qed.

Lemma last_elem {A} (l : list A) (x : A) : last l = Some x → x ∈ l.
Proof.
  induction l as [|y l IH]; [done|]. rewrite last_cons.
  destruct (last l) as [z|].
  - intros [= ->]. right. by apply IH.
  - intros [= ->]. left.
Qed.

Lemma last_nonempty {A} (l : list A) (x : A) : x ∈ l → is_Some (last l).
Proof.
  destruct l as [|y l]; [by intros ?%elem_of_nil|]. intros _.
  rewrite last_cons. by destruct (last l); eexists.
Qed.

Lemma action_nodes_with_id_elem (id : string) (nodes : list WorkflowNode)
    (n : WorkflowNode) :
  n ∈ action_nodes_with_id id nodes
  ↔ n ∈ nodes ∧ is_action_node n = true ∧ node_id n = id.
Proof.
  unfold action_nodes_with_id.
  rewrite list_elem_of_In, filter_In, <- list_elem_of_In, andb_true_iff,
    bool_decide_eq_true.
  done.
Qed.

Lemma getPermissionBreakdown_run (w : AutomaterWorkflow) (b : PermissionBreakdown) :
  getPermissionBreakdown w = Js.Normal b →
  ∃ nodes,
    workflow_nodes w = Some nodes
    ∧ detectRequiredPermissions w = Js.Normal (totalPermissions b)
    ∧ breakdown_trigger w = Js.Normal (triggerPermissions b)
    ∧ nodePermissions b = (fold_left breakdown_node nodes (∅, [])).1
    ∧ unknownActions b = (fold_left breakdown_node nodes (∅, [])).2.
Proof.
  unfold getPermissionBreakdown.
  destruct (breakdown_trigger w) as [t|]; [|done]. simpl.
  destruct (workflow_nodes w) as [nodes|]; [|done].
  destruct (detectRequiredPermissions w) as [l|]; [|done]. simpl.
  intros [= <-]. by exists nodes.
Qed.

Lemma breakdown_entries (nodes : list WorkflowNode) (id : string)
    (entry : Js.prop (list string)) :
  (fold_left breakdown_node nodes (∅, [])).1 !! id = Some entry →
  ∃ n, n ∈ nodes ∧ is_action_node n = true ∧ node_id n = id
       ∧ entry = breakdown_entry n.
Proof.
  rewrite breakdown_fold_lookup. simpl.
  destruct (last (action_nodes_with_id id nodes)) as [n|] eqn:Hlast.
  - intros [= <-]. apply last_elem, action_nodes_with_id_elem in Hlast.
    exists n. tauto.
  - by rewrite lookup_empty.
Qed.

Lemma detectRequiredPermissions_run (w : AutomaterWorkflow) (l : list string) :
  detectRequiredPermissions w = Js.Normal l →
  ∃ nodes s s',
    workflow_nodes w = Some nodes ∧ trigger_permissions w = Js.Normal s
    ∧ required_of_nodes nodes s = Js.Normal s' ∧ l = Js.sort s'.
Proof.
  unfold detectRequiredPermissions.
  destruct (trigger_permissions w) as [s|]; [|done]. simpl.
  destruct (workflow_nodes w) as [nodes|]; [|done].
  destruct (required_of_nodes nodes s) as [s'|] eqn:Hr; [|done]. simpl.
  intros [= <-]. by exists nodes, s, s'.
Qed.

Lemma detected_elem (w : AutomaterWorkflow) (nodes : list WorkflowNode)
    (l : list string) (p : string) :
  workflow_nodes w = Some nodes → detectRequiredPermissions w = Js.Normal l →
  p ∈ l ↔ trigger_grants w p ∨ ∃ n, n ∈ nodes ∧ node_grants n p.
Proof.
  intros Hn (nodes' & s & s' & Hn' & Ht & Hr & ->)%detectRequiredPermissions_run.
  rewrite Hn in Hn'. injection Hn' as <-.
  rewrite sort_elem, (required_of_nodes_elem _ _ _ _ Hr).
  by rewrite (trigger_permissions_elem _ _ _ Ht).
Qed.

(** Whatever [getPermissionBreakdown] lists under the trigger or under a
    node id is part of its [totalPermissions]; every entry of
    [nodePermissions] is an array, and belongs to an action node with
    that id; [unknownActions] lists, in node order, the actions of the
    action nodes without a permission mapping. *)
Theorem getPermissionBreakdown_sound (w : AutomaterWorkflow) (nodes : list WorkflowNode)
    (b : PermissionBreakdown) :
  workflow_nodes w = Some nodes → getPermissionBreakdown w = Js.Normal b →
  (∀ p, in_breakdown b p → p ∈ totalPermissions b)
  ∧ (∀ id entry, nodePermissions b !! id = Some entry →
       ∃ n perms, n ∈ nodes ∧ is_action_node n = true ∧ node_id n = id
                  ∧ entry = Js.Own perms)
  ∧ unknownActions b = map action_of (List.filter unknown_action nodes).
Proof.
  intros Hn (nodes' & Hn' & Htotal & Htrigger & Hmap & Hunknown)%getPermissionBreakdown_run.
  rewrite Hn in Hn'. injection Hn' as <-.
  assert (∀ n a, n ∈ nodes → node_type n = type_action → node_action n = Some a →
                 ¬ inherited_name a) as Hplain.
  { apply detectRequiredPermissions_run in Htotal
      as (nodes' & s & s' & Hn' & _ & Hr & _).
    rewrite Hn in Hn'. injection Hn' as <-.
    apply (required_of_nodes_returns nodes s). by eexists. }
  split_and!.
  - intros p Hp. rewrite (detected_elem w nodes _ p Hn Htotal).
    destruct Hp as [Hp|(id & perms & Hl & Hp)].
    + left. by apply (breakdown_trigger_elem w (triggerPermissions b)).
    + right. rewrite Hmap in Hl.
      apply breakdown_entries in Hl as (n & Hin & Hact & _ & Hl). exists n.
      split; [done|]. by apply (breakdown_entry_own n perms).
  - intros id entry Hl. rewrite Hmap in Hl.
    apply breakdown_entries in Hl as (n & Hin & Hact & Hid & ->).
    unfold breakdown_entry, hasActionPermissionMapping.
    apply is_action_node_spec in Hact as Hact'. destruct Hact' as (Hty & a & Ha & _).
    destruct (get_cases ACTION_PERMISSION_MAPPINGS (action_of n))
      as [(perms & _ & -> & ->)|[(_ & Hi & _)|(_ & _ & -> & ->)]].
    + by exists n, perms.
    + destruct (Hplain n a Hin Hty Ha). unfold action_of in Hi. by rewrite Ha in Hi.
    + by exists n, [].
  - by rewrite Hunknown, breakdown_fold_unknown.
Qed.

Lemma NoDup_map_inj {A B} (f : A → B) (l : list A) (x y : A) :
  NoDup (map f l) → x ∈ l → y ∈ l → f x = f y → x = y.
Proof.
  induction l as [|z l IH]; simpl; [by intros _ ?%elem_of_nil|].
  intros [Hz Hl]%NoDup_cons [->|Hx]%elem_of_cons [->|Hy]%elem_of_cons Hf.
  - done.
  - destruct Hz. rewrite Hf. apply list_elem_of_fmap. by exists y.
  - destruct Hz. rewrite <- Hf. apply list_elem_of_fmap. by exists x.
  - by apply IH.
Qed.

(** When the action nodes carry pairwise distinct ids, the breakdown is
    complete: every permission of [totalPermissions] is listed under the
    trigger or under some node id. *)
Theorem getPermissionBreakdown_complete (w : AutomaterWorkflow)
    (nodes : list WorkflowNode) (b : PermissionBreakdown) (p : string) :
  workflow_nodes w = Some nodes → getPermissionBreakdown w = Js.Normal b →
  NoDup (map node_id (List.filter is_action_node nodes)) →
  p ∈ totalPermissions b → in_breakdown b p.
Proof.
  intros Hn (nodes' & Hn' & Htotal & Htrigger & Hmap & _)%getPermissionBreakdown_run Hnd.
  rewrite Hn in Hn'. injection Hn' as <-.
  rewrite (detected_elem w nodes _ p Hn Htotal). unfold in_breakdown.
  intros [Hp|(n & Hin & Hp)].
  - left. by apply (breakdown_trigger_elem w).
  - right. apply node_grants_entry in Hp as (Hact & perms & Hentry & Hp).
    exists (node_id n), perms. split; [|done].
    rewrite Hmap, breakdown_fold_lookup.
    destruct (last_nonempty (action_nodes_with_id (node_id n) nodes) n) as [n' Hlast].
    { by apply action_nodes_with_id_elem. }
    rewrite Hlast.
    apply last_elem, action_nodes_with_id_elem in Hlast as (Hin' & Hact' & Hid).
    assert (n' = n) as ->; [|by rewrite Hentry].
    apply (NoDup_map_inj node_id (List.filter is_action_node nodes)); [done| | |done];
      apply list_elem_of_In, filter_In; by rewrite <- list_elem_of_In.
Qed.

(** The precondition is needed: of two action nodes with one id only the
    second is listed, and the permission of the first is missing from
    the breakdown. *)
Example getPermissionBreakdown_shared_id :
  ∃ b, getPermissionBreakdown shared_id_workflow = Js.Normal b
       ∧ "BAN_MEMBERS" ∈ totalPermissions b
       ∧ triggerPermissions b = ["VIEW_CHANNEL"]
       ∧ map_to_list (nodePermissions b) = [("node-1", Js.Own ["KICK_MEMBERS"])].
Proof.
  eexists. split; [vm_compute; reflexivity|]. split_and!.
  - apply (bool_decide_unpack _). vm_compute. exact I.
  - reflexivity.
  - vm_compute. reflexivity.
Qed.

(** [getPermissionBreakdown] returns exactly when
    [detectRequiredPermissions] does, with that method's result as
    [totalPermissions]; it throws whenever that method throws. *)
Theorem getPermissionBreakdown_total (w : AutomaterWorkflow) :
  match detectRequiredPermissions w with
  | Js.Normal l => ∃ b, getPermissionBreakdown w = Js.Normal b ∧ totalPermissions b = l
  | Js.Throw _ => ∃ e, getPermissionBreakdown w = Js.Throw e
  end.
Proof.
  unfold getPermissionBreakdown.
  destruct (detectRequiredPermissions w) as [l|e] eqn:Hd.
  - apply detectRequiredPermissions_run in Hd as (nodes & s & s' & -> & Ht & _).
    destruct (trigger_lookup_cases w)
      as [(ev & perms & _ & _ & _ & ->)|[[[e He] _]|(_ & -> & _)]]; simpl.
    + by eexists.
    + rewrite Ht in He. discriminate He.
    + by eexists.
  - destruct (breakdown_trigger w) as [t|e']; simpl; [|by eexists].
    destruct (workflow_nodes w); by eexists.
Qed.

Lemma getPermissionBreakdown_sound_witness :
  (∀ p, in_breakdown with_unknown_action_breakdown p →
        p ∈ totalPermissions with_unknown_action_breakdown)
  ∧ (∀ id entry, nodePermissions with_unknown_action_breakdown !! id = Some entry →
       ∃ n perms,
         n ∈ with_unknown_action_nodes
         ∧ is_action_node n = true ∧ node_id n = id ∧ entry = Js.Own perms)
  ∧ unknownActions with_unknown_action_breakdown
    = map action_of (List.filter unknown_action with_unknown_action_nodes).
Proof.
  apply (getPermissionBreakdown_sound with_unknown_action); vm_compute; reflexivity.
Defined.

Lemma getPermissionBreakdown_complete_witness :
  in_breakdown with_unknown_action_breakdown "SEND_MESSAGES".
Proof.
  apply (getPermissionBreakdown_complete with_unknown_action with_unknown_action_nodes).
  - reflexivity.
  - vm_compute. reflexivity.
  - apply (bool_decide_unpack _). vm_compute. exact I.
  - apply (bool_decide_unpack _). vm_compute. exact I.
Defined.

(** ** Packs: what [aggregatePackPermissions] collects *)

Lemma detect_each_elem (l : list AutomaterWorkflow) (ps : list (list string))
    (lw : list string) :
  detect_each l = Js.Normal ps →
  lw ∈ ps ↔ ∃ w, w ∈ l ∧ detectRequiredPermissions w = Js.Normal lw.
Proof.
  revert ps. induction l as [|w l IH]; intros ps; simpl.
  - intros [= <-]. split; [by intros ?%elem_of_nil|].
    by intros (? & ?%elem_of_nil & _).
  - destruct (detectRequiredPermissions w) as [p|] eqn:Hw; [|done]. simpl.
    destruct (detect_each l) as [ps'|]; [|done]. simpl. intros [= <-].
    rewrite elem_of_cons, (IH ps' eq_refl), exists_cons. split.
    + intros [->|H]; [by left|by right].
    + intros [H|H]; [left; congruence|by right].
Qed.

Lemma aggregatePackPermissions_run (pack : AutomaterPack) (l : list string) :
  aggregatePackPermissions pack = Js.Normal l →
  Sorted String.le l ∧ NoDup l
  ∧ ∀ p, p ∈ l ↔ ∃ w lw, w ∈ automations_of pack
                         ∧ detectRequiredPermissions w = Js.Normal lw ∧ p ∈ lw.
Proof.
  unfold aggregatePackPermissions. rewrite aggregate_automations_each.
  destruct (detect_each (automations_of pack)) as [ps|] eqn:Hps; [|done]. simpl.
  intros [= <-]. unfold JsSet.to_array. split_and!.
  - apply sort_Sorted.
  - apply sort_NoDup, add_all_lists_NoDup, NoDup_nil_2.
  - intros p. rewrite sort_elem, add_all_lists_elem. unfold JsSet.empty.
    rewrite elem_of_nil. split.
    + intros [[]|(lw & Hlw & Hp)].
      apply (detect_each_elem _ _ _ Hps) in Hlw as (w & Hw & Hd). by exists w, lw.
    + intros (w & lw & Hw & Hd & Hp). right. exists lw. split; [|done].
      apply (detect_each_elem _ _ _ Hps). by exists w.
Qed.

Lemma tables_inferable :
  map_Forall (λ _ perms, Forall (λ p, p ∈ inferable_permissions) perms)
    ACTION_PERMISSION_MAPPINGS
  ∧ map_Forall (λ _ perms, Forall (λ p, p ∈ inferable_permissions) perms)
      TRIGGER_PERMISSION_MAPPINGS.
Proof. split; apply (bool_decide_unpack _); vm_compute; exact I. Qed.

Lemma aggregated_classified (pack : AutomaterPack) (l : list string) (p : string) :
  aggregatePackPermissions pack = Js.Normal l → p ∈ l →
  is_Some (PERMISSION_SEVERITY !! p) ∧ p ∈ inferable_permissions.
Proof.
  intros (_ & _ & Hl)%aggregatePackPermissions_run Hp.
  apply Hl in Hp as (w & lw & _ & Hd & Hp). split.
  { by destruct (detected_classified w lw p Hd Hp). }
  pose proof Hd as (nodes & _ & _ & Hn & _)%detectRequiredPermissions_run.
  apply (detected_elem w nodes lw p Hn) in Hd. apply Hd in Hp.
  destruct tables_inferable as [HA HT].
  destruct Hp as [(ev & perms & _ & Hev & Hp)|(n & _ & a & perms & _ & _ & Ha & Hp)].
  - specialize (HT _ _ Hev). rewrite Forall_forall in HT. by apply HT.
  - specialize (HA _ _ Ha). rewrite Forall_forall in HA. by apply HA.
Qed.

(** ** Packs: the weight *)

Lemma permissions_weight_points (l : list string) : permissions_weight l = points l.
Proof.
  unfold permissions_weight.
  assert (∀ a, fold_left (λ weight perm, weight + severity_points perm) l a
               = a + points l) as H; [|by rewrite H].
  induction l as [|p l IH]; intros a; simpl; [lia|]. rewrite IH. lia.
Qed.

Lemma severity_points_range (p : string) : 0 ≤ severity_points p ≤ 10.
Proof.
  unfold severity_points. destruct (getPermissionSeverity p) as [[]|]; lia.
Qed.

Lemma severity_points_own (p : string) :
  is_Some (PERMISSION_SEVERITY !! p) →
  severity_points p
  = if bool_decide (getPermissionSeverity p = Severity dangerous) then 10
    else if bool_decide (getPermissionSeverity p = Severity moderate) then 3 else 1.
Proof.
  intros [s Hs]. unfold severity_points. rewrite (getPermissionSeverity_own p s Hs).
  by destruct s.
Qed.

Lemma points_bounds (l : list string) :
  (∀ p, p ∈ l → is_Some (PERMISSION_SEVERITY !! p)) →
  Z.of_nat (length l) + 9 * Z.of_nat (length (dangerous_only l)) ≤ points l
  ≤ 3 * Z.of_nat (length l) + 7 * Z.of_nat (length (dangerous_only l)).
Proof.
  unfold dangerous_only. induction l as [|p l IH]; intros Hl; simpl; [lia|].
  rewrite (severity_points_own p) by (apply Hl; left).
  assert (∀ q, q ∈ l → is_Some (PERMISSION_SEVERITY !! q)) as Hl'.
  { intros q Hq. apply Hl. by right. }
  specialize (IH Hl').
  destruct (bool_decide (getPermissionSeverity p = Severity dangerous)); simpl.
  - lia.
  - destruct (bool_decide (getPermissionSeverity p = Severity moderate)); lia.
Qed.

(** The weight of a pack lies between [n + 9 d] and [3 n + 7 d], for [n]
    aggregated permissions of which [d] are dangerous: every permission
    that can be aggregated has a severity in the table, so each one
    counts 1, 3 or 10. In particular the weight is 0 only for a pack
    that needs no permission. *)
Theorem calculatePackPermissionWeight_bounds (pack : AutomaterPack) (l : list string) :
  aggregatePackPermissions pack = Js.Normal l →
  ∃ weight dangerous,
    calculatePackPermissionWeight pack = Js.Normal weight
    ∧ getDangerousPermissions pack = Js.Normal dangerous
    ∧ Z.of_nat (length l) + 9 * Z.of_nat (length dangerous) ≤ weight
      ≤ 3 * Z.of_nat (length l) + 7 * Z.of_nat (length dangerous)
    ∧ (weight = 0 ↔ l = []).
Proof.
  intros Hl. unfold calculatePackPermissionWeight, getDangerousPermissions.
  rewrite Hl. simpl. eexists _, _. split; [done|]. split; [done|].
  rewrite permissions_weight_points.
  assert (∀ p, p ∈ l → is_Some (PERMISSION_SEVERITY !! p)) as Hc.
  { intros p Hp. by destruct (aggregated_classified pack l p Hl Hp). }
  pose proof (points_bounds l Hc) as Hb. split; [done|]. split.
  - intros H0. assert (length l = 0%nat) as Hlen by lia. by destruct l.
  - by intros ->.
Qed.

Lemma calculatePackPermissionWeight_bounds_witness :
  ∃ weight dangerous,
    calculatePackPermissionWeight scenario_E = Js.Normal weight
    ∧ getDangerousPermissions scenario_E = Js.Normal dangerous
    ∧ Z.of_nat (length ["BAN_MEMBERS"]) + 9 * Z.of_nat (length dangerous) ≤ weight
      ≤ 3 * Z.of_nat (length ["BAN_MEMBERS"]) + 7 * Z.of_nat (length dangerous)
    ∧ (weight = 0 ↔ ["BAN_MEMBERS"] = []).
Proof.
  apply (calculatePackPermissionWeight_bounds scenario_E). vm_compute. reflexivity.
Defined.

Lemma filter_elem (f : string → bool) (l : list string) (p : string) :
  p ∈ List.filter f l ↔ p ∈ l ∧ f p = true.
Proof. by rewrite list_elem_of_In, filter_In, <- list_elem_of_In. Qed.

Lemma points_submseteq (l k : list string) : l ⊆+ k → points l ≤ points k.
Proof.
  induction 1 as [|x l k _ IH|x y l|x l k _ IH|l k m _ IH1 _ IH2]; simpl.
  - lia.
  - lia.
  - lia.
  - pose proof (severity_points_range x). lia.
  - lia.
Qed.

Lemma inferable_points :
  points inferable_permissions = 64
  ∧ points (List.filter
              (λ p, negb (bool_decide (getPermissionSeverity p = Severity dangerous)))
              inferable_permissions) = 14.
Proof. split; vm_compute; reflexivity. Qed.

(** No pack weighs more than 64, and a pack without dangerous permissions
    weighs at most 14: the two mapping tables mention thirteen
    permissions, five of them dangerous. *)
Theorem calculatePackPermissionWeight_at_most_64 (pack : AutomaterPack) (weight : Z) :
  calculatePackPermissionWeight pack = Js.Normal weight →
  0 ≤ weight ≤ 64
  ∧ (getDangerousPermissions pack = Js.Normal [] → weight ≤ 14).
Proof.
  unfold calculatePackPermissionWeight, getDangerousPermissions.
  destruct (aggregatePackPermissions pack) as [l|] eqn:Hl; [|done]. simpl.
  intros [= <-]. rewrite permissions_weight_points.
  destruct (aggregatePackPermissions_run pack l Hl) as (_ & Hnd & _).
  destruct inferable_points as [H64 H14]. split_and!.
  - clear. induction l as [|p l IH]; simpl; [lia|].
    pose proof (severity_points_range p). lia.
  - rewrite <- H64. apply points_submseteq, NoDup_submseteq; [done|].
    intros p Hp. exact (proj2 (aggregated_classified pack l p Hl Hp)).
  - intros [= Hd]. rewrite <- H14. apply points_submseteq, NoDup_submseteq; [done|].
    intros p Hp. rewrite filter_elem.
    split; [exact (proj2 (aggregated_classified pack l p Hl Hp))|].
    apply negb_true_iff, not_true_is_false. intros Hdang.
    assert (p ∈ dangerous_only l) as Hin; [|rewrite Hd in Hin; by apply elem_of_nil in Hin].
    unfold dangerous_only. rewrite filter_elem. by split.
Qed.

Lemma calculatePackPermissionWeight_at_most_64_witness :
  0 ≤ 10 ≤ 64 ∧ (getDangerousPermissions scenario_E = Js.Normal [] → 10 ≤ 14).
Proof.
  apply (calculatePackPermissionWeight_at_most_64 scenario_E). vm_compute. reflexivity.
Defined.

(** ** Packs: [comparePackPermissions] *)

Lemma add_all_NoDup_app (l s : list string) :
  NoDup (s ++ l) → JsSet.add_all s l = s ++ l.
Proof.
  unfold JsSet.add_all. revert s. induction l as [|x l IH]; intros s; simpl.
  { by rewrite app_nil_r. }
  intros Hnd. unfold JsSet.add at 2, JsSet.has.
  rewrite bool_decide_eq_false_2.
  - rewrite IH; rewrite <- app_assoc; done.
  - apply NoDup_app in Hnd as (_ & Hdisj & _). intros Hx. apply (Hdisj x Hx). left.
Qed.

Lemma new_Set_NoDup (l : list string) : NoDup l → new_Set l = l.
Proof. intros Hnd. unfold new_Set, JsSet.empty. by rewrite add_all_NoDup_app. Qed.

Lemma sort_sorted (l : list string) : Sorted String.le l → Js.sort l = l.
Proof. intros Hs. symmetry. by apply sort_unique. Qed.

Lemma filter_NoDup (f : string → bool) (l : list string) :
  NoDup l → NoDup (List.filter f l).
Proof.
  induction l as [|x l IH]; simpl; [done|]. intros [Hx Hl]%NoDup_cons.
  destruct (f x); [|by apply IH]. apply NoDup_cons. split; [|by apply IH].
  rewrite filter_elem. tauto.
Qed.

Lemma JsSet_has_spec (p : string) (s : JsSet.t) : JsSet.has p s = true ↔ p ∈ s.
Proof. unfold JsSet.has. apply bool_decide_eq_true. Qed.

Lemma comparePackPermissions_run (packA packB : AutomaterPack) (c : PackComparison) :
  comparePackPermissions packA packB = Js.Normal c →
  ∃ a b,
    aggregatePackPermissions packA = Js.Normal a
    ∧ aggregatePackPermissions packB = Js.Normal b
    ∧ c = {| addedPermissions := Js.sort (List.filter (λ p, negb (JsSet.has p a)) b);
             removedPermissions := Js.sort (List.filter (λ p, negb (JsSet.has p b)) a);
             commonPermissions := Js.sort (List.filter (λ p, JsSet.has p b) a);
             packATotal := a;
             packBTotal := b |}.
Proof.
  unfold comparePackPermissions.
  destruct (aggregatePackPermissions packA) as [a|] eqn:Ha; [|done]. simpl.
  destruct (aggregatePackPermissions packB) as [b|] eqn:Hb; [|done]. simpl.
  destruct (aggregatePackPermissions_run packA a Ha) as (Hsa & Hna & _).
  destruct (aggregatePackPermissions_run packB b Hb) as (Hsb & Hnb & _).
  rewrite !new_Set_NoDup by done. unfold JsSet.to_array.
  rewrite (sort_sorted a), (sort_sorted b) by done.
  intros [= <-]. by exists a, b.
Qed.

(** [comparePackPermissions] splits the two aggregated lists: [packATotal]
    and [packBTotal] are what [aggregatePackPermissions] returns for the
    two packs; [addedPermissions] holds exactly the permissions of B that
    A lacks, [removedPermissions] those of A that B lacks,
    [commonPermissions] those of both; the three lists are ascending and
    free of repetitions, and [commonPermissions] with [addedPermissions]
    is a rearrangement of [packBTotal], with [removedPermissions] one of
    [packATotal]. *)
Theorem comparePackPermissions_partition (packA packB : AutomaterPack)
    (c : PackComparison) :
  comparePackPermissions packA packB = Js.Normal c →
  aggregatePackPermissions packA = Js.Normal (packATotal c)
  ∧ aggregatePackPermissions packB = Js.Normal (packBTotal c)
  ∧ (∀ p, p ∈ addedPermissions c ↔ p ∈ packBTotal c ∧ p ∉ packATotal c)
  ∧ (∀ p, p ∈ removedPermissions c ↔ p ∈ packATotal c ∧ p ∉ packBTotal c)
  ∧ (∀ p, p ∈ commonPermissions c ↔ p ∈ packATotal c ∧ p ∈ packBTotal c)
  ∧ Forall (λ l, Sorted String.le l ∧ NoDup l)
      [addedPermissions c; removedPermissions c; commonPermissions c]
  ∧ commonPermissions c ++ addedPermissions c ≡ₚ packBTotal c
  ∧ commonPermissions c ++ removedPermissions c ≡ₚ packATotal c.
Proof.
  intros (a & b & Ha & Hb & ->)%comparePackPermissions_run. simpl.
  destruct (aggregatePackPermissions_run packA a Ha) as (_ & Hna & _).
  destruct (aggregatePackPermissions_run packB b Hb) as (_ & Hnb & _).
  assert (∀ p, p ∈ Js.sort (List.filter (λ p, negb (JsSet.has p a)) b) ↔ p ∈ b ∧ p ∉ a)
    as Hadded.
  { intros p. rewrite sort_elem, filter_elem, negb_true_iff, <- not_true_iff_false.
    by rewrite JsSet_has_spec. }
  assert (∀ p, p ∈ Js.sort (List.filter (λ p, negb (JsSet.has p b)) a) ↔ p ∈ a ∧ p ∉ b)
    as Hremoved.
  { intros p. rewrite sort_elem, filter_elem, negb_true_iff, <- not_true_iff_false.
    by rewrite JsSet_has_spec. }
  assert (∀ p, p ∈ Js.sort (List.filter (λ p, JsSet.has p b) a) ↔ p ∈ a ∧ p ∈ b)
    as Hcommon.
  { intros p. by rewrite sort_elem, filter_elem, JsSet_has_spec. }
  split_and!; try done.
  - repeat apply Forall_cons_2; [..|apply Forall_nil_2];
      (split; [apply sort_Sorted|by apply sort_NoDup, filter_NoDup]).
  - apply NoDup_Permutation; [|done|].
    + apply NoDup_app. split_and!; [by apply sort_NoDup, filter_NoDup| |
        by apply sort_NoDup, filter_NoDup].
      intros p [Hpa _]%Hcommon [_ Hpa']%Hadded. done.
    + intros p. rewrite elem_of_app, Hcommon, Hadded.
      destruct (decide (p ∈ a)); tauto.
  - apply NoDup_Permutation; [|done|].
    + apply NoDup_app. split_and!; [by apply sort_NoDup, filter_NoDup| |
        by apply sort_NoDup, filter_NoDup].
      intros p [_ Hpb]%Hcommon [_ Hpb']%Hremoved. done.
    + intros p. rewrite elem_of_app, Hcommon, Hremoved.
      destruct (decide (p ∈ b)); tauto.
Qed.

Lemma comparePackPermissions_partition_witness :
  let c := {| addedPermissions := ["BAN_MEMBERS"];
              removedPermissions := ["SEND_MESSAGES"; "VIEW_CHANNEL"];
              commonPermissions := [];
              packATotal := ["SEND_MESSAGES"; "VIEW_CHANNEL"];
              packBTotal := ["BAN_MEMBERS"] |} in
  aggregatePackPermissions messaging_pack = Js.Normal (packATotal c)
  ∧ aggregatePackPermissions scenario_E = Js.Normal (packBTotal c)
  ∧ (∀ p, p ∈ addedPermissions c ↔ p ∈ packBTotal c ∧ p ∉ packATotal c)
  ∧ (∀ p, p ∈ removedPermissions c ↔ p ∈ packATotal c ∧ p ∉ packBTotal c)
  ∧ (∀ p, p ∈ commonPermissions c ↔ p ∈ packATotal c ∧ p ∈ packBTotal c)
  ∧ Forall (λ l, Sorted String.le l ∧ NoDup l)
      [addedPermissions c; removedPermissions c; commonPermissions c]
  ∧ commonPermissions c ++ addedPermissions c ≡ₚ packBTotal c
  ∧ commonPermissions c ++ removedPermissions c ≡ₚ packATotal c.
Proof.
  intros c. apply (comparePackPermissions_partition messaging_pack scenario_E c).
  vm_compute. reflexivity.
Defined.

(** Comparing the other way round exchanges [addedPermissions] with
    [removedPermissions] and the two totals, and leaves
    [commonPermissions] as it is. *)
Theorem comparePackPermissions_swap (packA packB : AutomaterPack) (c : PackComparison) :
  comparePackPermissions packA packB = Js.Normal c →
  comparePackPermissions packB packA
  = Js.Normal {| addedPermissions := removedPermissions c;
                 removedPermissions := addedPermissions c;
                 commonPermissions := commonPermissions c;
                 packATotal := packBTotal c;
                 packBTotal := packATotal c |}.
Proof.
  intros (a & b & Ha & Hb & ->)%comparePackPermissions_run. simpl.
  destruct (aggregatePackPermissions_run packA a Ha) as (Hsa & Hna & _).
  destruct (aggregatePackPermissions_run packB b Hb) as (Hsb & Hnb & _).
  unfold comparePackPermissions. rewrite Ha, Hb. simpl.
  rewrite !new_Set_NoDup by done. unfold JsSet.to_array.
  rewrite (sort_sorted a), (sort_sorted b) by done.
  do 2 f_equal. apply sort_unique; [apply sort_Sorted|].
  apply NoDup_Permutation.
  - by apply sort_NoDup, filter_NoDup.
  - by apply filter_NoDup.
  - intros p. rewrite sort_elem, !filter_elem, !JsSet_has_spec. tauto.
Qed.

Lemma comparePackPermissions_swap_witness :
  comparePackPermissions scenario_E messaging_pack
  = Js.Normal {| addedPermissions := ["SEND_MESSAGES"; "VIEW_CHANNEL"];
                 removedPermissions := ["BAN_MEMBERS"];
                 commonPermissions := [];
                 packATotal := ["BAN_MEMBERS"];
                 packBTotal := ["SEND_MESSAGES"; "VIEW_CHANNEL"] |}.
Proof.
  apply (comparePackPermissions_swap messaging_pack scenario_E
           {| addedPermissions := ["BAN_MEMBERS"];
              removedPermissions := ["SEND_MESSAGES"; "VIEW_CHANNEL"];
              commonPermissions := [];
              packATotal := ["SEND_MESSAGES"; "VIEW_CHANNEL"];
              packBTotal := ["BAN_MEMBERS"] |}).
  vm_compute. reflexivity.
Defined.

Lemma filter_nothing (f : string → bool) (l : list string) :
  (∀ p, p ∈ l → f p = false) → List.filter f l = [].
Proof.
  induction l as [|x l IH]; simpl; [done|]. intros H.
  rewrite (H x) by left. apply IH. intros p Hp. apply H. by right.
Qed.

Lemma filter_everything (f : string → bool) (l : list string) :
  (∀ p, p ∈ l → f p = true) → List.filter f l = l.
Proof.
  induction l as [|x l IH]; simpl; [done|]. intros H.
  rewrite (H x) by left. f_equal. apply IH. intros p Hp. apply H. by right.
Qed.

(** A pack compared with itself has nothing added and nothing removed,
    and all its permissions in common. *)
Theorem comparePackPermissions_same (pack : AutomaterPack) (c : PackComparison) :
  comparePackPermissions pack pack = Js.Normal c →
  addedPermissions c = [] ∧ removedPermissions c = []
  ∧ commonPermissions c = packATotal c ∧ packBTotal c = packATotal c.
Proof.
  intros (a & b & Ha & Hb & ->)%comparePackPermissions_run. simpl.
  rewrite Ha in Hb. injection Hb as <-.
  destruct (aggregatePackPermissions_run pack a Ha) as (Hsa & _).
  rewrite (filter_nothing (λ p, negb (JsSet.has p a)) a),
    (filter_everything (λ p, JsSet.has p a) a).
  - split_and!; [done..|by apply sort_sorted|done].
  - intros p Hp. by apply JsSet_has_spec.
  - intros p Hp. by apply negb_false_iff, JsSet_has_spec.
Qed.

Lemma comparePackPermissions_same_witness :
  let c := {| addedPermissions := []; removedPermissions := [];
              commonPermissions := ["BAN_MEMBERS"];
              packATotal := ["BAN_MEMBERS"]; packBTotal := ["BAN_MEMBERS"] |} in
  addedPermissions c = [] ∧ removedPermissions c = []
  ∧ commonPermissions c = packATotal c ∧ packBTotal c = packATotal c.
Proof.
  intros c. apply (comparePackPermissions_same scenario_E c). vm_compute. reflexivity.
Defined.

(** ** Packs: [generatePermissionSummary] *)

Lemma detected_NoDup (w : AutomaterWorkflow) (l : list string) :
  detectRequiredPermissions w = Js.Normal l → NoDup l.
Proof.
  intros (nodes & s & s' & _ & Ht & Hr & ->)%detectRequiredPermissions_run.
  apply sort_NoDup. eapply required_of_nodes_normal; [exact Hr|].
  by eapply trigger_permissions_NoDup.
Qed.

Lemma detected_plain (w : AutomaterWorkflow) (l : list string) (p : string) :
  detectRequiredPermissions w = Js.Normal l → p ∈ l → ¬ inherited_name p.
Proof.
  intros Hl Hp Hi. destruct (detected_classified w l p Hl Hp) as [[s Hs] _].
  destruct (tables_plain p) as (_ & _ & E & _); [by right|].
  rewrite E in Hs. discriminate Hs.
Qed.

Lemma tally_ext (n n' : string → nat) (c : gmap string UsageCount) :
  (∀ p, n p = n' p) → tally n c → tally n' c.
Proof. intros Hn Hc p. rewrite <- Hn. apply Hc. Qed.

Lemma proto_inherited : inherited_name "__proto__".
Proof. unfold inherited_name. apply (bool_decide_unpack _). vm_compute. exact I. Qed.

Lemma count_usage_tally (n : string → nat) (c : gmap string UsageCount) (x : string) :
  tally n c → ¬ inherited_name x →
  tally (λ p, n p + if bool_decide (p = x) then 1 else 0)%nat (count_usage c x).
Proof.
  intros Hc Hx p. unfold count_usage, assign.
  rewrite bool_decide_eq_false_2 by (intros ->; apply Hx, proto_inherited).
  case_bool_decide as Hp.
  - subst p. rewrite lookup_insert_eq. unfold incremented, Js.get. rewrite (Hc x).
    replace (n x + 1 =? 0)%nat with false by (symmetry; apply Nat.eqb_neq; lia).
    destruct (n x =? 0)%nat eqn:E.
    + apply Nat.eqb_eq in E. rewrite E.
      by rewrite bool_decide_eq_false_2.
    + do 2 f_equal. lia.
  - rewrite lookup_insert_ne by done. rewrite Nat.add_0_r. apply Hc.
Qed.

Lemma count_usage_fold (perms : list string) (n : string → nat)
    (c : gmap string UsageCount) :
  NoDup perms → (∀ p, p ∈ perms → ¬ inherited_name p) → tally n c →
  tally (λ p, n p + if bool_decide (p ∈ perms) then 1 else 0)%nat
        (fold_left count_usage perms c).
Proof.
  revert n c. induction perms as [|x perms IH]; intros n c Hnd Hplain Hc; simpl.
  - eapply tally_ext; [|exact Hc]. intros p. simpl. lia.
  - apply NoDup_cons in Hnd as [Hx Hnd].
    eapply tally_ext; [|apply IH; [exact Hnd| |apply count_usage_tally; [exact Hc|]]].
    + intros p. simpl. rewrite <- Nat.add_assoc. f_equal.
      destruct (decide (p = x)) as [->|Hpx].
      * rewrite (bool_decide_eq_true_2 (x = x)) by done.
        rewrite (bool_decide_eq_false_2 (x ∈ perms)) by done.
        rewrite bool_decide_eq_true_2 by left. lia.
      * rewrite (bool_decide_eq_false_2 (p = x)) by done.
        destruct (decide (p ∈ perms)) as [Hp|Hp].
        -- rewrite (bool_decide_eq_true_2 (p ∈ perms)) by done.
           rewrite bool_decide_eq_true_2 by (by right). lia.
        -- rewrite (bool_decide_eq_false_2 (p ∈ perms)) by done.
           rewrite bool_decide_eq_false_2; [lia|].
           intros [?|?]%elem_of_cons; done.
    + intros p Hp. apply Hplain. by right.
    + apply Hplain. left.
Qed.

Lemma summarize_tally (l : list AutomaterWorkflow)
    (st st' : gmap string (list string) * gmap string UsageCount) (n : string → nat) :
  summarize_automations l st = Js.Normal st' → tally n st.2 →
  tally (λ p, n p + length (List.filter (uses p) l))%nat st'.2.
Proof.
  revert st n. induction l as [|w l IH]; intros st n; simpl.
  - intros [= <-] Hc. eapply tally_ext; [|exact Hc]. intros p. simpl. lia.
  - destruct (detectRequiredPermissions w) as [perms|] eqn:Hw; [|done]. simpl.
    intros Hrun Hc. eapply tally_ext; [|eapply (IH _ _ Hrun)].
    2: { simpl. apply count_usage_fold; [by eapply detected_NoDup| |exact Hc].
         intros p. by apply (detected_plain w perms). }
    intros p. simpl. unfold uses at 2. rewrite Hw.
    case_bool_decide; simpl; lia.
Qed.

Lemma summarize_origin (l : list AutomaterWorkflow)
    (st st' : gmap string (list string) * gmap string UsageCount)
    (id : string) (perms : list string) :
  summarize_automations l st = Js.Normal st' → st'.1 !! id = Some perms →
  st.1 !! id = Some perms
  ∨ ∃ w, w ∈ l ∧ property_key (workflow_id w) = id
         ∧ detectRequiredPermissions w = Js.Normal perms.
Proof.
  revert st. induction l as [|w l IH]; intros st; simpl.
  - intros [= <-] H. by left.
  - destruct (detectRequiredPermissions w) as [pw|] eqn:Hw; [|done]. simpl.
    intros Hrun Hl. destruct (IH _ Hrun Hl) as [H|(w' & Hw' & Hid & Hd)].
    + simpl in H. unfold assign in H. case_bool_decide; [by left|].
      destruct (decide (property_key (workflow_id w) = id)) as [Heq|Hne].
      * rewrite Heq, lookup_insert_eq in H. injection H as ->.
        right. exists w. split_and!; [left|done..].
      * rewrite lookup_insert_ne in H by done. by left.
    + right. exists w'. split_and!; [by right|done..].
Qed.

Lemma NoDup_map_filter {A B} (g : A → B) (f : A → bool) (l : list A) :
  NoDup (map g l) → NoDup (map g (List.filter f l)).
Proof.
  induction l as [|x l IH]; simpl; [done|]. intros [Hx Hl]%NoDup_cons.
  destruct (f x); simpl; [|by apply IH]. apply NoDup_cons. split; [|by apply IH].
  intros (y & Hy & Hin)%list_elem_of_fmap. apply Hx.
  apply list_elem_of_fmap. exists y. split; [done|].
  apply list_elem_of_In, filter_In in Hin as [Hin _]. by apply list_elem_of_In.
Qed.

Lemma usage_count_positive (pack : AutomaterPack) (p : string) :
  (1 ≤ usage_count pack p)%nat
  ↔ ∃ w lw, w ∈ automations_of pack
            ∧ detectRequiredPermissions w = Js.Normal lw ∧ p ∈ lw.
Proof.
  unfold usage_count. split.
  - intros Hlen. destruct (List.filter (uses p) (automations_of pack)) as [|w f] eqn:Hf.
    { simpl in Hlen. lia. }
    assert (w ∈ List.filter (uses p) (automations_of pack)) as Hw.
    { rewrite Hf. left. }
    apply list_elem_of_In, filter_In in Hw as [Hw Hu]. apply list_elem_of_In in Hw.
    unfold uses in Hu. destruct (detectRequiredPermissions w) as [lw|] eqn:Hd; [|done].
    exists w, lw. split_and!; [done..|]. by apply bool_decide_eq_true in Hu.
  - intros (w & lw & Hw & Hd & Hp).
    assert (w ∈ List.filter (uses p) (automations_of pack)) as Hin.
    { apply list_elem_of_In, filter_In. split; [by apply list_elem_of_In|].
      unfold uses. rewrite Hd. by apply bool_decide_eq_true. }
    destruct (List.filter (uses p) (automations_of pack)); simpl; [|lia].
    by apply elem_of_nil in Hin.
Qed.

Lemma generatePermissionSummary_run (pack : AutomaterPack) (s : PermissionSummary) :
  generatePermissionSummary pack = Js.Normal s →
  ∃ st,
    summarize_automations (automations_of pack) (∅, ∅) = Js.Normal st
    ∧ tally (usage_count pack) st.2
    ∧ aggregatePackPermissions pack = Js.Normal (summary_totalPermissions s)
    ∧ permissionsByAutomation s = st.1
    ∧ sharedPermissions s
      = Js.sort (map fst (List.filter (λ entry, more_than_one entry.2)
                            (map_to_list st.2)))
    ∧ uniquePermissions s = (λ perms, List.filter (exactly_one st.2) perms) <$> st.1
    ∧ automationCount s = length (automations_of pack)
    ∧ permissionCount s = length (summary_totalPermissions s).
Proof.
  unfold generatePermissionSummary.
  destruct (summarize_automations (automations_of pack) (∅, ∅)) as [st|] eqn:Hst;
    [|done]. simpl.
  destruct (aggregatePackPermissions pack) as [total|]; [|done]. simpl.
  intros [= <-]. exists st. split_and!; try done.
  eapply tally_ext; [|apply (summarize_tally _ _ _ (λ _, 0%nat) Hst)].
  - intros p. simpl. reflexivity.
  - intros p. simpl. apply lookup_empty.
Qed.

Lemma shared_elem (n : string → nat) (c : gmap string UsageCount) (p : string) :
  tally n c →
  p ∈ map fst (List.filter (λ entry, more_than_one entry.2) (map_to_list c))
  ↔ (2 ≤ n p)%nat.
Proof.
  intros Hc. rewrite list_elem_of_fmap. split.
  - intros ([p' cnt] & -> & Hin). simpl.
    apply list_elem_of_In, filter_In in Hin as [Hin Hmore].
    apply list_elem_of_In, elem_of_map_to_list in Hin. rewrite (Hc p') in Hin.
    destruct (n p' =? 0)%nat; [done|]. injection Hin as <-. simpl in Hmore.
    apply Nat.ltb_lt in Hmore. lia.
  - intros Hn. exists (p, Count (n p)). split; [done|].
    apply list_elem_of_In, filter_In. split.
    + apply list_elem_of_In, elem_of_map_to_list. rewrite (Hc p).
      replace (n p =? 0)%nat with false; [done|]. symmetry. apply Nat.eqb_neq. lia.
    + simpl. apply Nat.ltb_lt. lia.
Qed.

Lemma exactly_one_tally (n : string → nat) (c : gmap string UsageCount) (p : string) :
  tally n c → exactly_one c p = true ↔ n p = 1%nat.
Proof.
  intros Hc. unfold exactly_one, Js.get. rewrite (Hc p).
  destruct (n p =? 0)%nat eqn:E.
  - apply Nat.eqb_eq in E. rewrite E. by case_bool_decide.
  - destruct (n p) as [|[|k]]; [done|done|]. split; [done|lia].
Qed.

(** [generatePermissionSummary]: [sharedPermissions] is the ascending,
    repetition-free list of the permissions that at least two automations
    of the pack require, [totalPermissions] (what
    [aggregatePackPermissions] returns) holds those that at least one
    requires, and the two counts are the number of automations and the
    length of [totalPermissions]. *)
Theorem generatePermissionSummary_shared (pack : AutomaterPack) (s : PermissionSummary) :
  generatePermissionSummary pack = Js.Normal s →
  aggregatePackPermissions pack = Js.Normal (summary_totalPermissions s)
  ∧ Sorted String.le (sharedPermissions s) ∧ NoDup (sharedPermissions s)
  ∧ (∀ p, p ∈ sharedPermissions s ↔ (2 ≤ usage_count pack p)%nat)
  ∧ (∀ p, p ∈ summary_totalPermissions s ↔ (1 ≤ usage_count pack p)%nat)
  ∧ automationCount s = length (automations_of pack)
  ∧ permissionCount s = length (summary_totalPermissions s).
Proof.
  intros (st & _ & Hc & Htotal & _ & -> & _ & Hac & Hpc)%generatePermissionSummary_run.
  split_and!; try done.
  - apply sort_Sorted.
  - apply sort_NoDup, NoDup_map_filter, NoDup_fst_map_to_list.
  - intros p. rewrite sort_elem. by apply shared_elem.
  - intros p. rewrite usage_count_positive.
    by destruct (aggregatePackPermissions_run pack _ Htotal) as (_ & _ & ->).
Qed.

Lemma generatePermissionSummary_shared_witness :
  let s := {| summary_totalPermissions := ["BAN_MEMBERS"; "SEND_MESSAGES"; "VIEW_CHANNEL"];
              permissionsByAutomation :=
                <["wf-5" := ["BAN_MEMBERS"; "SEND_MESSAGES"; "VIEW_CHANNEL"]]>
                  (<["test-workflow-1" := ["SEND_MESSAGES"; "VIEW_CHANNEL"]]> ∅);
              sharedPermissions := ["SEND_MESSAGES"; "VIEW_CHANNEL"];
              uniquePermissions :=
                <["wf-5" := ["BAN_MEMBERS"]]> (<["test-workflow-1" := []]> ∅);
              automationCount := 2;
              permissionCount := 3 |} in
  aggregatePackPermissions two_automations = Js.Normal (summary_totalPermissions s)
  ∧ Sorted String.le (sharedPermissions s) ∧ NoDup (sharedPermissions s)
  ∧ (∀ p, p ∈ sharedPermissions s ↔ (2 ≤ usage_count two_automations p)%nat)
  ∧ (∀ p, p ∈ summary_totalPermissions s ↔ (1 ≤ usage_count two_automations p)%nat)
  ∧ automationCount s = length (automations_of two_automations)
  ∧ permissionCount s = length (summary_totalPermissions s).
Proof.
  intros s. apply (generatePermissionSummary_shared two_automations s).
  vm_compute. reflexivity.
Defined.

(** [generatePermissionSummary] splits every entry of
    [permissionsByAutomation]: under the same id [uniquePermissions]
    keeps, in order, the permissions that no other automation of the pack
    requires, and the remaining ones are exactly those listed in
    [sharedPermissions]. *)
Theorem generatePermissionSummary_unique (pack : AutomaterPack) (s : PermissionSummary)
    (id : string) (perms : list string) :
  generatePermissionSummary pack = Js.Normal s →
  permissionsByAutomation s !! id = Some perms →
  uniquePermissions s !! id
  = Some (List.filter (λ p, (usage_count pack p =? 1)%nat) perms)
  ∧ ∀ p, p ∈ perms →
         (usage_count pack p = 1%nat ∧ p ∉ sharedPermissions s)
         ∨ ((2 ≤ usage_count pack p)%nat ∧ p ∈ sharedPermissions s).
Proof.
  intros (st & Hst & Hc & _ & Hby & -> & -> & _)%generatePermissionSummary_run Hid.
  rewrite Hby in Hid. split.
  - rewrite lookup_fmap, Hid. simpl. f_equal. apply filter_ext. intros p.
    apply eq_true_iff_eq. rewrite (exactly_one_tally _ _ p Hc). by rewrite Nat.eqb_eq.
  - intros p Hp. rewrite sort_elem, (shared_elem _ _ p Hc).
    destruct (summarize_origin _ _ _ _ _ Hst Hid) as [H|(w & Hw & _ & Hd)].
    { simpl in H. by rewrite lookup_empty in H. }
    assert (1 ≤ usage_count pack p)%nat.
    { apply usage_count_positive. by exists w, perms. }
    lia.
Qed.

Lemma generatePermissionSummary_unique_witness :
  let s := {| summary_totalPermissions := ["BAN_MEMBERS"; "SEND_MESSAGES"; "VIEW_CHANNEL"];
              permissionsByAutomation :=
                <["wf-5" := ["BAN_MEMBERS"; "SEND_MESSAGES"; "VIEW_CHANNEL"]]>
                  (<["test-workflow-1" := ["SEND_MESSAGES"; "VIEW_CHANNEL"]]> ∅);
              sharedPermissions := ["SEND_MESSAGES"; "VIEW_CHANNEL"];
              uniquePermissions :=
                <["wf-5" := ["BAN_MEMBERS"]]> (<["test-workflow-1" := []]> ∅);
              automationCount := 2;
              permissionCount := 3 |} in
  let perms := ["BAN_MEMBERS"; "SEND_MESSAGES"; "VIEW_CHANNEL"] in
  uniquePermissions s !! "wf-5"
  = Some (List.filter (λ p, (usage_count two_automations p =? 1)%nat) perms)
  ∧ ∀ p, p ∈ perms →
         (usage_count two_automations p = 1%nat ∧ p ∉ sharedPermissions s)
         ∨ ((2 ≤ usage_count two_automations p)%nat ∧ p ∈ sharedPermissions s).
Proof.
  intros s perms. apply (generatePermissionSummary_unique two_automations s "wf-5" perms).
  - vm_compute. reflexivity.
  - vm_compute. reflexivity.
Defined.

(** ** Graph integrity: what the traversal marks *)

(** Soundness: whatever a traversal adds can be reached from its start. *)
Lemma dfs_sound (adj : gmap string (list string)) (fuel : nat) (n : string)
    (v : gset string) (x : string) :
  x ∈ dfs fuel adj n v → x ∈ v ∨ rtc (adjacent adj) n x.
Proof.
  revert n v x. induction fuel as [|fuel IH]; intros n v x; simpl; [by left|].
  case_bool_decide as Hv; [by left|].
  assert (∀ l r, (∀ c, c ∈ l → adjacent adj n c) →
            x ∈ fold_left (λ r c, dfs fuel adj c r) l r →
            x ∈ r ∨ rtc (adjacent adj) n x) as Hfold.
  { induction l as [|c l IHl]; intros r Hl; simpl; [by left|].
    intros [Hx|Hx]%IHl; [|by right|intros; apply Hl; by right].
    apply IH in Hx as [Hx|Hx]; [by left|right].
    eapply rtc_l; [apply Hl; left|done]. }
  intros Hx. apply Hfold in Hx as [Hx|Hx]; [|by right|].
  - apply elem_of_union in Hx as [->%elem_of_singleton|Hx]; [right|by left].
    apply rtc_refl.
  - intros c Hc. destruct (adj !! n) as [l|] eqn:Hl; simpl in Hc.
    + by exists l.
    + by apply elem_of_nil in Hc.
Qed.

Lemma reachable_from_sound (adj : gmap string (list string)) (fuel : nat)
    (entryNodes : list WorkflowNode) (x : string) :
  x ∈ reachable_from fuel adj entryNodes →
  ∃ e, e ∈ entryNodes ∧ rtc (adjacent adj) (node_id e) x.
Proof.
  unfold reachable_from.
  assert (∀ r, x ∈ fold_left (λ r node, dfs fuel adj (node_id node) r) entryNodes r →
               x ∈ r ∨ ∃ e, e ∈ entryNodes ∧ rtc (adjacent adj) (node_id e) x) as H.
  { induction entryNodes as [|e l IH]; intros r; simpl; [by left|].
    intros [Hx|(e' & He' & Hp)]%IH.
    - apply dfs_sound in Hx as [Hx|Hx]; [by left|right]. exists e. split; [left|done].
    - right. exists e'. split; [by right|done]. }
  intros [Hx|Hx]%H; [set_solver|done].
Qed.

Lemma closed_rtc (adj : gmap string (list string)) (r : gset string)
    (a b : string) :
  closed_except adj ∅ r → rtc (adjacent adj) a b → a ∈ r → b ∈ r.
Proof.
  intros Hcl. induction 1 as [|a c b Hac _ IH]; [done|].
  intros Ha. apply IH, (Hcl a c); [done|apply not_elem_of_empty|done].
Qed.

Section traversal.
Context (adj : gmap string (list string)) (U : gset string).
Hypothesis closed : ∀ n l c, adj !! n = Some l → c ∈ l → c ∈ U.

(** Completeness: with enough fuel a traversal marks its start and leaves
    no marked id outside the stack with an unmarked successor. *)
Lemma dfs_closed (fuel : nat) (n : string) (stack v : gset string) :
  n ∈ U → (size (U ∖ v) < fuel)%nat → closed_except adj stack v →
  n ∈ dfs fuel adj n v ∧ closed_except adj stack (dfs fuel adj n v).
Proof.
  revert n stack v. induction fuel as [|fuel IH]; intros n stack v Hn Hsize Hv; [lia|].
  simpl. case_bool_decide as Hnv; [done|].
  assert (size (U ∖ ({[n]} ∪ v)) < size (U ∖ v))%nat as Hless.
  { apply subset_size. set_solver. }
  assert (∀ l r, (∀ c, c ∈ l → c ∈ U) → {[n]} ∪ v ⊆ r →
            closed_except adj ({[n]} ∪ stack) r →
            let r' := fold_left (λ r c, dfs fuel adj c r) l r in
            r ⊆ r' ∧ (∀ c, c ∈ l → c ∈ r') ∧ closed_except adj ({[n]} ∪ stack) r')
    as Hfold.
  { induction l as [|c l IHl]; intros r Hl Hr Hclosed; simpl.
    { split_and!; [done| |done]. by intros c ?%elem_of_nil. }
    assert (size (U ∖ r) < fuel)%nat as Hr'.
    { assert (size (U ∖ r) ≤ size (U ∖ ({[n]} ∪ v)))%nat; [|lia].
      apply subseteq_size. set_solver. }
    destruct (IH c ({[n]} ∪ stack) r) as [Hc Hclosed']; [apply Hl; left|done..|].
    pose proof (dfs_mono fuel adj c r) as Hmono.
    destruct (IHl (dfs fuel adj c r)) as (Hsub & Hin & Hcl);
      [intros; apply Hl; by right|set_solver|done|].
    split_and!; [set_solver| |done].
    intros c' [->|Hc']%elem_of_cons; [set_solver|by apply Hin]. }
  destruct (Hfold (default [] (adj !! n)) ({[n]} ∪ v)) as (Hsub & Hin & Hcl).
  - intros c Hc. destruct (adj !! n) as [l|] eqn:Hl; simpl in Hc.
    + by eapply closed.
    + by apply elem_of_nil in Hc.
  - done.
  - intros x y Hx Hx' Hxy. apply elem_of_union in Hx as [Hx|Hx]; [set_solver|].
    apply elem_of_union_r. apply (Hv x y); [done|set_solver|done].
  - split; [set_solver|]. intros x y Hx Hx' (l & Hl & Hy).
    destruct (decide (x = n)) as [->|Hne].
    + apply Hin. by rewrite Hl.
    + apply (Hcl x y); [done|set_solver|by exists l].
Qed.

Lemma reachable_from_closed (fuel : nat) (entryNodes : list WorkflowNode) :
  (∀ e, e ∈ entryNodes → node_id e ∈ U) → (size U < fuel)%nat →
  (∀ e, e ∈ entryNodes → node_id e ∈ reachable_from fuel adj entryNodes)
  ∧ closed_except adj ∅ (reachable_from fuel adj entryNodes).
Proof.
  intros HU Hsize. unfold reachable_from.
  assert (∀ r, closed_except adj ∅ r →
            let r' := fold_left (λ r node, dfs fuel adj (node_id node) r) entryNodes r in
            r ⊆ r' ∧ (∀ e, e ∈ entryNodes → node_id e ∈ r') ∧ closed_except adj ∅ r')
    as H.
  { induction entryNodes as [|e l IH]; intros r Hr; simpl.
    { split_and!; [done| |done]. by intros e ?%elem_of_nil. }
    assert (size (U ∖ r) < fuel)%nat as Hr'.
    { assert (size (U ∖ r) ≤ size U)%nat; [|lia]. apply subseteq_size. set_solver. }
    destruct (dfs_closed fuel (node_id e) ∅ r) as [He Hcl]; [apply HU; left|done..|].
    pose proof (dfs_mono fuel adj (node_id e) r) as Hmono.
    destruct (IH (λ e' He', HU e' (list_elem_of_further _ _ _ He')) _ Hcl)
      as (Hsub & Hin & Hcl').
    split_and!; [set_solver| |done].
    intros e' [->|He']%elem_of_cons; [set_solver|by apply Hin]. }
  destruct (H ∅) as (_ & Hin & Hcl); [|done].
  intros x y Hx. set_solver.
Qed.

End traversal.

Lemma adjacent_linked (cfg : LintConfig) (nodes : list WorkflowNode) (next : nat)
    (a b : string) :
  adjacent (adjacencyList (buildConnections cfg nodes next)) a b ↔ linked cfg nodes a b.
Proof.
  unfold adjacent, linked.
  rewrite buildConnections_edges, adjacencyList_fold. simpl. rewrite initialize_lookup.
  split.
  - intros (l & Hl & Hb). case_bool_decide; [|done]. simpl in Hl. injection Hl as <-.
    apply list_elem_of_fmap in Hb as ([s t] & -> & Hst). simpl.
    apply list_elem_of_In, filter_In in Hst as [Hst Hk]. apply list_elem_of_In in Hst.
    apply andb_true_iff in Hk as [Hs Hk]. apply bool_decide_eq_true in Hs.
    simpl in Hs. subst s. done.
  - intros [Hab Hk]. pose proof Hab as (m & Hm & <- & _)%edges_elem.
    rewrite bool_decide_eq_true_2 by (by apply node_id_declared). simpl.
    eexists. split; [done|]. apply list_elem_of_fmap. exists (node_id m, b).
    split; [done|]. apply list_elem_of_In, filter_In. split; [by apply list_elem_of_In|].
    apply andb_true_iff. split; [by apply bool_decide_eq_true|done].
Qed.

Lemma node_id_universe (nodes : list WorkflowNode) (n : WorkflowNode) :
  n ∈ nodes → node_id n ∈ universe nodes.
Proof.
  intros Hn. unfold universe. rewrite elem_of_list_to_set, elem_of_app. left.
  apply list_elem_of_fmap. by exists n.
Qed.

Lemma rtc_iff {A} (R S : A → A → Prop) (a b : A) :
  (∀ x y, R x y ↔ S x y) → rtc R a b ↔ rtc S a b.
Proof.
  intros H. split; induction 1 as [|x y z Hxy _ IH]; try apply rtc_refl;
    (eapply rtc_l; [by apply H|done]).
Qed.

Lemma entry_nodes_elem (cfg : LintConfig) (nodes : list WorkflowNode) (next : nat)
    (e : WorkflowNode) :
  e ∈ List.filter (is_entry (reverseAdjacencyList (buildConnections cfg nodes next))) nodes
  ↔ e ∈ nodes ∧ entry_point nodes e.
Proof.
  rewrite list_elem_of_In, filter_In, <- list_elem_of_In.
  split; intros [He Hp]; (split; [done|]); by apply (is_entry_spec cfg nodes next).
Qed.

Lemma reachable_ids_sound (cfg : LintConfig) (nodes : list WorkflowNode) (next : nat)
    (id : string) :
  id ∈ reachable_ids cfg nodes next → reached_from_entry cfg nodes id.
Proof.
  unfold reachable_ids, reached_from_entry.
  intros (e & [He Hp]%entry_nodes_elem & Hpath)%reachable_from_sound.
  exists e. split_and!; [done..|].
  eapply rtc_iff; [|exact Hpath]. intros x y. symmetry. apply adjacent_linked.
Qed.

Lemma reachable_ids_complete (cfg : LintConfig) (nodes : list WorkflowNode) (next : nat)
    (id : string) :
  reached_from_entry cfg nodes id → id ∈ reachable_ids cfg nodes next.
Proof.
  unfold reachable_ids, reached_from_entry. intros (e & He & Hp & Hpath).
  set (c := buildConnections cfg nodes next).
  destruct (reachable_from_closed (adjacencyList c) (universe nodes)
              (adjacencyList_closed cfg nodes next) (dfs_fuel nodes)
              (List.filter (is_entry (reverseAdjacencyList c)) nodes))
    as [Hin Hcl].
  - intros e' [He' _]%entry_nodes_elem. by apply node_id_universe.
  - apply universe_size.
  - eapply closed_rtc; [exact Hcl| |apply Hin; by apply entry_nodes_elem].
    eapply rtc_iff; [|exact Hpath]. intros x y. apply adjacent_linked.
Qed.

(** The set of ids the traversal of [validateGraphIntegrity] marks is the
    set of ids that can be reached from an entry point (a trigger node or
    a node without incoming connection) along the connections the graph
    keeps; the entry points themselves are marked. *)
Theorem reachable_ids_spec (cfg : LintConfig) (nodes : list WorkflowNode) (next : nat) :
  (∀ id, id ∈ reachable_ids cfg nodes next ↔ reached_from_entry cfg nodes id)
  ∧ ∀ e, e ∈ nodes → entry_point nodes e → node_id e ∈ reachable_ids cfg nodes next.
Proof.
  split.
  - intros id. split; [apply reachable_ids_sound|apply reachable_ids_complete].
  - intros e He Hp. apply reachable_ids_complete. exists e. split_and!; [done..|].
    apply rtc_refl.
Qed.

Lemma report_unreachable_view (l : list WorkflowNode) (st : Emitted) :
  map issue_view (fold_left report_unreachable l st).1
  = map issue_view st.1 ++ map unreachable_view l.
Proof.
  revert st. induction l as [|n l IH]; intros st; simpl.
  { by rewrite app_nil_r. }
  rewrite IH. unfold report_unreachable. rewrite push_issue_fst, map_app, <- app_assoc.
  done.
Qed.

(** While [graph/unreachable-nodes] is enabled, a node of the list is
    reported unreachable exactly when its id cannot be reached from any
    entry point along the connections the graph keeps. *)
Theorem unreachable_reported_iff (cfg : LintConfig) (nodes : list WorkflowNode)
    (next : nat) (n : WorkflowNode) :
  isRuleEnabled cfg "graph/unreachable-nodes" = true → n ∈ nodes →
  (∃ issue, issue ∈ (validateGraphIntegrity cfg nodes next).1
            ∧ reports_unreachable issue n)
  ↔ ¬ reached_from_entry cfg nodes (node_id n).
Proof.
  intros Hon Hn.
  assert (node_id n ∈ reachable_ids cfg nodes next
          ↔ reached_from_entry cfg nodes (node_id n)) as <-.
  { split; [apply reachable_ids_sound|apply reachable_ids_complete]. }
  assert (nodes ≠ []) as Hne by (intros ->; by apply elem_of_nil in Hn).
  unfold validateGraphIntegrity. rewrite bool_decide_eq_false_2, Hon by done.
  fold (reachable_ids cfg nodes next).
  set (c := buildConnections cfg nodes next).
  set (st := if _ && _ then _ else emitted c).
  assert (∀ i, i ∈ st.1 → ruleId i ≠ "graph/unreachable-nodes") as Hst.
  { intros i. unfold st. destruct (_ && _).
    - rewrite push_issue_fst. intros [Hi| ->%list_elem_of_singleton]%elem_of_app.
      + by rewrite (buildConnections_rules cfg nodes next i Hi).
      + done.
    - intros Hi. by rewrite (buildConnections_rules cfg nodes next i Hi). }
  set (unreachable := List.filter _ nodes).
  pose proof (report_unreachable_view unreachable st) as Hview.
  assert (∀ m, m ∈ unreachable ↔ m ∈ nodes ∧ node_id m ∉ reachable_ids cfg nodes next)
    as Hun.
  { intros m. unfold unreachable.
    rewrite list_elem_of_In, filter_In, <- list_elem_of_In, negb_true_iff,
      bool_decide_eq_false. done. }
  split.
  - intros (issue & Hi & Hrule & Hloc).
    assert (issue_view issue ∈ map issue_view st.1 ++ map unreachable_view unreachable)
      as Hv.
    { rewrite <- Hview. apply list_elem_of_fmap. by exists issue. }
    apply elem_of_app in Hv as [Hv|Hv].
    + apply list_elem_of_fmap in Hv as (j & Hj & Hjst). destruct (Hst j Hjst).
      unfold issue_view in Hj. injection Hj as <- _ _. exact Hrule.
    + apply list_elem_of_fmap in Hv as (m & Hm & [_ Hmr]%Hun).
      unfold issue_view, unreachable_view in Hm. injection Hm as _ _ Hm.
      rewrite Hloc in Hm. injection Hm as Hm. by rewrite Hm.
  - intros Hnr.
    assert (unreachable_view n ∈ map issue_view
              (fold_left report_unreachable unreachable st).1) as Hv.
    { rewrite Hview. apply elem_of_app. right. apply list_elem_of_fmap. exists n.
      split; [done|]. by apply Hun. }
    apply list_elem_of_fmap in Hv as (issue & Hv & Hi). exists issue. split; [done|].
    unfold issue_view, unreachable_view in Hv. injection Hv as Hr _ Hl.
    by split.
Qed.

Lemma unreachable_reported_iff_witness :
  (∃ issue, issue ∈ (validateGraphIntegrity (config default_validator) island_cycle 1).1
            ∧ reports_unreachable issue
                (node "B" type_action (Some "send_message") (Some ["C"])))
  ↔ ¬ reached_from_entry (config default_validator) island_cycle "B".
Proof.
  apply (unreachable_reported_iff (config default_validator) island_cycle 1
           (node "B" type_action (Some "send_message") (Some ["C"]))).
  - vm_compute. reflexivity.
  - unfold island_cycle. right. left.
Defined.

(** ** Issue ids *)

Lemma numbered_nil (next : nat) : numbered next ([], next).
Proof. split; simpl; [done|lia]. Qed.

Lemma numbered_push (next : nat) (st : Emitted) (rule : string) (code : ErrorCode)
    (o : IssueOptions) :
  numbered next st → numbered next (push_issue st rule code o).
Proof.
  intros [Hids Hnext]. rewrite push_issue_view. unfold numbered, issue_ids. simpl.
  rewrite map_app, length_app, Hids, Hnext. simpl. unfold issue_ids.
  rewrite seq_app, map_app. simpl. split; [done|lia].
Qed.

Lemma numbered_fold {A} (f : Emitted → A → Emitted) (l : list A) (st : Emitted)
    (next : nat) :
  (∀ st a, numbered next st → numbered next (f st a)) →
  numbered next st → numbered next (fold_left f l st).
Proof.
  intros Hf. revert st. induction l as [|a l IH]; intros st Hst; simpl; [done|].
  by apply IH, Hf.
Qed.

Lemma numbered_app (next : nat) (st1 st2 : Emitted) :
  numbered next st1 → numbered st1.2 st2 → numbered next (st1.1 ++ st2.1, st2.2).
Proof.
  intros [Hids1 Hnext1] [Hids2 Hnext2]. unfold numbered, issue_ids in *. simpl.
  rewrite map_app, length_app, seq_app, map_app, Hids1, Hids2, Hnext2, Hnext1.
  split; [done|lia].
Qed.

Lemma issue_ids_NoDup (next count : nat) : NoDup (issue_ids next count).
Proof.
  unfold issue_ids. apply NoDup_fmap_2; [|apply NoDup_ListNoDup, seq_NoDup].
  intros k1 k2 Hk. by apply (inj (String.append "issue-")), (inj pretty) in Hk.
Qed.

Lemma issue_ids_elem (next count : nat) (id : string) :
  id ∈ issue_ids next count
  ↔ ∃ k, (next ≤ k < next + count)%nat ∧ id = "issue-" +:+ pretty k.
Proof.
  unfold issue_ids. rewrite list_elem_of_fmap. split.
  - intros (k & -> & Hk). exists k. split; [|done].
    by apply list_elem_of_In, in_seq in Hk.
  - intros (k & Hk & ->). exists k. split; [done|]. by apply list_elem_of_In, in_seq.
Qed.

Lemma numbered_connections (cfg : LintConfig) (nodes : list WorkflowNode) (next : nat) :
  numbered next (emitted (buildConnections cfg nodes next)).
Proof.
  rewrite buildConnections_edges.
  assert (∀ es c, numbered next (emitted c) →
            numbered next (emitted (fold_left (connect_edge cfg (nodeIds_of nodes)) es c)))
    as H.
  { induction es as [|e es IH]; intros c Hc; simpl; [done|]. apply IH.
    unfold connect_edge, connect. destruct (_ && _); simpl; [|done].
    by apply numbered_push. }
  apply H. simpl. apply numbered_nil.
Qed.

Lemma numbered_graph (cfg : LintConfig) (nodes : list WorkflowNode) (next : nat) :
  numbered next (validateGraphIntegrity cfg nodes next).
Proof.
  unfold validateGraphIntegrity. case_bool_decide; [apply numbered_nil|].
  pose proof (numbered_connections cfg nodes next) as Hc.
  set (st := if _ && _ then _ else _).
  assert (numbered next st) as Hst.
  { unfold st. destruct (_ && _); [by apply numbered_push|done]. }
  destruct (isRuleEnabled cfg "graph/unreachable-nodes"); [|done].
  apply numbered_fold; [|done]. intros st' n. apply numbered_push.
Qed.

Lemma numbered_nodes (cfg : LintConfig) (nodes : list WorkflowNode) (next : nat) :
  numbered next (validateNodeList cfg nodes next).
Proof.
  unfold validateNodeList. apply numbered_fold; [|apply numbered_nil].
  intros st n Hst.
  assert (∀ (b : bool) st' rule code o,
            numbered next st' →
            numbered next (if b then push_issue st' rule code o else st')) as Hif.
  { intros [] st' rule code o Hst'; [by apply numbered_push|done]. }
  unfold check_node. cbv zeta.
  destruct (node_weight n) as [weight|]; [|by do 2 apply Hif].
  destruct (isRuleEnabled cfg "perf/high-weight"); [|by do 2 apply Hif].
  case_bool_decide; [apply numbered_push|]; by do 2 apply Hif.
Qed.

(** The issues [validateNodes] resolves to carry pairwise distinct ids,
    each of the form [issue-k] with [k] between the validator's counter
    before the call and its counter after it; the call advances the
    counter by the number of issues generated, so two calls on one
    validator never hand out the same id. *)
Theorem validateNodes_ids (cfg : LintConfig) (nodes : list WorkflowNode) (next : nat) :
  ∃ issues,
    (validateNodes cfg nodes next).1 = Resolved issues
    ∧ NoDup (map issue_id issues)
    ∧ (next ≤ (validateNodes cfg nodes next).2)%nat
    ∧ ∀ i, i ∈ issues →
           ∃ k, (next ≤ k < (validateNodes cfg nodes next).2)%nat
                ∧ issue_id i = "issue-" +:+ pretty k.
Proof.
  unfold validateNodes. eexists. split; [done|]. simpl.
  set (ns := map to_workflow_node nodes).
  pose proof (numbered_app next _ _ (numbered_graph cfg ns next)
                (numbered_nodes cfg ns (validateGraphIntegrity cfg ns next).2))
    as [Hids Hnext].
  simpl in Hids, Hnext. rewrite Hnext. unfold filterIssues. split_and!.
  - apply NoDup_map_filter. rewrite Hids. apply issue_ids_NoDup.
  - lia.
  - intros i [Hi _]%list_elem_of_In%filter_In. apply list_elem_of_In in Hi.
    apply issue_ids_elem. rewrite <- Hids. apply list_elem_of_fmap. by exists i.
Qed.

(** ** [validateNodes] and the rule of a missing action *)

Lemma reports_app (rule : string) (l1 l2 : list LintIssue) :
  reports rule (l1 ++ l2) ↔ reports rule l1 ∨ reports rule l2.
Proof.
  unfold reports. split.
  - intros (i & [Hi|Hi]%elem_of_app & Hr); [left|right]; by exists i.
  - intros [(i & Hi & Hr)|(i & Hi & Hr)]; exists i; rewrite elem_of_app; tauto.
Qed.

Lemma reports_push (rule : string) (st : Emitted) (b : bool) (r : string)
    (code : ErrorCode) (o : IssueOptions) :
  reports rule (if b then push_issue st r code o else st).1
  ↔ reports rule st.1 ∨ (b = true ∧ r = rule).
Proof.
  destruct b.
  - rewrite push_issue_fst, reports_app. unfold reports at 2. split.
    + intros [H|(i & ->%list_elem_of_singleton & Hr)]; [by left|by right].
    + intros [H|[_ <-]]; [by left|right]. eexists. split; [apply list_elem_of_singleton|];
        done.
  - split; [by left|]. by intros [H|[[=] _]].
Qed.

Lemma check_node_reports (cfg : LintConfig) (st : Emitted) (n : WorkflowNode) :
  reports "action/missing-params" (check_node cfg st n).1
  ↔ reports "action/missing-params" st.1
    ∨ (isRuleEnabled cfg "action/unknown-type" = true ∧ lacks_action n).
Proof.
  unfold check_node, lacks_action. cbv zeta.
  assert (∀ st' : Emitted,
            reports "action/missing-params"
              (match node_weight n with
               | Some weight =>
                   if isRuleEnabled cfg "perf/high-weight"
                   then
                     if bool_decide
                          (or_default (maxNodeWeight <$> settings_rateLimits cfg) 100
                           < weight)
                     then push_issue st' "perf/high-weight" E4120
                            (with_message
                               ("Node '" +:+ node_id n +:+ "' weight (" +:+ pretty weight
                                +:+ ") exceeds recommended maximum ("
                                +:+ pretty (or_default
                                              (maxNodeWeight <$> settings_rateLimits cfg) 100)
                                +:+ ")")
                               (at_node (node_id n)))
                     else st'
                   else st'
               | None => st'
               end).1
            ↔ reports "action/missing-params" st'.1) as Hlast.
  { intros st'. destruct (node_weight n) as [weight|]; [|done].
    destruct (isRuleEnabled cfg "perf/high-weight"); [|done].
    rewrite reports_push. split; [|by left]. by intros [H|[_ [=]]]. }
  rewrite Hlast, !reports_push.
  rewrite !andb_true_iff, bool_decide_eq_true, negb_true_iff. split.
  - intros [[H|[H _]]|[_ [=]]]; [by left|right; tauto].
  - intros [H|H]; [by left; left|left; right; tauto].
Qed.

Lemma validateNodeList_reports (cfg : LintConfig) (nodes : list WorkflowNode) (next : nat) :
  reports "action/missing-params" (validateNodeList cfg nodes next).1
  ↔ isRuleEnabled cfg "action/unknown-type" = true ∧ ∃ n, n ∈ nodes ∧ lacks_action n.
Proof.
  unfold validateNodeList.
  assert (∀ st, reports "action/missing-params" (fold_left (check_node cfg) nodes st).1
                ↔ reports "action/missing-params" st.1
                  ∨ (isRuleEnabled cfg "action/unknown-type" = true
                     ∧ ∃ n, n ∈ nodes ∧ lacks_action n)) as H.
  { induction nodes as [|n nodes IH]; intros st; simpl.
    - split; [by left|]. intros [H|[_ (n & Hn%elem_of_nil & _)]]; done.
    - rewrite IH, check_node_reports, exists_cons. tauto. }
  rewrite H. simpl. split; [|by right].
  intros [(i & Hi%elem_of_nil & _)|H']; done.
Qed.

Lemma validateGraphIntegrity_rule_ids (cfg : LintConfig) (nodes : list WorkflowNode)
    (next : nat) (i : LintIssue) :
  i ∈ (validateGraphIntegrity cfg nodes next).1 →
  ruleId i ∈ ["graph/missing-nodes"; "graph/entry-points"; "graph/unreachable-nodes"].
Proof.
  unfold validateGraphIntegrity. case_bool_decide; [by intros ?%elem_of_nil|].
  set (c := buildConnections cfg nodes next).
  set (st := if _ && _ then _ else emitted c).
  assert (∀ j, j ∈ st.1 →
               ruleId j ∈ ["graph/missing-nodes"; "graph/entry-points";
                           "graph/unreachable-nodes"]) as Hst.
  { intros j. unfold st. destruct (_ && _).
    - rewrite push_issue_fst. intros [Hj| ->%list_elem_of_singleton]%elem_of_app.
      + rewrite (buildConnections_rules cfg nodes next j Hj). left.
      + right. left.
    - intros Hj. rewrite (buildConnections_rules cfg nodes next j Hj). left. }
  destruct (isRuleEnabled cfg "graph/unreachable-nodes"); [|apply Hst].
  destruct (report_unreachable_fold_app
              (List.filter (λ node, negb (bool_decide
                 (node_id node ∈ reachable_from (dfs_fuel nodes) (adjacencyList c)
                    (List.filter (is_entry (reverseAdjacencyList c)) nodes)))) nodes) st)
    as (rest & -> & Hrest).
  intros [Hi|Hi]%elem_of_app; [by apply Hst|].
  rewrite (Hrest i Hi). right. right. left.
Qed.

(** [validateNodes] always resolves, and it reports an action node that
    has no action (rule id [action/missing-params]) exactly when both
    [action/unknown-type], the rule [validateNodeList] consults before it
    creates the issue, and [action/missing-params], the rule id under
    which [filterIssues] then judges it, are enabled. *)
Theorem validateNodes_missing_action (cfg : LintConfig) (nodes : list WorkflowNode)
    (next : nat) :
  ∃ issues,
    (validateNodes cfg nodes next).1 = Resolved issues
    ∧ (reports "action/missing-params" issues
       ↔ isRuleEnabled cfg "action/unknown-type" = true
         ∧ isRuleEnabled cfg "action/missing-params" = true
         ∧ ∃ n, n ∈ nodes ∧ lacks_action n).
Proof.
  unfold validateNodes. eexists. split; [done|]. simpl.
  set (ns := map to_workflow_node nodes).
  set (graph := validateGraphIntegrity cfg ns next).
  assert ((∃ n, n ∈ ns ∧ lacks_action n) ↔ ∃ n, n ∈ nodes ∧ lacks_action n) as Hns.
  { unfold ns. split.
    - intros (n' & (n & -> & Hn)%list_elem_of_fmap & Hl). by exists n.
    - intros (n & Hn & Hl). exists (to_workflow_node n). split; [|done].
      apply list_elem_of_fmap. by exists n. }
  pose proof (validateNodeList_reports cfg ns graph.2) as Hlist.
  unfold filterIssues. split.
  - intros (i & [Hi Hon]%list_elem_of_In%filter_In & Hr). rewrite Hr in Hon.
    apply list_elem_of_In, elem_of_app in Hi as [Hi|Hi].
    + apply validateGraphIntegrity_rule_ids in Hi. rewrite Hr in Hi.
      exfalso. revert Hi. apply (bool_decide_unpack _). vm_compute. exact I.
    + destruct (proj1 Hlist) as [Hu Hn]; [by exists i|].
      split_and!; [done..|]. by apply Hns.
  - intros (Hu & Hon & Hn).
    destruct (proj2 Hlist) as (i & Hi & Hr); [split; [done|by apply Hns]|].
    exists i. split; [|done]. apply list_elem_of_In, filter_In. rewrite Hr.
    split; [|done]. apply list_elem_of_In, elem_of_app. by right.
Qed.

(** ** [validateVariables] *)

Lemma check_variable_fold (test : string → bool) (variables : list VariableDefinition)
    (st : Emitted) :
  map issue_view (fold_left (check_variable test) variables st).1
  = map issue_view st.1
    ++ map naming_view (List.filter (λ v, negb (test (variable_name v))) variables)
  ∧ (fold_left (check_variable test) variables st).2
    = (st.2 + length (List.filter (λ v, negb (test (variable_name v))) variables))%nat.
Proof.
  revert st. induction variables as [|v variables IH]; intros st; simpl.
  { rewrite app_nil_r. split; [done|lia]. }
  destruct (IH (check_variable test st v)) as [-> ->]. unfold check_variable.
  destruct (negb (test (variable_name v))); [|done].
  rewrite push_issue_view. simpl. rewrite map_app, <- app_assoc. simpl.
  split; [done|lia].
Qed.

(** With [variable/naming-convention] enabled and a naming pattern that
    compiles, [validateVariables] returns one issue (code AUT-3312,
    located at [variables.<name>]) for every variable whose name the
    pattern rejects, in declaration order, and none for the others; the
    id counter advances by the number of issues. *)
Theorem validateVariables_issues (cfg : LintConfig) (variables : list VariableDefinition)
    (next : nat) (test : string → bool) :
  isRuleEnabled cfg "variable/naming-convention" = true →
  pattern_RegExp (variable_pattern cfg) = Compiled test →
  ∃ issues,
    validateVariables cfg variables next = (Js.Normal issues, (next + length issues)%nat)
    ∧ map issue_view issues
      = map naming_view (List.filter (λ v, negb (test (variable_name v))) variables).
Proof.
  intros Hon Hre. unfold validateVariables. rewrite Hon, Hre. simpl.
  destruct (check_variable_fold test variables ([], next)) as [Hview Hnext].
  simpl in Hview, Hnext. eexists. split; [|exact Hview].
  rewrite Hnext. do 2 f_equal. apply (f_equal length) in Hview.
  by rewrite !length_map in Hview.
Qed.

Lemma validateVariables_issues_witness :
  ∃ issues,
    validateVariables (config default_validator) sample_variables 1
    = (Js.Normal issues, (1 + length issues)%nat)
    ∧ map issue_view issues
      = map naming_view
          (List.filter (λ v, negb (test_identifier (variable_name v))) sample_variables).
Proof.
  apply (validateVariables_issues (config default_validator) sample_variables 1
           test_identifier); vm_compute; reflexivity.
Defined.

(** ** The two system errors of the [catch] block *)

(** When the [try] block throws (as it does for every workflow with a
    node list), the [catch] block calls [createSystemError] twice: the
    issue in [issues] and the issue in [errors] carry two consecutive
    [system-error-k] ids, and the validator's counter ends two past the
    value it had when the exception was thrown. *)
Theorem validateWorkflow_system_error_ids (this : AutoFlowValidator)
    (w : AutomaterWorkflow) (nodes : list WorkflowNode) :
  workflow_nodes w = Some nodes →
  ∃ r k,
    completed (validateWorkflow this w) = Js.Normal r
    ∧ map issue_id (issues r) = ["system-error-" +:+ pretty k]
    ∧ map issue_id (errors r) = ["system-error-" +:+ pretty (S k)]
    ∧ map issue_id (issues r) ≠ map issue_id (errors r)
    ∧ nextIssueId (validator_after (validateWorkflow this w)) = S (S k).
Proof.
  intros Hn. unfold validateWorkflow, try_catch.
  destruct (try_with_nodes (config this) w nodes (start this w) Hn) as (r' & -> & _).
  unfold validateWorkflow_catch, createSystemError. simpl.
  eexists _, (run_nextIssueId r'). split_and!; [done..| |done].
  intros [= Hk]. simpl in Hk. pose proof (pretty_nat_inj _ _ Hk). lia.
Qed.

Lemma validateWorkflow_system_error_ids_witness :
  ∃ r k,
    completed (validateWorkflow default_validator scenario_A) = Js.Normal r
    ∧ map issue_id (issues r) = ["system-error-" +:+ pretty k]
    ∧ map issue_id (errors r) = ["system-error-" +:+ pretty (S k)]
    ∧ map issue_id (issues r) ≠ map issue_id (errors r)
    ∧ nextIssueId (validator_after (validateWorkflow default_validator scenario_A))
      = S (S k).
Proof.
  apply (validateWorkflow_system_error_ids default_validator scenario_A
           [node "node-1" type_action (Some "send_message") None]).
  reflexivity.
Defined.

(** ** Extending a pack *)

(** A pack that keeps the automations of another one and adds more needs
    every permission the smaller pack needs: comparing the smaller with
    the larger one shows nothing removed, and the weight does not
    decrease. *)
Theorem comparePackPermissions_extension (packA packB : AutomaterPack)
    (added : list AutomaterWorkflow) (c : PackComparison) :
  automations_of packB = automations_of packA ++ added →
  comparePackPermissions packA packB = Js.Normal c →
  removedPermissions c = [] ∧ commonPermissions c = packATotal c
  ∧ ∃ weightA weightB,
      calculatePackPermissionWeight packA = Js.Normal weightA
      ∧ calculatePackPermissionWeight packB = Js.Normal weightB
      ∧ weightA ≤ weightB.
Proof.
  intros Hext (a & b & Ha & Hb & ->)%comparePackPermissions_run. simpl.
  destruct (aggregatePackPermissions_run packA a Ha) as (Hsa & Hna & Hea).
  destruct (aggregatePackPermissions_run packB b Hb) as (_ & _ & Heb).
  assert (∀ p, p ∈ a → p ∈ b) as Hsub.
  { intros p (w & lw & Hw & Hd & Hp)%Hea. apply Heb. exists w, lw.
    split_and!; [|done..]. rewrite Hext. apply elem_of_app. by left. }
  rewrite (filter_nothing (λ p, negb (JsSet.has p b)) a),
    (filter_everything (λ p, JsSet.has p b) a).
  - split_and!; [done|by apply sort_sorted|].
    unfold calculatePackPermissionWeight. rewrite Ha, Hb. simpl.
    eexists _, _. split_and!; [done..|]. rewrite !permissions_weight_points.
    by apply points_submseteq, NoDup_submseteq.
  - intros p Hp. by apply JsSet_has_spec, Hsub.
  - intros p Hp. by apply negb_false_iff, JsSet_has_spec, Hsub.
Qed.

Lemma comparePackPermissions_extension_witness :
  let c := {| addedPermissions := ["BAN_MEMBERS"]; removedPermissions := [];
              commonPermissions := ["SEND_MESSAGES"; "VIEW_CHANNEL"];
              packATotal := ["SEND_MESSAGES"; "VIEW_CHANNEL"];
              packBTotal := ["BAN_MEMBERS"; "SEND_MESSAGES"; "VIEW_CHANNEL"] |} in
  removedPermissions c = [] ∧ commonPermissions c = packATotal c
  ∧ ∃ weightA weightB,
      calculatePackPermissionWeight messaging_pack = Js.Normal weightA
      ∧ calculatePackPermissionWeight two_automations = Js.Normal weightB
      ∧ weightA ≤ weightB.
Proof.
  intros c.
  apply (comparePackPermissions_extension messaging_pack two_automations
           (drop 1 (automations_of two_automations)) c).
  - reflexivity.
  - vm_compute. reflexivity.
Defined.

(** ** [validateWorkflow] and its argument *)

(** No [validateWorkflow] call changes the workflow object it is given,
    whatever the validator and the workflow: with a node list the run
    ends in the [catch] block before the permission step, and without one
    the permission step is skipped. In particular no call ever writes
    [workflow.permissions] or [node.permissions]. *)
Theorem validateWorkflow_never_mutates (this : AutoFlowValidator) (w : AutomaterWorkflow) :
  workflow_after (validateWorkflow this w) = w
  ∧ workflow_permissions (workflow_after (validateWorkflow this w))
    = workflow_permissions w.
Proof.
  assert (workflow_after (validateWorkflow this w) = w) as H; [|by rewrite H].
  unfold validateWorkflow, try_catch.
  destruct (workflow_nodes w) as [nodes|] eqn:Hn.
  - destruct (try_with_nodes (config this) w nodes (start this w) Hn) as (r' & -> & Hw).
    simpl. exact Hw.
  - rewrite (try_without_nodes (config this) w (start this w) Hn). cbv zeta.
    destruct (workflow_variables w) as [vars|]; [|done].
    destruct (validateVariables (config this) vars _) as [[vi|e] n]; done.
Qed.
